(** * xgal.deltag: catalogs, pixelized maps and overdensity fields

    A shallow embedding of [xgal/deltag.py] and the properties of its
    three operations:

    - [make_healpix_map]  (the pixel binner),
    - [count2density]     (the field converter) and [overdensity],
    - [density2count]     (the catalog sampler).

    Maps are numpy arrays of float64.  The embedding is written over an
    interface [Arith] of the arithmetic the code uses, and its properties
    are those of the instance [B64], IEEE-754 binary64 as specified by
    [SpecFloat] (signed zeros, infinities, NaN and round-to-nearest-even:
    what numpy computes).  The spherical pixelization (healpy) and the
    random source are external to the module and enter as parameters. *)

From Stdlib Require Import ZArith QArith Qcanon Bool.
From Stdlib Require Import Floats.SpecFloat.
From stdpp Require Import base list strings.

Set Default Proof Using "Type".
Local Open Scope Z_scope.

(** ** Python exceptions and results *)

Inductive exn :=
  | AssertionError (msg : string)
  | NameError (name : string)
  | TypeError (msg : string)
  | ValueError (msg : string)
  | IndexError (msg : string).

Inductive result (A : Type) :=
  | Ok (a : A)
  | Raise (e : exn).
Arguments Ok {A} a.
Arguments Raise {A} e.

#[export] Instance result_ret : MRet result := fun A a => Ok a.
#[export] Instance result_bind : MBind result := fun A B k r =>
  match r with
  | Ok a => k a
  | Raise e => Raise e
  end.

(** [assert cond, msg] *)
Definition assert (cond : bool) (msg : string) : result unit :=
  if cond then Ok tt else Raise (AssertionError msg).

(** A [for] loop whose body may raise: the bodies run in order and the
    first exception ends the loop. *)
Fixpoint mapM {A B} (f : A → result B) (l : list A) : result (list B) :=
  match l with
  | [] => Ok []
  | a :: l' => b ← f a ; bs ← mapM f l' ; Ok (b :: bs)
  end.

(** ** The arithmetic of map values *)

(** [lit m e] is the constant [m * 2^e]: every float64 literal of the
    source is such a dyadic number.  [ltb] and [eqb] are the comparisons
    [<] and [==] of numpy (false on NaN). *)
Class Arith (F : Type) := {
  lit : Z → Z → F;
  add : F → F → F;
  sub : F → F → F;
  mul : F → F → F;
  div : F → F → F;
  ltb : F → F → bool;
  eqb : F → F → bool;
}.

(** What only IEEE arithmetic has: [np.inf] and [np.isnan]. *)
Class IEEE (F : Type) `{Arith F} := {
  inf : F;
  isnan : F → bool;
}.

(** IEEE-754 binary64: 53 bits of precision, infinities at exponent 1024.
    A finite [spec_float] is a float64 when its mantissa and exponent are
    in canonical form, [valid_binary prec emax x = true]; the operations
    of [SpecFloat] return such values. *)
Module B64.
Definition prec : Z := 53.
Definition emax : Z := 1024.

Abbreviation t := spec_float (only parsing).

Definition of_dyadic (m e : Z) : t := binary_normalize prec emax m e false.

Definition is_nan (x : t) : bool :=
  match x with S754_nan => true | _ => false end.

Definition is_zero (x : t) : bool :=
  match x with S754_zero _ => true | _ => false end.

Definition is_finite (x : t) : bool :=
  match x with S754_zero _ | S754_finite _ _ _ => true | _ => false end.
End B64.

#[export] Instance B64_arith : Arith B64.t := {|
  lit := B64.of_dyadic;
  add := SFadd B64.prec B64.emax;
  sub := SFsub B64.prec B64.emax;
  mul := SFmul B64.prec B64.emax;
  div := SFdiv B64.prec B64.emax;
  ltb := SFltb;
  eqb := SFeqb;
|}.

#[export] Instance B64_ieee : IEEE B64.t := {|
  inf := S754_infinity false;
  isnan := B64.is_nan;
|}.

(** The rationals: the arithmetic without rounding.  The code does not
    compute in it; it serves to name the ideal value that a float64
    result approximates, in the scenario of [count2density] below. *)
Module Exact.
Abbreviation t := Qc (only parsing).

Definition of_dyadic (m e : Z) : t :=
  Q2Qc (inject_Z m * Qpower (2 # 1) e).

Definition ltb (x y : t) : bool :=
  match (x ?= y)%Qc with Lt => true | _ => false end.

Definition eqb (x y : t) : bool :=
  match (x ?= y)%Qc with Eq => true | _ => false end.
End Exact.

#[export] Instance Exact_arith : Arith Exact.t := {|
  lit := Exact.of_dyadic;
  add := Qcplus;
  sub := Qcminus;
  mul := Qcmult;
  div := Qcdiv;
  ltb := Exact.ltb;
  eqb := Exact.eqb;
|}.

(** ** numpy on one-dimensional arrays *)

Section Numpy.
Context {F : Type} `{Arith F}.

Definition zero : F := lit 0 0.
Definition one : F := lit 1 0.

(** [x > y] *)
Definition gtb (x y : F) : bool := ltb y x.

(** [np.zeros(n, dtype=float)], [np.ones(n, dtype=float)] *)
Definition zeros (n : nat) : list F := replicate n zero.
Definition ones (n : nat) : list F := replicate n one.

(** [-0.0], the value numpy's summation starts from: [-1 * 0]. *)
Definition neg_zero : F := mul (lit (-1) 0) zero.

(** [np.sum(a)] on a one-dimensional float64 array is numpy's pairwise
    summation ([DOUBLE_pairwise_sum]).  Fewer than 8 elements are added
    from left to right, starting from [-0.0].  Up to 128 elements are
    added in 8 interleaved accumulators [r[0..7]], row after row of 8
    elements; then [((r0+r1)+(r2+r3))+((r4+r5)+(r6+r7))], then the
    [n % 8] elements left, one after the other.  A longer array is split
    in two at [n/2], rounded down to a multiple of 8, and the sums of the
    two parts are added. *)
Definition sum8 (r : list F) : F :=
  match r with
  | [r0; r1; r2; r3; r4; r5; r6; r7] =>
      add (add (add r0 r1) (add r2 r3)) (add (add r4 r5) (add r6 r7))
  | _ => zero
  end.

(** [k] times [r[j] += a[i + j]] for [j] in 0..7, then [i += 8] *)
Fixpoint accumulate8 (k : nat) (r a : list F) : list F * list F :=
  match k with
  | O => (r, a)
  | S k' => accumulate8 k' (zip_with add r (take 8 a)) (drop 8 a)
  end.

Definition block_sum (a : list F) : F :=
  let '(r, rest) := accumulate8 (length a / 8 - 1) (take 8 a) (drop 8 a) in
  foldl add (sum8 r) rest.

(** The recursion halves the array: [fuel] bounds its depth, and the
    length of the array is always enough ([pairwise_sum_unfold]). *)
Fixpoint pairwise_sum_fuel (fuel : nat) (a : list F) : F :=
  let n := length a in
  if (n <? 8)%nat then foldl add neg_zero a
  else if (n <=? 128)%nat then block_sum a
  else match fuel with
       | O => block_sum a
       | S fuel' =>
           let n2 := (n / 2 - (n / 2) mod 8)%nat in
           add (pairwise_sum_fuel fuel' (take n2 a))
               (pairwise_sum_fuel fuel' (drop n2 a))
       end.

Definition pairwise_sum (a : list F) : F := pairwise_sum_fuel (length a) a.

(** The reduction adds the pairwise sum to its initial value, [-0.0];
    the sum of an empty array is [0.0].  (Older versions of numpy start
    from [0.0] instead: the two agree except on arrays of [-0.0] only.)
    The arrays summed in this module, [a[mask]], are contiguous. *)
Definition np_sum (a : list F) : F :=
  match a with
  | [] => zero
  | _ => add neg_zero (pairwise_sum a)
  end.

(** What [np.add.at] leaves in an entry that was 0.0 and to which the
    values [v] were added one after the other. *)
Definition accumulated (v : list F) : F := foldl add zero v.

(** [np.sum(b.astype(int))]: the number of true entries *)
Definition count_true (b : list bool) : nat := length (List.filter id b).

(** [a[msk]]: the entries of [a] where the boolean array [msk] is true.
    numpy raises IndexError unless both have the same length. *)
Fixpoint select {A} (a : list A) (msk : list bool) : list A :=
  match a, msk with
  | x :: a', b :: msk' => if b then x :: select a' msk' else select a' msk'
  | _, _ => []
  end.

Definition getitem_mask {A} (a : list A) (msk : list bool) : result (list A) :=
  if decide (length msk = length a) then Ok (select a msk)
  else Raise (IndexError "boolean index did not match indexed array").

(** [a[msk] = v] with [v] an array of [sum(msk)] values: the masked
    entries of [a] are replaced, in order, by the entries of [v]. *)
Fixpoint scatter {A} (a : list A) (msk : list bool) (v : list A) : list A :=
  match a, msk with
  | x :: a', b :: msk' =>
      if b then
        match v with
        | y :: v' => y :: scatter a' msk' v'
        | [] => x :: scatter a' msk' []
        end
      else x :: scatter a' msk' v
  | _, _ => a
  end.

(** [a[msk] = x] with [x] a scalar *)
Fixpoint fill {A} (a : list A) (msk : list bool) (x : A) : list A :=
  match a, msk with
  | y :: a', b :: msk' => (if b then x else y) :: fill a' msk' x
  | _, _ => a
  end.

(** Broadcasting of two one-dimensional operands: equal lengths pair
    up, a length of 1 is repeated, anything else raises ValueError. *)
Definition broadcast2 {A B} (a : list A) (b : list B) : result (list (A * B)) :=
  if decide (length a = length b) then Ok (zip a b)
  else match a, b with
       | [x], _ => Ok (map (pair x) b)
       | _, [y] => Ok (map (fun x => (x, y)) a)
       | _, _ => Raise (ValueError "operands could not be broadcast together")
       end.

(** An index into an array of length [n]: negative indices count from
    the end, anything outside [-n, n) raises IndexError. *)
Definition norm_index (n : nat) (i : Z) : result nat :=
  if decide (0 ≤ i < Z.of_nat n) then Ok (Z.to_nat i)
  else if decide (- Z.of_nat n ≤ i < 0) then Ok (Z.to_nat (i + Z.of_nat n))
  else Raise (IndexError "index out of bounds").

(** [np.add.at(a, idx, v)]: [a[i] += v] for every index, repeated
    indices accumulating. *)
Fixpoint add_at (a : list F) (iv : list (Z * F)) : result (list F) :=
  match iv with
  | [] => Ok a
  | (i, v) :: rest =>
      k ← norm_index (length a) i ;
      add_at (alter (fun x => add x v) k a) rest
  end.
End Numpy.

(** ** Arrays of one or two dimensions, boolean and real masks *)

(** [quantity] and [weight] are one- or two-dimensional arrays; a
    two-dimensional array is the list of its rows. *)
Inductive ndarray (F : Type) :=
  | Arr1 (v : list F)
  | Arr2 (rows : list (list F)).
Arguments Arr1 {F} v.
Arguments Arr2 {F} rows.

(** A mask is a boolean array or a real (0/1) array. *)
Inductive mask_array (F : Type) :=
  | BoolMask (b : list bool)
  | RealMask (v : list F).
Arguments BoolMask {F} b.
Arguments RealMask {F} v.

Section Arrays.
Context {F : Type} `{Arith F}.

(** [a.shape] *)
Definition shape (a : ndarray F) : list nat :=
  match a with
  | Arr1 v => [length v]
  | Arr2 rows => [length rows; length (default [] (head rows))]
  end.

(** [np.atleast_2d(a)]: a one-dimensional array of length n becomes the
    single row of an array of shape (1, n). *)
Definition atleast_2d (a : ndarray F) : list (list F) :=
  match a with
  | Arr1 v => [v]
  | Arr2 rows => rows
  end.

Definition elements (a : ndarray F) : list F :=
  match a with
  | Arr1 v => v
  | Arr2 rows => concat rows
  end.

(** [np.ones_like(a)] *)
Definition ones_like (rows : list (list F)) : list (list F) :=
  map (map (fun _ => one)) rows.

(** [a[i,:]] *)
Definition row (rows : list (list F)) (i : nat) : result (list F) :=
  match rows !! i with
  | Some r => Ok r
  | None => Raise (IndexError "index out of bounds")
  end.

(** [len(mask)] and [mask.astype(bool)]: a real entry is true unless
    it equals 0. *)
Definition mask_len (m : mask_array F) : nat :=
  match m with
  | BoolMask b => length b
  | RealMask v => length v
  end.

Definition astype_bool (m : mask_array F) : list bool :=
  match m with
  | BoolMask b => b
  | RealMask v => map (fun x => negb (eqb x zero)) v
  end.

(** [b.astype(float)] *)
Definition astype_float (b : list bool) : list F :=
  map (fun x : bool => if x then one else zero) b.

(** [a[msk] = x], scalar [x], with numpy's length check *)
Definition setitem_mask (a : list F) (msk : list bool) (x : F) : result (list F) :=
  if decide (length msk = length a) then Ok (fill a msk x)
  else Raise (IndexError "boolean index did not match indexed array").

(** [a[msk] = v], array [v]: one value per true entry of [msk] *)
Definition setitem_mask_array (a : list F) (msk : list bool) (v : list F)
    : result (list F) :=
  if decide (length msk = length a) then
    if decide (length v = count_true msk) then Ok (scatter a msk v)
    else Raise (ValueError "NumPy boolean array indexing assignment cannot assign")
  else Raise (IndexError "boolean index did not match indexed array").

(** A value array used against [n] indices: it must have [n] entries,
    or one entry that is repeated. *)
Definition broadcast_to (v : list F) (n : nat) : result (list F) :=
  if decide (length v = n) then Ok v
  else match v with
       | [x] => Ok (replicate n x)
       | _ => Raise (ValueError "shape mismatch: value array could not be broadcast")
       end.
End Arrays.

(** ** The pixel binner: [make_healpix_map] *)

(** The dictionary returned with [return_extra=True]. *)
Record extra_stats (F : Type) := {
  count_tot_in_mask : F;
  count_per_pixel_in_mask : F;
  count_per_steradian_in_mask : F;
  count_per_sqdegree_in_mask : F;
  count_per_sqarcmin_in_mask : F;
  ipix_masked : list (Z * bool);
}.
Arguments count_tot_in_mask {F} _.
Arguments count_per_pixel_in_mask {F} _.
Arguments ipix_masked {F} _.

Definition msg_shape : string := "[make_healpix_map] quantity and weight must have the same shape".
Definition msg_weight : string := "[make_healpix_map] weight is not strictly positive".
Definition msg_qw_len : string := "[make_healpix_map] quantity/weight arrays don't have the same length".
Definition msg_radec : string := "[make_healpix_map] ra/dec arrays don't have the same length".
Definition msg_mask_len : string := "[make_healpix_map] mask array does not have the right length".
Definition msg_count : string := "[make_healpix_map] count[bool_mask] is not positive on the provided mask !".

Section Binner.
Context {F : Type} `{Arith F}.

(** healpy, the external pixelization: [hp.nside2npix],
    [hp.ang2pix] on one direction (colatitude, longitude; [None] when
    healpy rejects the direction, which raises ValueError) and
    [hp.nside2pixarea(nside, degrees)]. *)
Variable nside2npix : Z → nat.
Variable ang2pix : Z → F → F → option Z.
Variable nside2pixarea : Z → bool → F.

Definition ang2pix_call (nside : Z) (dir : F * F) : result Z :=
  match ang2pix nside dir.1 dir.2 with
  | Some i => Ok i
  | None => Raise (ValueError "THETA is out of range [0,pi]")
  end.

(** [np.pi] and [hp.UNSEEN = -1.6375e30], as float64 *)
Definition np_pi : F := lit 884279719003555 (-48).
Definition UNSEEN : F := lit (-1454392162258955) 50.

(** [hp.ang2pix(nside, (90.0-dec)/180.0*np.pi, ra/180.0*np.pi)] *)
Definition pixels (nside : Z) (ra dec : list F) : result (list Z) :=
  let theta := map (fun d => mul (div (sub (lit 90 0) d) (lit 180 0)) np_pi) dec in
  let phi := map (fun r => mul (div r (lit 180 0)) np_pi) ra in
  dirs ← broadcast2 theta phi;
  mapM (ang2pix_call nside) dirs.

(** One pass of the loop over the rows of [quantity]. *)
Definition weighted_mean_map (npix : nat) (ipix : list Z) (bool_mask : list bool)
    (x : F) (q w : list F) : result (list F) :=
  wv ← broadcast_to w (length ipix);
  sum_w ← add_at (zeros npix) (zip ipix wv);
  qw ← broadcast2 q w;
  qwv ← broadcast_to (map (fun '(a, b) => mul a b) qw) (length ipix);
  outmap ← add_at (zeros npix) (zip ipix qwv);
  num ← getitem_mask outmap bool_mask;
  den ← getitem_mask sum_w bool_mask;
  outmap ← setitem_mask_array outmap bool_mask (zip_with div num den);
  setitem_mask outmap (map negb bool_mask) x.

(** The loop [for i in range(quantity.shape[0])] (lines 93-103). *)
Definition quantity_maps (npix : nat) (ipix : list Z) (bool_mask : list bool) (x : F)
    (qw : option (list (list F) * list (list F))) : result (list (list F)) :=
  match qw with
  | Some (quantity, weight) =>
      mapM (fun i =>
              q ← row quantity i;
              w ← row weight i;
              weighted_mean_map npix ipix bool_mask x q w)
           (seq 0 (length quantity))
  | None => Ok []
  end.

(** Lines 82-85: the mask is [count > 0] unless the caller gave one. *)
Definition bool_mask_of (mask : option (mask_array F)) (count : list F) : list bool :=
  match mask with
  | None => map (fun c => gtb c zero) count
  | Some m => astype_bool m
  end.

Definition make_extra (nside : Z) (ipix : list Z) (count : list F)
    (bool_mask : list bool) : result (extra_stats F) :=
  inmask ← getitem_mask count bool_mask;
  let tot := np_sum inmask in
  let per_pixel :=
    div (mul tot one) (lit (Z.of_nat (count_true bool_mask)) 0) in
  let per_sqdegree := div per_pixel (nside2pixarea nside true) in
  flags ← mapM (fun i => k ← norm_index (length bool_mask) i;
                         Ok (i, default false (bool_mask !! k))) ipix;
  Ok {| count_tot_in_mask := tot;
        count_per_pixel_in_mask := per_pixel;
        count_per_steradian_in_mask := div per_pixel (nside2pixarea nside false);
        count_per_sqdegree_in_mask := per_sqdegree;
        count_per_sqarcmin_in_mask := div per_sqdegree (lit 3600 0);
        ipix_masked := flags |}.

(** The block under [if quantity is not None:] (lines 50-62): the rows
    of [quantity] and of [weight] after [np.atleast_2d], or nothing when
    only counts are asked for. *)
Definition prepare_quantity (ra dec : list F) (quantity weight : option (ndarray F))
    : result (option (list (list F) * list (list F))) :=
  match quantity with
  | Some q =>
      let quantity := atleast_2d q in
      weight ←
        match weight with
        | Some w =>
            _ ← assert (bool_decide (shape (Arr2 quantity) = shape w)) msg_shape;
            _ ← assert (forallb (fun v => gtb v zero) (elements w)) msg_weight;
            Ok (atleast_2d w)
        | None => Ok (ones_like quantity)
        end;
      _ ← assert (bool_decide (shape (Arr2 quantity) !! 1%nat = shape (Arr2 weight) !! 1%nat))
            msg_qw_len;
      _ ← assert (bool_decide (length ra = length dec)) msg_radec;
      Ok (Some (quantity, weight))
  | None => Ok None
  end.

Definition make_healpix_map (ra dec : list F) (quantity : option (ndarray F))
    (nside : Z) (mask : option (mask_array F)) (weight : option (ndarray F))
    (fill_UNSEEN return_extra : bool)
    : result (list (list F) * list F * mask_array F * option (extra_stats F)) :=
  qw ← prepare_quantity ra dec quantity weight;
  let npix := nside2npix nside in
  _ ← match mask with
      | Some m => assert (bool_decide (mask_len m = npix)) msg_mask_len
      | None => Ok tt
      end;
  let x := if fill_UNSEEN then UNSEEN else zero in
  let count := zeros npix in
  ipix ← pixels nside ra dec;
  count ← add_at count (map (fun i => (i, one)) ipix);
  let bool_mask := bool_mask_of mask count in
  count ← setitem_mask count (map negb bool_mask) x;
  _ ← match mask with
      | None =>
          inmask ← getitem_mask count bool_mask;
          assert (forallb (fun c => gtb c zero) inmask) msg_count
      | Some _ => Ok tt
      end;
  outmaps ← quantity_maps npix ipix bool_mask x qw;
  let returned_mask :=
    match mask with
    | None => RealMask (astype_float bool_mask)
    | Some m => m
    end in
  if return_extra then
    extra ← make_extra nside ipix count bool_mask;
    Ok (outmaps, count, returned_mask, Some extra)
  else
    Ok (outmaps, count, returned_mask, None).
End Binner.

(** ** The field converter: [count2density] *)

Section Converter.
Context {F : Type} `{Arith F}.

Definition count2density (count : list F) (mask_frac : option (list F))
    (mask : option (mask_array F)) : result (list F) :=
  let npix := length count in
  let mask_frac := default (ones npix) mask_frac in
  let mask := default (BoolMask (replicate npix true)) mask in
  let msk := astype_bool mask in
  (* Local mean density to compare count with. *)
  let avg_in_pixel := zeros npix in
  frac_in ← getitem_mask mask_frac msk;
  count_in ← getitem_mask count msk;
  let total := np_sum count_in in
  let norm := np_sum frac_in in
  avg_in_pixel ← setitem_mask_array avg_in_pixel msk
                   (map (fun f => div (mul f total) norm) frac_in);
  (* Density *)
  let density := zeros npix in
  count_in ← getitem_mask count msk;
  avg_in ← getitem_mask avg_in_pixel msk;
  setitem_mask_array density msk
    (map (fun r => sub r one) (zip_with div count_in avg_in)).
End Converter.

(** ** The catalog sampler: [density2count] *)

Definition msg_clip : string :=
  "[density2count] The density map has pixels below -1, will be clipped.".

Section Sampler.
Context {F : Type} `{IEEE F}.

(** healpy's [hp.npix2nside] ([None] on a length that is no pixel
    count: ValueError) and [hp.nside2pixarea]; numpy's random source, a
    state [rng] and [np.random.poisson], which draws one sample per rate
    ([None] on a rate it rejects: ValueError). *)
Variable npix2nside : nat → option Z.
Variable nside2pixarea : Z → bool → F.
Variable rng : Type.
Variable poisson : rng → list F → option (list Z * rng).

Definition or_raise {A} (o : option A) (e : exn) : result A :=
  match o with
  | Some a => Ok a
  | None => Raise e
  end.

(** [np.maximum], [np.minimum] and [np.clip(x, lo, hi)], which is
    [minimum(maximum(x, lo), hi)]: a NaN in [x] is kept. *)
Definition np_maximum (a b : F) : F :=
  if isnan a then a else if gtb a b then a else b.
Definition np_minimum (a b : F) : F :=
  if isnan a then a else if ltb a b then a else b.
Definition np_clip (x lo hi : F) : F := np_minimum (np_maximum x lo) hi.

(** [densitymap[mask]]: only a boolean array selects entries. *)
Definition index_by_mask (a : list F) (m : mask_array F) : result (list F) :=
  match m with
  | BoolMask b => getitem_mask a b
  | RealMask _ => Raise (IndexError "arrays used as indices must be of integer (or boolean) type")
  end.

(** [mask.astype(float)] *)
Definition mask_astype_float (m : mask_array F) : list F :=
  match m with
  | BoolMask b => astype_float b
  | RealMask v => v
  end.

(** [1 + delta], clipped below at 0 *)
Definition relative_density (delta : F) : F := np_clip (add one delta) zero inf.

(** The array [lamb] of Poisson rates, from [nbarpix] on. *)
Definition sampling_rate (densitymap : list F) (nbarpix : F) (mask : mask_array F)
    (completeness : list F) : result (list F) :=
  let onepdelta := map relative_density densitymap in
  onepdelta ← setitem_mask onepdelta (map negb (astype_bool mask)) zero;
  rates ← broadcast2 (map (mul nbarpix) onepdelta) completeness;
  Ok (map (fun '(a, c) => mul a c) rates).

(** The result pairs what was printed with the outcome of the call. *)
Definition density2count (state : rng) (densitymap : list F) (nbar : F)
    (mask : option (mask_array F)) (completeness : option (list F)) (pixel : bool)
    : list string * result (list Z * rng) :=
  let mask := default (BoolMask (replicate (length densitymap) true)) mask in
  let completeness := default (mask_astype_float mask) completeness in
  match index_by_mask densitymap mask with
  | Raise e => ([], Raise e)
  | Ok inmask =>
      let printed :=
        if existsb (fun d => ltb d (lit (-1) 0)) inmask then [msg_clip] else [] in
      (printed,
       nbarpix ←
         (if pixel then Ok nbar
          else nside ← or_raise (npix2nside (length densitymap))
                                (ValueError "Wrong pixel number");
               Ok (mul nbar (nside2pixarea nside false)));
       lamb ← sampling_rate densitymap nbarpix mask completeness;
       or_raise (poisson state lamb) (ValueError "lam < 0 or lam is NaN"))
  end.
End Sampler.

(** ** The composite operation: [overdensity] *)

(** The names bound at module level in deltag.py: the two imports and
    the five functions. *)
Definition module_globals : list string :=
  ["np"; "hp"; "get_catalog"; "make_healpix_map"; "count2density";
   "density2count"; "overdensity"].

(** The parameters and local variables of [overdensity]. *)
Definition overdensity_locals : list string :=
  ["ras"; "decs"; "mask_frac"; "nside"; "binary_mask"; "count"; "density"].

Section Composite.
Context {F : Type} `{Arith F}.
Variable nside2npix : Z → nat.
Variable ang2pix : Z → F → F → option Z.
Variable nside2pixarea : Z → bool → F.

(** Reading, inside [overdensity], a name that is no local variable
    of it: the name is looked up among the module's globals (and
    Python's builtins, which have no [quantity]).  None of the globals is
    an array (they are modules and functions), and a name bound nowhere
    raises NameError. *)
Definition load_global (name : string) : result (option (ndarray F)) :=
  if bool_decide (name ∈ module_globals)
  then Raise (TypeError "not an array")
  else Raise (NameError name).

Definition overdensity (ras decs mask_frac : list F) (nside : Z) : result (list F) :=
  let binary_mask := map (fun v => eqb v zero) mask_frac in
  quantity ← load_global "quantity";
  '(_, count, _, _) ←
    make_healpix_map nside2npix ang2pix nside2pixarea ras decs quantity nside
      (Some (BoolMask binary_mask)) None false false;
  count2density count (Some mask_frac) (Some (BoolMask binary_mask)).
End Composite.

(** ** A small pixelization to run the code on *)

(** healpy itself is outside the module.  To evaluate [make_healpix_map]
    on concrete catalogs we use a stand-in with healpy's pixel count
    [12 * nside^2] that sends the northern directions (colatitude below
    pi/2) to pixel 0 and the others to the last pixel. *)
Module Toy.
Section Toy.
Context {F : Type} `{Arith F}.

Definition nside2npix (nside : Z) : nat := Z.to_nat (12 * nside * nside).

Definition ang2pix (nside : Z) (theta phi : F) : option Z :=
  Some (if ltb theta (div np_pi (lit 2 0)) then 0 else 12 * nside * nside - 1).

(** the sphere, [4 pi] steradians or [4 pi (180/pi)^2] square degrees,
    shared equally among the pixels *)
Definition nside2pixarea (nside : Z) (degrees : bool) : F :=
  let area := div (mul (lit 4 0) np_pi) (lit (12 * nside * nside) 0) in
  let deg := div (lit 180 0) np_pi in
  if degrees then mul area (mul deg deg) else area.
End Toy.
End Toy.

(** Real literals of the examples: [[# n]] is the float [n.0]. *)
Notation "[# n ]" := (lit n%Z 0) (at level 0, n at level 200, format "[# n ]").

(** * The vocabulary of the statements *)

(** Indexing and broadcasting raise IndexError or ValueError, never
    AssertionError: an AssertionError comes from an [assert] of the
    source. *)
Definition not_assertion (e : exn) : Prop :=
  match e with
  | AssertionError _ => False
  | _ => True
  end.

Section Vocabulary.
Context {F : Type} `{Arith F}.

(** The map that is [f a[p] b[p]] on the pixels of the mask and [z] on
    the others. *)
Fixpoint masked2 (f : F → F → F) (z : F) (msk : list bool) (a b : list F) : list F :=
  match msk, a, b with
  | m :: msk', x :: a', y :: b' => (if m then f x y else z) :: masked2 f z msk' a' b'
  | _, _, _ => []
  end.

(** The density of the specification: on the mask,
    [count / (frac * total / norm) - 1] with [total] and [norm] the sums
    of [count] and of [frac] over the mask, and 0 elsewhere. *)
Definition density_spec (count frac : list F) (msk : list bool) : list F :=
  let total := np_sum (select count msk) in
  let norm := np_sum (select frac msk) in
  masked2 (fun c f => sub (div c (div (mul f total) norm)) one) zero msk count frac.

(** The arrays [count2density] works on once the defaults are filled in. *)
Definition effective_frac (count : list F) (mask_frac : option (list F)) : list F :=
  default (ones (length count)) mask_frac.
Definition effective_mask (count : list F) (mask : option (mask_array F)) : list bool :=
  astype_bool (default (BoolMask (replicate (length count) true)) mask).

(** The count map with [count[p]] replaced by [c * count[p]] on the mask. *)
Definition scale_in_mask (c : F) (msk : list bool) (count : list F) : list F :=
  zip_with (fun (m : bool) x => if m then mul c x else x) msk count.

(** The values given to [avg_in_pixel[msk]]: the local expectation on the
    pixels of the mask. *)
Definition local_expected (count frac : list F) (msk : list bool) : list F :=
  map (fun f => div (mul f (np_sum (select count msk))) (np_sum (select frac msk)))
      (select frac msk).

(** The count [n] as a map value, and what it takes for counts up to [N]
    to be handled without rounding: they add up as the integers do, only
    0 fails the test [count > 0], and adding one to [-0.0] gives it
    back. *)
Definition cnt (n : nat) : F := lit (Z.of_nat n) 0.

Definition counts_exact_upto (N : nat) : Prop :=
  (∀ a b : nat, (a + b ≤ N)%nat → add (cnt a) (cnt b) = cnt (a + b))
  ∧ (∀ a : nat, (a ≤ N)%nat → gtb (cnt a) zero = bool_decide (0 < a)%nat)
  ∧ (∀ a : nat, (a ≤ N)%nat → add neg_zero (cnt a) = cnt a).

End Vocabulary.

(** A mask covers a catalog when it has one entry per pixel and is true
    at the pixel of every object; no mask at all covers every catalog. *)
Definition covers {F : Type} `{Arith F} (mask : option (mask_array F)) (npix : nat)
    (ipix : list Z) : Prop :=
  match mask with
  | None => True
  | Some m =>
      mask_len m = npix
      ∧ Forall (fun i => astype_bool m !! Z.to_nat i = Some true) ipix
  end.

(** Zero, negative or minus infinity. *)
Definition nonpos (x : B64.t) : bool :=
  match x with
  | S754_zero _ | S754_finite true _ _ | S754_infinity true => true
  | _ => false
  end.

(** [M * 2^E] is the float64 form of the positive integer [c < 2^53]. *)
Definition repr (c : Z) (M : positive) (E : Z) : Prop :=
  2 ^ 52 ≤ Z.pos M < 2 ^ 53 ∧ -52 ≤ E ≤ 0 ∧ Z.pos M = c * 2 ^ (- E).

(** Float64 numbers away from overflow and underflow.  [shift k x] adds
    [k] to the exponent of a finite [x]; a [moderate] number is a normal
    one, with a mantissa of 53 bits and an exponent between -200 and 200,
    so a magnitude from 2^-148 to 2^253; a [tame] one, when finite, has a
    mantissa below 2^53 and an exponent between -252 and 254. *)
Definition shift (k : Z) (x : B64.t) : B64.t :=
  match x with
  | S754_finite s m e => S754_finite s m (e + k)
  | _ => x
  end.

Definition moderate (x : B64.t) : bool :=
  match x with
  | S754_finite _ m e => (Z.pos (digits2_pos m) =? 53) && (-200 <=? e) && (e <=? 200)
  | _ => false
  end.

Definition tame (x : B64.t) : Prop :=
  match x with
  | S754_finite _ m e => Z.pos m < 2 ^ 53 ∧ -252 ≤ e ≤ 254
  | _ => True
  end.

(** The densities that [density2count] clips: the float64 numbers at or
    below -1, minus infinity included. *)
Definition clipped (d : B64.t) : bool :=
  valid_binary B64.prec B64.emax d && SFleb d (lit (-1) 0).

(** The mean number of objects per pixel of a call of [density2count]:
    [nbar] itself with [pixel=True], [nbar] times the area of a pixel
    otherwise ([None] when healpy knows no map of [npix] pixels). *)
Definition mean_per_pixel {F : Type} `{Arith F} (npix2nside : nat → option Z)
    (nside2pixarea : Z → bool → F) (npix : nat) (nbar : F) (pixel : bool) : option F :=
  if pixel then Some nbar
  else match npix2nside npix with
       | Some nside => Some (mul nbar (nside2pixarea nside false))
       | None => None
       end.

(** A float64 whose sign bit is clear: +0, a positive number or +inf;
    NaN is let through. *)
Definition not_negative (x : B64.t) : bool :=
  match x with
  | S754_zero false | S754_finite false _ _ | S754_infinity false | S754_nan => true
  | _ => false
  end.

(** The objects of a pixel.  [lands_in n p i] tells whether the index
    [i], read in an array of [n] pixels, designates pixel [p]; [hits] counts
    the objects of a catalog that land in [p], [histogram] lists these
    numbers pixel by pixel, and [values_at] keeps, in catalog order, the
    values that [np.add.at] adds to pixel [p]. *)
Definition lands_in (n p : nat) (i : Z) : bool :=
  match norm_index n i with
  | Ok k => bool_decide (k = p)
  | Raise _ => false
  end.

Definition hits (n : nat) (ipix : list Z) (p : nat) : nat :=
  length (filter (fun i => lands_in n p i = true) ipix).

Definition histogram (n : nat) (ipix : list Z) : list nat :=
  map (hits n ipix) (seq 0 n).

Definition values_at {F : Type} (n p : nat) (iv : list (Z * F)) : list F :=
  map snd (filter (fun x : Z * F => lands_in n p x.1 = true) iv).

(** * Properties *)

(** ** The float64 constants *)

Example np_pi_float64 : (np_pi : B64.t) = S754_finite false 7074237752028440 (-51).
Proof. reflexivity. Qed.

Example UNSEEN_float64 : (UNSEEN : B64.t) = S754_finite true 5817568649035820 48.
Proof. reflexivity. Qed.

Example constants_valid :
  valid_binary B64.prec B64.emax (np_pi : B64.t) = true
  ∧ valid_binary B64.prec B64.emax (UNSEEN : B64.t) = true
  ∧ valid_binary B64.prec B64.emax ([#-2] : B64.t) = true.
Proof. by vm_compute. Qed.

(** ** Results *)

Lemma bind_Ok_inv {A B} (r : result A) (k : A → result B) (b : B) :
  (r ≫= k) = Ok b → ∃ a, r = Ok a ∧ k a = Ok b.
Proof. destruct r as [a|e]; simpl; [eauto | discriminate]. Qed.

Lemma bind_Raise_inv {A B} (r : result A) (k : A → result B) (e : exn) :
  (r ≫= k) = Raise e → r = Raise e ∨ ∃ a, r = Ok a ∧ k a = Raise e.
Proof. destruct r as [a|e']; simpl; [eauto | left; congruence]. Qed.

Lemma assert_Raise_inv (c : bool) (msg : string) (e : exn) :
  assert c msg = Raise e → c = false ∧ e = AssertionError msg.
Proof. destruct c; simpl; [discriminate | intros [= <-]; auto]. Qed.

(** Split a failed or successful sequence of statements at each bind. *)
Ltac inv_result :=
  repeat match goal with
    | H : (_ ≫= _) = Ok _ |- _ =>
        apply bind_Ok_inv in H; destruct H as (? & ? & H)
    | H : (_ ≫= _) = Raise _ |- _ =>
        apply bind_Raise_inv in H; destruct H as [H | (? & ? & H)]
    | H : assert _ _ = Raise _ |- _ =>
        apply assert_Raise_inv in H; destruct H as [? ?]
    | H : Ok _ = Ok _ |- _ => injection H as H
    | H : Ok _ = Raise _ |- _ => discriminate H
    | H : Raise _ = Ok _ |- _ => discriminate H
    end.

Lemma mapM_Raise_inv {A B} (f : A → result B) (l : list A) (e : exn) :
  mapM f l = Raise e → ∃ a, a ∈ l ∧ f a = Raise e.
Proof.
  induction l as [|a l IH]; simpl; [discriminate |].
  intros Hm. inv_result.
  - exists a. split; [left | done].
  - destruct (IH Hm) as (a' & Hin & Ha'). exists a'. split; [by right | done].
Qed.

Lemma mapM_Ok_length {A B} (f : A → result B) (l : list A) (bs : list B) :
  mapM f l = Ok bs → length bs = length l.
Proof.
  revert bs. induction l as [|a l IH]; simpl; intros bs Hm.
  - by injection Hm as <-.
  - inv_result. subst bs. simpl. f_equal. eauto.
Qed.

Lemma mapM_Ok_lookup {A B} (f : A → result B) (l : list A) (bs : list B) i b :
  mapM f l = Ok bs → bs !! i = Some b → ∃ a, l !! i = Some a ∧ f a = Ok b.
Proof.
  revert bs i. induction l as [|a l IH]; simpl; intros bs i Hm Hb.
  - injection Hm as <-. done.
  - inv_result. subst bs. destruct i as [|i]; simpl in *.
    + injection Hb as <-. eauto.
    + eauto.
Qed.

(** ** Which exceptions the array operations raise *)

Section Raises.
Context {F : Type} `{Arith F}.

Lemma getitem_mask_raises {A} (a : list A) msk e :
  getitem_mask a msk = Raise e → not_assertion e.
Proof. unfold getitem_mask. case_decide; [discriminate | by intros [= <-]]. Qed.

Lemma setitem_mask_raises (a : list F) msk x e :
  setitem_mask a msk x = Raise e → not_assertion e.
Proof. unfold setitem_mask. case_decide; [discriminate | by intros [= <-]]. Qed.

Lemma setitem_mask_array_raises (a : list F) msk v e :
  setitem_mask_array a msk v = Raise e → not_assertion e.
Proof.
  unfold setitem_mask_array. repeat case_decide; try discriminate; by intros [= <-].
Qed.

Lemma broadcast2_raises {A B} (a : list A) (b : list B) e :
  broadcast2 a b = Raise e → not_assertion e.
Proof.
  unfold broadcast2. case_decide; [discriminate |].
  destruct a as [|? [|? ?]], b as [|? [|? ?]]; try discriminate; by intros [= <-].
Qed.

Lemma broadcast_to_raises (v : list F) n e :
  broadcast_to v n = Raise e → not_assertion e.
Proof.
  unfold broadcast_to. case_decide; [discriminate |].
  destruct v as [|? [|? ?]]; try discriminate; by intros [= <-].
Qed.

Lemma norm_index_raises n i e : norm_index n i = Raise e → not_assertion e.
Proof. unfold norm_index. repeat case_decide; try discriminate; by intros [= <-]. Qed.

Lemma add_at_raises (a : list F) iv e : add_at a iv = Raise e → not_assertion e.
Proof.
  revert a. induction iv as [|[i v] iv IH]; simpl; intros a Hr; [discriminate |].
  inv_result; eauto using norm_index_raises.
Qed.

Lemma row_raises (rows : list (list F)) i e : row rows i = Raise e → not_assertion e.
Proof. unfold row. destruct (rows !! i); [discriminate | by intros [= <-]]. Qed.
End Raises.

Section BinnerRaises.
Context {F : Type} `{Arith F}.
Variable nside2npix : Z → nat.
Variable ang2pix : Z → F → F → option Z.
Variable nside2pixarea : Z → bool → F.

Lemma pixels_raises nside ra dec e :
  pixels ang2pix nside ra dec = Raise e → not_assertion e.
Proof.
  unfold pixels. intros Hr. inv_result; [by eapply broadcast2_raises |].
  apply mapM_Raise_inv in Hr as ([t p] & _ & Hr).
  unfold ang2pix_call in Hr. destruct ang2pix; [discriminate | by injection Hr as <-].
Qed.

Lemma weighted_mean_map_raises npix ipix bm x q w e :
  weighted_mean_map npix ipix bm x q w = Raise e → not_assertion e.
Proof.
  unfold weighted_mean_map. intros Hr.
  inv_result;
    eauto using broadcast_to_raises, add_at_raises, broadcast2_raises,
      getitem_mask_raises, setitem_mask_array_raises, setitem_mask_raises.
Qed.

Lemma make_extra_raises nside ipix count bm e :
  make_extra nside2pixarea nside ipix count bm = Raise e → not_assertion e.
Proof.
  unfold make_extra. intros Hr. inv_result.
  all: try (by eapply getitem_mask_raises).
  apply mapM_Raise_inv in Hr as (i & _ & Hr). inv_result.
  by eapply norm_index_raises.
Qed.
End BinnerRaises.

(** ** [overdensity] *)

Section OverdensityFacts.
Context {F : Type} `{Arith F}.
Variable nside2npix : Z → nat.
Variable ang2pix : Z → F → F → option Z.
Variable nside2pixarea : Z → bool → F.

Lemma quantity_unbound :
  ("quantity" ∉ overdensity_locals) ∧ ("quantity" ∉ module_globals).
Proof.
  split; intros Hin;
    repeat (apply elem_of_cons in Hin as [Hin|Hin]; [discriminate |]);
    by apply elem_of_nil in Hin.
Qed.

(** C2: [overdensity] derives the mask [mask_frac == 0] and is meant to
    hand the count map of the binner (no quantity) to [count2density].
    It never gets that far: the third argument of its call to
    [make_healpix_map] is the name [quantity], bound neither in the
    function nor in the module, so every call raises NameError. *)
Theorem C2_overdensity_name_error (ras decs mask_frac : list F) (nside : Z) :
  overdensity nside2npix ang2pix nside2pixarea ras decs mask_frac nside
  = Raise (NameError "quantity").
Proof.
  unfold overdensity, load_global.
  destruct quantity_unbound as [_ Hg].
  rewrite (bool_decide_eq_false_2 _ Hg). reflexivity.
Qed.
End OverdensityFacts.

(** ** Input validation of [make_healpix_map] *)

Section Validation.
Context {F : Type} `{Arith F}.
Variable nside2npix : Z → nat.
Variable ang2pix : Z → F → F → option Z.
Variable nside2pixarea : Z → bool → F.

Local Abbreviation binner := (make_healpix_map nside2npix ang2pix nside2pixarea).

(** C7: a one-dimensional [quantity] with a one-dimensional [weight] is
    always refused, whatever the lengths and the weights: [quantity] is
    promoted to shape (1, n) before its shape is compared with that of
    [weight], still (n,). *)
Theorem C7_weight_1d_rejected (ra dec q w : list F) (nside : Z)
    (mask : option (mask_array F)) (fill_UNSEEN return_extra : bool) :
  binner ra dec (Some (Arr1 q)) nside mask (Some (Arr1 w)) fill_UNSEEN return_extra
  = Raise (AssertionError msg_shape).
Proof.
  unfold make_healpix_map, prepare_quantity. simpl.
  rewrite (bool_decide_eq_false_2 ([1%nat; length q] = [length w])) by discriminate.
  reflexivity.
Qed.

(** Two-dimensional arrays of one shape, with positive weights, do pass
    the checks on [quantity] and [weight]. *)
Lemma weight_2d_accepted (ra dec : list F) (q w : list (list F)) :
  shape (Arr2 q) = shape (Arr2 w) →
  forallb (fun v => gtb v zero) (elements (Arr2 w)) = true →
  length ra = length dec →
  prepare_quantity ra dec (Some (Arr2 q)) (Some (Arr2 w)) = Ok (Some (q, w)).
Proof.
  intros Hshape Hpos Hlen. unfold prepare_quantity.
  cbn [atleast_2d].
  rewrite (bool_decide_eq_true_2 (shape (Arr2 q) = shape (Arr2 w))) by done.
  rewrite Hpos. cbn [assert mbind result_bind].
  rewrite (bool_decide_eq_true_2 (shape (Arr2 q) !! 1%nat = shape (Arr2 w) !! 1%nat))
    by by rewrite Hshape.
  by rewrite (bool_decide_eq_true_2 (length ra = length dec)).
Qed.

Lemma derived_mask_check (count : list F) (x : F) :
  forallb (fun c => gtb c zero)
    (select (fill count (map negb (map (fun c => gtb c zero) count)) x)
            (map (fun c => gtb c zero) count)) = true.
Proof.
  induction count as [|c count IH]; simpl; [done |].
  destruct (gtb c zero) eqn:Hc; simpl; [by rewrite Hc |]. done.
Qed.

Lemma prepare_quantity_raises ra dec quantity weight e :
  prepare_quantity ra dec quantity weight = Raise e →
  quantity ≠ None ∧
  (e = AssertionError msg_shape ∨ e = AssertionError msg_weight ∨
   e = AssertionError msg_qw_len ∨ e = AssertionError msg_radec).
Proof.
  unfold prepare_quantity. destruct quantity as [q|]; [| discriminate].
  intros Hr. split; [done |].
  destruct weight as [w|]; simpl in Hr; inv_result; subst; auto.
Qed.

(** Every way [make_healpix_map] can fail: one of the four assertions on
    [quantity] and [weight], the assertion on the length of a supplied
    mask, or an IndexError or ValueError of numpy or healpy. *)
Lemma make_healpix_map_raises ra dec quantity nside mask weight fill_UNSEEN return_extra e :
  binner ra dec quantity nside mask weight fill_UNSEEN return_extra = Raise e →
  prepare_quantity ra dec quantity weight = Raise e
  ∨ (∃ m, mask = Some m ∧ mask_len m ≠ nside2npix nside ∧ e = AssertionError msg_mask_len)
  ∨ not_assertion e.
Proof.
  unfold make_healpix_map. intros Hr.
  apply bind_Raise_inv in Hr as [Hr | (qw & Hqw & Hr)]; [by left |].
  right.
  apply bind_Raise_inv in Hr as [Hr | ([] & Hm & Hr)].
  { left. destruct mask as [m|]; [| discriminate].
    apply assert_Raise_inv in Hr as [Hlen ->].
    exists m. split_and!; [done | by apply bool_decide_eq_false_1 in Hlen | done]. }
  right.
  apply bind_Raise_inv in Hr as [Hr | (ipix & Hipix & Hr)]; [by eapply pixels_raises |].
  apply bind_Raise_inv in Hr as [Hr | (count & Hcount & Hr)]; [by eapply add_at_raises |].
  apply bind_Raise_inv in Hr as [Hr | (count' & Hcount' & Hr)];
    [by eapply setitem_mask_raises |].
  apply bind_Raise_inv in Hr as [Hr | ([] & Hcheck & Hr)].
  { destruct mask as [m|]; [discriminate |].
    apply bind_Raise_inv in Hr as [Hr | (inmask & Hin & Hr)];
      [by eapply getitem_mask_raises |].
    unfold setitem_mask in Hcount'. case_decide; [| discriminate].
    injection Hcount' as <-.
    unfold getitem_mask in Hin. case_decide; [| discriminate].
    injection Hin as <-.
    rewrite derived_mask_check in Hr. discriminate. }
  apply bind_Raise_inv in Hr as [Hr | (outmaps & Hout & Hr)].
  { unfold quantity_maps in Hr. destruct qw as [[q w]|]; [| discriminate].
    apply mapM_Raise_inv in Hr as (i & _ & Hr).
    inv_result; eauto using row_raises, weighted_mean_map_raises. }
  destruct return_extra; [| discriminate].
  inv_result. by eapply make_extra_raises.
Qed.

(** With a quantity (and no weight) the lengths of [ra] and [dec] are
    compared, and a difference is refused. *)
Lemma radec_checked_with_quantity ra dec q nside mask fill_UNSEEN return_extra :
  length ra ≠ length dec →
  binner ra dec (Some q) nside mask None fill_UNSEEN return_extra
  = Raise (AssertionError msg_radec).
Proof.
  intros Hne. unfold make_healpix_map, prepare_quantity. simpl.
  rewrite (bool_decide_eq_false_2 (length ra = length dec)) by done.
  rewrite bool_decide_eq_true_2; [reflexivity |].
  f_equal. unfold ones_like. destruct (atleast_2d q); simpl; [done |].
  by rewrite length_map.
Qed.

Lemma radec_unchecked ra dec nside mask weight fill_UNSEEN return_extra :
  binner ra dec None nside mask weight fill_UNSEEN return_extra
  ≠ Raise (AssertionError msg_radec).
Proof.
  intros Hr. apply make_healpix_map_raises in Hr as [Hr | [(m & _ & _ & [=]) | []]].
  by apply prepare_quantity_raises in Hr as [? _].
Qed.

(** C9: without a caller's mask the mask is derived as [count > 0], and
    the check that every pixel of it has a positive count cannot fail:
    whatever the catalog and the other arguments, the call does not raise
    the AssertionError of that check. *)
Theorem C9_derived_mask_check_passes (ra dec : list F) (quantity : option (ndarray F))
    (nside : Z) (weight : option (ndarray F)) (fill_UNSEEN return_extra : bool) :
  binner ra dec quantity nside None weight fill_UNSEEN return_extra
  ≠ Raise (AssertionError msg_count).
Proof.
  intros Hr. apply make_healpix_map_raises in Hr as [Hr | [(m & [=] & _) | []]].
  apply prepare_quantity_raises in Hr as [_ [[=] | [[=] | [[=] | [=]]]]].
Qed.
End Validation.

(** C6: the comparison of [len(ra)] with [len(dec)] sits inside the block
    [if quantity is not None:], so a call that only counts never makes it.
    With [quantity = None] the AssertionError of that comparison is never
    raised, and a catalog with one right ascension and two declinations is
    binned as two objects: healpy broadcasts the two arrays. *)
Theorem C6_radec_lengths_unchecked_when_counting :
  (∀ (F : Type) (A : Arith F) nside2npix ang2pix nside2pixarea
     (ra dec : list F) nside mask weight fill_UNSEEN return_extra,
     make_healpix_map nside2npix ang2pix nside2pixarea
       ra dec None nside mask weight fill_UNSEEN return_extra
     ≠ Raise (AssertionError msg_radec))
  ∧ ∃ (count : list B64.t) rmask,
      make_healpix_map Toy.nside2npix Toy.ang2pix Toy.nside2pixarea
        [ [#10] ] [ [#0]; [#10] ] None 1 None None false false
      = Ok ([], count, rmask, None)
      ∧ np_sum count = [#2].
Proof.
  split.
  - intros. apply radec_unchecked.
  - eexists _, _. split; [vm_compute; reflexivity |]. vm_compute. reflexivity.
Qed.

(** ** [count2density] on the scenario of the specification *)

Ltac qc_eq := apply Qc_is_canon; vm_compute; reflexivity.

(** C1: for count = [10, 0, 5, 0], mask = [true, false, true, false] and
    completeness = [1, 1, 1, 1] the local expectation in the mask is
    1 * (10 + 5) / (1 + 1) = 7.5 and [count2density] returns
    [10/7.5 - 1, 0, 5/7.5 - 1, 0]: in float64 with these very operations,
    and in exact arithmetic [1/3, 0, -1/3, 0].  It is the map
    [density_spec]: [count / local expectation - 1] on the mask and 0
    off it. *)
Theorem C1_count2density_scenario :
  let mask := [true; false; true; false] in
  (div (mul [#1] (np_sum [ [#10]; [#5] ])) (np_sum [ [#1]; [#1] ]) = (lit 15 (-1) : B64.t))
  ∧ count2density (F := B64.t)
      [ [#10]; [#0]; [#5]; [#0] ] (Some [ [#1]; [#1]; [#1]; [#1] ]) (Some (BoolMask mask))
    = Ok [ sub (div [#10] (lit 15 (-1))) [#1]; [#0];
           sub (div [#5] (lit 15 (-1))) [#1]; [#0] ]
  ∧ count2density (F := Exact.t)
      [ [#10]; [#0]; [#5]; [#0] ] (Some [ [#1]; [#1]; [#1]; [#1] ]) (Some (BoolMask mask))
    = Ok [ Q2Qc (1 # 3); Q2Qc 0; Q2Qc (-1 # 3); Q2Qc 0 ]
  ∧ count2density (F := B64.t)
      [ [#10]; [#0]; [#5]; [#0] ] (Some [ [#1]; [#1]; [#1]; [#1] ]) (Some (BoolMask mask))
    = Ok (density_spec [ [#10]; [#0]; [#5]; [#0] ] [ [#1]; [#1]; [#1]; [#1] ] mask).
Proof.
  cbv zeta. split_and!.
  - vm_compute. reflexivity.
  - vm_compute. reflexivity.
  - vm_compute. repeat f_equal; qc_eq.
  - vm_compute. reflexivity.
Qed.

(** ** What [count2density] computes, pixel by pixel *)

Section Pointwise.
Context {F : Type} `{Arith F}.

Lemma masked2_lookup f z (msk : list bool) (a b : list F) (p : nat) (m : bool) x y :
  msk !! p = Some m → a !! p = Some x → b !! p = Some y →
  masked2 f z msk a b !! p = Some (if m then f x y else z).
Proof.
  revert a b p. induction msk as [|m' msk IH]; intros [|x' a] [|y' b] [|p]; simpl; try done.
  - by intros [= ->] [= ->] [= ->].
  - apply IH.
Qed.

Lemma masked2_length f z (msk : list bool) (a b : list F) :
  length a = length msk → length b = length msk →
  length (masked2 f z msk a b) = length msk.
Proof.
  revert a b. induction msk as [|m msk IH]; intros [|x a] [|y b]; simpl; try done.
  intros [=] [=]. f_equal. eauto.
Qed.

Lemma select_length {A} (a : list A) msk :
  length msk = length a → length (select a msk) = count_true msk.
Proof.
  revert a. induction msk as [|m msk IH]; intros [|x a]; simpl; try done.
  intros [=]. unfold count_true in *. destruct m; simpl; rewrite IH; done.
Qed.

Lemma length_scatter {A} (a v : list A) msk : length (scatter a msk v) = length a.
Proof.
  revert msk v. induction a as [|x a IH]; intros [|m msk] v; simpl; try done.
  destruct m; [destruct v |]; simpl; by rewrite IH.
Qed.

Lemma select_scatter (a v : list F) msk :
  length msk = length a → length v = count_true msk →
  select (scatter a msk v) msk = v.
Proof.
  revert a v. induction msk as [|m msk IH]; intros [|x a] v; simpl; try done.
  - intros _ Hv. by destruct v.
  - intros [=]. unfold count_true in *. destruct m; simpl.
    + destruct v as [|y v]; simpl; [done |]. intros [=]. f_equal. eauto.
    + eauto.
Qed.

Lemma scatter_select2 f z (msk : list bool) (a b : list F) :
  length a = length msk → length b = length msk →
  scatter (replicate (length msk) z) msk (zip_with f (select a msk) (select b msk))
  = masked2 f z msk a b.
Proof.
  revert a b. induction msk as [|m msk IH]; intros [|x a] [|y b]; simpl; try done.
  intros [=] [=]. destruct m; simpl; f_equal; eauto.
Qed.

Lemma map_zip_with_map {A B C D E} (h : D → E) (f : A → C → D) (g : B → C)
    (a : list A) (b : list B) :
  map h (zip_with f a (map g b)) = zip_with (fun x y => h (f x (g y))) a b.
Proof.
  revert b. induction a as [|x a IH]; intros [|y b]; simpl; try done.
  by rewrite IH.
Qed.

Lemma count2density_pointwise (count : list F) mask_frac mask :
  length (effective_frac count mask_frac) = length count →
  length (effective_mask count mask) = length count →
  count2density count mask_frac mask
  = Ok (density_spec count (effective_frac count mask_frac) (effective_mask count mask)).
Proof.
  unfold count2density, effective_frac, effective_mask, density_spec.
  set (frac := default _ mask_frac). set (msk := astype_bool _).
  intros Hf Hm.
  unfold getitem_mask. rewrite !decide_True by congruence. simpl.
  unfold setitem_mask_array, zeros.
  rewrite !length_replicate, !decide_True; try done.
  2: { rewrite length_map. apply select_length. congruence. }
  simpl. rewrite !decide_True; try done.
  2: { by rewrite length_scatter, length_replicate. }
  rewrite select_scatter.
  2: { by rewrite length_replicate. }
  2: { rewrite length_map. apply select_length. congruence. }
  simpl. rewrite decide_True by done.
  rewrite decide_True.
  2: { rewrite length_map, length_zip_with, length_map, !select_length by congruence. lia. }
  f_equal. rewrite <- Hm at 1.
  rewrite <- (scatter_select2 _ _ msk count frac) by congruence.
  f_equal. apply map_zip_with_map.
Qed.
End Pointwise.

(** ** IEEE arithmetic around zero, infinity and NaN *)

Module B64Facts.
Lemma b64_zero_eq : (zero : B64.t) = S754_zero false.
Proof. reflexivity. Qed.

Lemma b64_one_eq : (one : B64.t) = S754_finite false 4503599627370496 (-52).
Proof. reflexivity. Qed.

Lemma b64_minus_one_eq : ([#-1] : B64.t) = S754_finite true 4503599627370496 (-52).
Proof. reflexivity. Qed.

(** x / 0 is NaN or an infinity; 0 / 0 and NaN / 0 are NaN. *)
Lemma div_zero (x d : B64.t) :
  B64.is_zero d = true →
  div x d = S754_nan ∨ ∃ s, div x d = S754_infinity s.
Proof. destruct d, x; simpl; try done; eauto. Qed.

Lemma mul_zero_div_zero (f t d : B64.t) :
  B64.is_zero f = true → B64.is_zero d = true → div (mul f t) d = S754_nan.
Proof. destruct f, t, d; simpl; done. Qed.

(** c / NaN - 1 is NaN; c / inf - 1 is NaN or -1. *)
Lemma div_nan_sub_one (c : B64.t) : sub (div c S754_nan) one = S754_nan.
Proof. by destruct c. Qed.

Lemma div_inf_sub_one (c : B64.t) s :
  sub (div c (S754_infinity s)) one = S754_nan
  ∨ sub (div c (S754_infinity s)) one = [#-1].
Proof. destruct c; simpl; auto. Qed.

End B64Facts.

(** ** [count2density] when the completeness sums to zero on the mask *)

(** C5 (counterexample): one masked pixel with one object and
    completeness 0.  The completeness sums to 0 on the mask; the call
    raises nothing and returns the map [NaN], which is not zero. *)
Lemma C5_counterexample :
  np_sum (select [ [#0] ] [true]) = ([#0] : B64.t)
  ∧ count2density (F := B64.t) [ [#1] ] (Some [ [#0] ]) (Some (BoolMask [true]))
    = Ok [S754_nan]
  ∧ B64.is_nan S754_nan = true ∧ S754_nan ≠ ([#0] : B64.t).
Proof. split_and!; [reflexivity | reflexivity | reflexivity | discriminate]. Qed.

(** C5 (amended): when the completeness sums to zero on the mask,
    [count2density] raises nothing: it returns the map that is 0 outside
    the mask and, on every pixel of the mask, NaN or -1, and NaN wherever
    the completeness of the pixel is itself zero. *)
Theorem C5_zero_norm_gives_nan (count : list B64.t) (mask_frac : option (list B64.t))
    (mask : option (mask_array B64.t)) :
  let frac := effective_frac count mask_frac in
  let msk := effective_mask count mask in
  length frac = length count →
  length msk = length count →
  B64.is_zero (np_sum (select frac msk)) = true →
  ∃ density,
    count2density count mask_frac mask = Ok density
    ∧ length density = length count
    ∧ ∀ (p : nat) (m : bool) (f d : B64.t),
        msk !! p = Some m → frac !! p = Some f → density !! p = Some d →
        if m then
          (d = S754_nan ∨ d = [#-1]) ∧ (B64.is_zero f = true → d = S754_nan)
        else d = [#0].
Proof.
  intros frac msk Hf Hm Hnorm.
  exists (density_spec count frac msk). split_and!.
  - by apply count2density_pointwise.
  - unfold density_spec. rewrite masked2_length; congruence.
  - intros p m f d Hp Hfp Hd.
    destruct (lookup_lt_is_Some_2 count p) as [c Hc].
    { rewrite <- Hm. by eapply lookup_lt_Some. }
    unfold density_spec in Hd.
    rewrite (masked2_lookup _ _ _ _ _ _ _ _ _ Hp Hc Hfp) in Hd.
    apply (inj Some) in Hd. subst d.
    destruct m; [| done].
    set (total := np_sum (select count msk)).
    set (norm := np_sum (select frac msk)) in *.
    split.
    + destruct (B64Facts.div_zero (mul f total) norm Hnorm) as [-> | [s ->]].
      * left. apply B64Facts.div_nan_sub_one.
      * apply B64Facts.div_inf_sub_one.
    + intros Hz. rewrite B64Facts.mul_zero_div_zero by done.
      apply B64Facts.div_nan_sub_one.
Qed.

Lemma C5_zero_norm_gives_nan_witness :
  ∃ density,
    count2density (F := B64.t) [ [#1]; [#4] ] (Some [ [#0]; [#3] ])
      (Some (BoolMask [true; false])) = Ok density
    ∧ density = [S754_nan; [#0]].
Proof.
  destruct (C5_zero_norm_gives_nan [ [#1]; [#4] ] (Some [ [#0]; [#3] ])
              (Some (BoolMask [true; false])))
    as (density & Hd & Hlen & Hp); [reflexivity | reflexivity | reflexivity |].
  exists density. split; [exact Hd |].
  destruct density as [|d0 [|d1 [|? ?]]]; try discriminate Hlen.
  f_equal; [| f_equal].
  - by apply (Hp 0%nat true [#0] d0).
  - by apply (Hp 1%nat false [#3] d1).
Defined.

(** The sum that matters is numpy's: the completeness
    [1e16, 0, 0, 0, 1, 1, -1e16, 0] would add up to 0.0 from left to
    right, but [np.sum] finds 2.0, and the density of eight pixels of one
    object each is -1, inf or -0.75, with no NaN. *)
Example count2density_eight_pixels :
  let big : B64.t := lit 152587890625 16 in
  let small : B64.t := lit (-152587890625) 16 in
  let frac := [big; [#0]; [#0]; [#0]; [#1]; [#1]; small; [#0] ] in
  accumulated frac = [#0]
  ∧ np_sum frac = [#2]
  ∧ count2density (ones 8) (Some frac) None
    = Ok [ [#-1]; inf; inf; inf; lit (-3) (-2); lit (-3) (-2); [#-1]; inf ].
Proof. cbv zeta. split_and!; vm_compute; reflexivity. Qed.

(** ** Scaling the counts *)

Section Scaling.
Context {F : Type} `{Arith F}.

Lemma scale_in_mask_length c (msk : list bool) (count : list F) :
  length msk = length count → length (scale_in_mask c msk count) = length count.
Proof. intros Hm. unfold scale_in_mask. rewrite length_zip_with. lia. Qed.

Lemma select_scale_in_mask c (msk : list bool) (count : list F) :
  select (scale_in_mask c msk count) msk = map (mul c) (select count msk).
Proof.
  revert count. induction msk as [|m msk IH]; intros [|x count]; simpl; try done.
  destruct m; simpl; by rewrite IH.
Qed.

Lemma select_counts (ks : list nat) (msk : list bool) :
  select (map cnt ks : list F) msk = map cnt (select ks msk).
Proof.
  revert msk. induction ks as [|k ks IH]; intros [|m msk]; simpl; try done.
  destruct m; simpl; by rewrite IH.
Qed.

End Scaling.


(** ** Scale invariance of [count2density] *)

(** C4 (counterexample): in float64 the density of [0, 2, 3] and that of
    the counts scaled by 3, [0, 6, 9], differ in the last pixel
    (0.7999999999999998 against 0.8), although every denominator is
    nonzero: the local mean 5/3 is rounded, the local mean 15/3 is not. *)
Lemma C4_counterexample :
  let count : list B64.t := [ [#0]; [#2]; [#3] ] in
  let msk := effective_mask count None in
  let frac := effective_frac count None in
  ltb zero ([#3] : B64.t) = true
  ∧ eqb (np_sum (select frac msk)) zero = false
  ∧ forallb (fun e => negb (eqb e zero)) (local_expected count frac msk) = true
  ∧ scale_in_mask [#3] msk count = [ [#0]; [#6]; [#9] ]
  ∧ count2density (scale_in_mask [#3] msk count) None None
    ≠ count2density count None None.
Proof. cbv zeta. split_and!; vm_compute; done. Qed.


(** ** Scatter-add: what [np.add.at] touches *)

Section AddAt.
Context {F : Type} `{Arith F}.

Lemma norm_index_in_range (n : nat) (i : Z) :
  0 ≤ i < Z.of_nat n → norm_index n i = Ok (Z.to_nat i).
Proof. intros Hi. unfold norm_index. by rewrite decide_True. Qed.

Lemma norm_index_lt (n : nat) (i : Z) (k : nat) :
  norm_index n i = Ok k → (k < n)%nat.
Proof.
  unfold norm_index. repeat case_decide; intros [= <-]; lia.
Qed.

Lemma add_at_length (a a' : list F) iv :
  add_at a iv = Ok a' → length a' = length a.
Proof.
  revert a. induction iv as [|[i v] iv IH]; simpl; intros a Ha.
  - by injection Ha as <-.
  - inv_result. apply IH in Ha. by rewrite length_alter in Ha.
Qed.

(** A pixel that no index designates keeps its value. *)
Lemma add_at_untouched (a a' : list F) (iv : list (Z * F)) (p : nat) :
  add_at a iv = Ok a' →
  Forall (fun '(i, _) => norm_index (length a) i ≠ Ok p) iv →
  a' !! p = a !! p.
Proof.
  revert a. induction iv as [|[i v] iv IH]; simpl; intros a Ha Hiv.
  - by injection Ha as <-.
  - inv_result. rename x into k.
    apply Forall_cons in Hiv as [Hi Hiv].
    rewrite (IH _ Ha).
    + apply list_lookup_alter_ne. congruence.
    + by rewrite length_alter.
Qed.

Lemma add_at_in_range (a : list F) (iv : list (Z * F)) :
  Forall (fun '(i, _) => 0 ≤ i < Z.of_nat (length a)) iv →
  ∃ a', add_at a iv = Ok a'.
Proof.
  revert a. induction iv as [|[i v] iv IH]; simpl; intros a Hiv; [eauto |].
  apply Forall_cons in Hiv as [Hi Hiv].
  rewrite norm_index_in_range by done. simpl.
  apply IH. by rewrite length_alter.
Qed.

Lemma mapM_total {A B} (f : A → result B) (l : list A) :
  Forall (fun a => ∃ b, f a = Ok b) l → ∃ bs, mapM f l = Ok bs.
Proof.
  induction 1 as [|a l [b Hb] _ [bs Hbs]]; simpl; [eauto |].
  rewrite Hb. simpl. rewrite Hbs. simpl. eauto.
Qed.

(** [a[msk] = x] changes nothing when [a] is already [x] on [msk]. *)
Lemma fill_already (a : list F) (msk : list bool) (x : F) :
  (∀ p, msk !! p = Some true → a !! p = Some x) → fill a msk x = a.
Proof.
  revert msk. induction a as [|y a IH]; intros [|m msk] Hp; simpl; try done.
  f_equal.
  - destruct m; [| done]. specialize (Hp 0%nat eq_refl). by injection Hp.
  - apply IH. intros p. apply (Hp (S p)).
Qed.

Lemma length_fill (a : list F) (msk : list bool) (x : F) :
  length (fill a msk x) = length a.
Proof.
  revert msk. induction a as [|y a IH]; intros [|m msk]; simpl; try done.
  by rewrite IH.
Qed.

Lemma fill_lookup_false (a : list F) (msk : list bool) (x : F) (p : nat) :
  msk !! p = Some false → fill a msk x !! p = a !! p.
Proof.
  revert msk p. induction a as [|y a IH]; intros [|m msk] [|p]; simpl; try done.
  - by intros [= ->].
  - apply IH.
Qed.
End AddAt.

(** ** numpy's summation *)

Section Summation.
Context {F : Type} `{Arith F}.

Lemma half8_bounds (n : nat) :
  (128 < n)%nat → (0 < n / 2 - (n / 2) mod 8 < n)%nat.
Proof.
  intros Hn.
  pose proof (Nat.mod_upper_bound (n / 2) 8).
  pose proof (Nat.Div0.mul_div_le n 2).
  assert (64 ≤ n / 2)%nat by (apply Nat.div_le_lower_bound; lia).
  lia.
Qed.

(** The fuel does not matter once it reaches the length of the array. *)
Lemma pairwise_sum_fuel_enough (fuel fuel' : nat) (a : list F) :
  (length a ≤ fuel)%nat → (length a ≤ fuel')%nat →
  pairwise_sum_fuel fuel a = pairwise_sum_fuel fuel' a.
Proof.
  revert fuel' a. induction fuel as [|fuel IH]; intros fuel' a Hf Hf'.
  - destruct a; [| simpl in Hf; lia]. by destruct fuel'.
  - destruct fuel' as [|fuel'].
    { destruct a; [done | simpl in Hf'; lia]. }
    cbn [pairwise_sum_fuel].
    destruct (length a <? 8)%nat; [done |].
    destruct (Nat.leb_spec (length a) 128) as [Hle | Hgt]; [done |].
    pose proof (half8_bounds _ Hgt) as Hn2.
    set (n2 := (length a / 2 - (length a / 2) mod 8)%nat) in *.
    f_equal; apply IH; rewrite ?length_take, ?length_drop; lia.
Qed.

(** [pairwise_sum] follows numpy's recursion. *)
Lemma pairwise_sum_unfold (a : list F) :
  pairwise_sum a
  = if (length a <? 8)%nat then foldl add neg_zero a
    else if (length a <=? 128)%nat then block_sum a
    else let n2 := (length a / 2 - (length a / 2) mod 8)%nat in
         add (pairwise_sum (take n2 a)) (pairwise_sum (drop n2 a)).
Proof.
  unfold pairwise_sum at 1. destruct (length a) as [|n] eqn:Hn.
  - destruct a; [done | discriminate].
  - cbn [pairwise_sum_fuel]. rewrite Hn.
    destruct (S n <? 8)%nat; [done |].
    destruct (Nat.leb_spec (S n) 128) as [Hle | Hgt]; [done |].
    cbv zeta. pose proof (half8_bounds _ Hgt) as Hn2.
    set (n2 := (S n / 2 - (S n / 2) mod 8)%nat) in *.
    unfold pairwise_sum.
    f_equal; apply pairwise_sum_fuel_enough;
      rewrite ?length_take, ?length_drop; lia.
Qed.
End Summation.

(** On eight elements the order of the additions is that of the blocks,
    and the sum differs from the one accumulated from left to right:
    with 1e16 = 5^16 * 2^16, the sum of
    [1e16, 0, 0, 0, 1, 1, -1e16, 0] is 2.0 (0.0 from left to right) and
    that of [1e16, 1, -1e16, 1, 0, 0, 0, 0] is 0.0 (1.0 from left to
    right). *)
Example np_sum_by_blocks :
  let big : B64.t := lit 152587890625 16 in
  let small : B64.t := lit (-152587890625) 16 in
  np_sum [big; [#0]; [#0]; [#0]; [#1]; [#1]; small; [#0] ] = [#2]
  ∧ accumulated [big; [#0]; [#0]; [#0]; [#1]; [#1]; small; [#0] ] = [#0]
  ∧ np_sum [big; [#1]; small; [#1]; [#0]; [#0]; [#0]; [#0] ] = [#0]
  ∧ accumulated [big; [#1]; small; [#1]; [#0]; [#0]; [#0]; [#0] ] = [#1].
Proof. cbv zeta. split_and!; vm_compute; reflexivity. Qed.

(** ** Sums of counts *)

Section Counting.
Context {F : Type} `{Arith F}.
Variable N : nat.
Hypothesis Hexact : counts_exact_upto N.

Lemma foldl_counts (acc : nat) (ks : list nat) :
  (acc + sum_list ks ≤ N)%nat →
  foldl add (cnt acc) (map cnt ks) = cnt (acc + sum_list ks).
Proof using Hexact.
  revert acc. induction ks as [|k ks IH]; intros acc Hle; simpl in *.
  - by rewrite Nat.add_0_r.
  - destruct Hexact as [Hadd _]. rewrite Hadd by lia.
    rewrite IH by lia. f_equal. lia.
Qed.

Lemma foldl_neg_zero_counts (k : nat) (ks : list nat) :
  (sum_list (k :: ks) ≤ N)%nat →
  foldl add neg_zero (map cnt (k :: ks)) = cnt (sum_list (k :: ks)).
Proof using Hexact.
  intros Hle. simpl in *. destruct Hexact as (_ & _ & Hneg).
  rewrite Hneg by lia. by apply foldl_counts.
Qed.

Lemma zip_with_add_counts (rs bs : list nat) :
  (sum_list rs + sum_list bs ≤ N)%nat →
  zip_with add (map cnt rs) (map cnt bs) = map cnt (zip_with Nat.add rs bs).
Proof using Hexact.
  revert bs. induction rs as [|r rs IH]; intros [|b bs] Hle; simpl in *; try done.
  destruct Hexact as [Hadd _]. rewrite Hadd by lia. f_equal. apply IH. lia.
Qed.

Lemma sum_list_zip_with_add (rs bs : list nat) :
  length rs = length bs →
  sum_list (zip_with Nat.add rs bs) = (sum_list rs + sum_list bs)%nat.
Proof.
  revert bs. induction rs as [|r rs IH]; intros [|b bs] Hlen; simpl in *; try done.
  rewrite IH by lia. lia.
Qed.

Lemma sum_list_take_drop (n : nat) (ks : list nat) :
  (sum_list (take n ks) + sum_list (drop n ks))%nat = sum_list ks.
Proof. by rewrite <- sum_list_with_app, take_drop. Qed.

Lemma sum8_counts (rs : list nat) :
  length rs = 8%nat → (sum_list rs ≤ N)%nat →
  sum8 (map cnt rs) = cnt (sum_list rs).
Proof using Hexact.
  intros Hlen Hle. destruct Hexact as [Hadd _].
  destruct rs as [|r0 [|r1 [|r2 [|r3 [|r4 [|r5 [|r6 [|r7 [|? ?]]]]]]]]];
    try discriminate Hlen.
  simpl in *. rewrite !Hadd by lia. f_equal. lia.
Qed.

(** The rows of 8 added to the accumulators: counts stay counts and
    nothing is lost. *)
Lemma accumulate8_counts (k : nat) (rs ks : list nat) :
  length rs = 8%nat → (8 * k ≤ length ks)%nat →
  (sum_list rs + sum_list ks ≤ N)%nat →
  ∃ rs' ks',
    accumulate8 k (map cnt rs) (map cnt ks) = (map cnt rs', map cnt ks')
    ∧ length rs' = 8%nat
    ∧ (sum_list rs' + sum_list ks')%nat = (sum_list rs + sum_list ks)%nat.
Proof using Hexact.
  revert rs ks. induction k as [|k IH]; intros rs ks Hlen Hk Hle.
  - exists rs, ks. by simpl.
  - cbn [accumulate8].
    pose proof (sum_list_take_drop 8 ks) as Hsum.
    rewrite firstn_map, skipn_map, zip_with_add_counts by lia.
    assert (Ht : length (take 8 ks) = 8%nat) by (rewrite length_take; lia).
    destruct (IH (zip_with Nat.add rs (take 8 ks)) (drop 8 ks))
      as (rs' & ks' & Hacc & Hlen' & Hsum').
    + rewrite length_zip_with. lia.
    + rewrite length_drop. lia.
    + rewrite sum_list_zip_with_add by lia. lia.
    + exists rs', ks'. split_and!; [done | done |].
      rewrite Hsum', sum_list_zip_with_add by lia. lia.
Qed.

Lemma block_sum_counts (ks : list nat) :
  (8 ≤ length ks)%nat → (sum_list ks ≤ N)%nat →
  block_sum (map cnt ks) = cnt (sum_list ks).
Proof using Hexact.
  intros Hlen Hle. unfold block_sum.
  rewrite length_map, firstn_map, skipn_map.
  pose proof (sum_list_take_drop 8 ks) as Hsum.
  pose proof (Nat.Div0.mul_div_le (length ks) 8) as Hdiv.
  destruct (accumulate8_counts (length ks / 8 - 1) (take 8 ks) (drop 8 ks))
    as (rs' & ks' & -> & Hlen' & Hsum').
  - rewrite length_take. lia.
  - rewrite length_drop. lia.
  - lia.
  - rewrite sum8_counts by (done || lia).
    rewrite foldl_counts by lia. f_equal. lia.
Qed.

Lemma pairwise_sum_fuel_counts (fuel : nat) (ks : list nat) :
  ks ≠ [] → (sum_list ks ≤ N)%nat →
  pairwise_sum_fuel fuel (map cnt ks) = cnt (sum_list ks).
Proof using Hexact.
  revert ks. induction fuel as [|fuel IH]; intros ks Hne Hle;
    cbn [pairwise_sum_fuel]; rewrite length_map.
  - destruct (Nat.ltb_spec (length ks) 8) as [Hlt | Hge].
    + destruct ks as [|k ks]; [done |]. by apply foldl_neg_zero_counts.
    + destruct (length ks <=? 128)%nat; by apply block_sum_counts.
  - destruct (Nat.ltb_spec (length ks) 8) as [Hlt | Hge].
    + destruct ks as [|k ks]; [done |]. by apply foldl_neg_zero_counts.
    + destruct (Nat.leb_spec (length ks) 128) as [Hle' | Hgt];
        [by apply block_sum_counts |].
      pose proof (half8_bounds _ Hgt) as Hn2.
      pose proof (sum_list_take_drop (length ks / 2 - (length ks / 2) mod 8) ks) as Hsum.
      set (n2 := (length ks / 2 - (length ks / 2) mod 8)%nat) in *.
      rewrite firstn_map, skipn_map, !IH; try lia.
      * destruct Hexact as [Hadd _]. rewrite Hadd by lia. by rewrite Hsum.
      * intros Hd. apply (f_equal length) in Hd. rewrite length_drop in Hd.
        simpl in Hd. lia.
      * intros Hd. apply (f_equal length) in Hd. rewrite length_take in Hd.
        simpl in Hd. lia.
Qed.

(** numpy's sum of counts is their sum as integers, whatever the order
    of the additions. *)
Lemma np_sum_counts (ks : list nat) :
  (sum_list ks ≤ N)%nat → np_sum (map cnt ks) = cnt (sum_list ks).
Proof using Hexact.
  intros Hle. destruct ks as [|k ks]; [done |].
  change (np_sum (map cnt (k :: ks)))
    with (add neg_zero (pairwise_sum (map cnt (k :: ks)))).
  unfold pairwise_sum. rewrite pairwise_sum_fuel_counts by done.
  destruct Hexact as (_ & _ & Hneg). by apply Hneg.
Qed.

Lemma alter_counts (k a : nat) (ks : list nat) :
  ks !! k = Some a → (a + 1 ≤ N)%nat →
  alter (fun x => add x one) k (map cnt ks) = map cnt (alter S k ks).
Proof using Hexact.
  revert k. induction ks as [|b ks IH]; intros [|k] Hk Hle; simpl in *; try done.
  - injection Hk as ->. destruct Hexact as [Hadd _].
    change one with (cnt 1). rewrite Hadd by done. do 2 f_equal. lia.
  - f_equal. by apply IH.
Qed.

Lemma sum_list_alter_S (k : nat) (ks : list nat) :
  (k < length ks)%nat → sum_list (alter S k ks) = S (sum_list ks).
Proof.
  revert k. induction ks as [|b ks IH]; intros [|k] Hk; simpl in Hk; try lia.
  - simpl. unfold id. lia.
  - change (alter S (S k) (b :: ks)) with (b :: alter S k ks).
    cbn [sum_list_with]. rewrite IH by lia. lia.
Qed.

(** One unit per object: the counts stay counts, and their total grows
    by the number of objects. *)
Lemma add_at_ones_counts (ks : list nat) (ipix : list Z) (a' : list F) :
  add_at (map cnt ks) (map (fun i => (i, one)) ipix) = Ok a' →
  (sum_list ks + length ipix ≤ N)%nat →
  ∃ ks', a' = map cnt ks' ∧ sum_list ks' = (sum_list ks + length ipix)%nat.
Proof using Hexact.
  revert ks. induction ipix as [|i ipix IH]; intros ks Ha Hle.
  - injection Ha as <-. exists ks. simpl. split; [done | lia].
  - cbn [map add_at] in Ha. inv_result. rename x into k. rename H0 into Hk.
    apply norm_index_lt in Hk. rewrite length_map in Hk.
    destruct (lookup_lt_is_Some_2 ks k Hk) as [a Hka].
    assert (a ≤ sum_list ks)%nat.
    { apply (sum_list_with_in a id). by eapply list_elem_of_lookup_2. }
    simpl in Hle.
    rewrite (alter_counts k a) in Ha by (done || lia).
    destruct (IH _ Ha) as (ks' & -> & Hsum).
    { rewrite sum_list_alter_S by done. lia. }
    exists ks'. split; [done |].
    rewrite Hsum, sum_list_alter_S by done. simpl. lia.
Qed.

(** The derived mask [count > 0] leaves out the empty pixels only:
    zeroing its complement changes nothing. *)
Lemma fill_derived_counts (ks : list nat) :
  Forall (fun a => a ≤ N)%nat ks →
  fill (map cnt ks) (map negb (map (fun c => gtb c zero) (map cnt ks))) zero
  = map cnt ks.
Proof using Hexact.
  induction 1 as [|a ks Ha _ IH]; cbn [fill map]; [done |].
  rewrite IH. f_equal. destruct Hexact as (_ & Hpos & _). rewrite Hpos by done.
  case_bool_decide; [done |]. simpl. replace a with 0%nat by lia. done.
Qed.

Lemma zeros_counts (n : nat) : (zeros n : list F) = map cnt (replicate n 0%nat).
Proof. unfold zeros. by rewrite fmap_replicate. Qed.
End Counting.


(** ** Rounding keeps the sign *)

Module Rounding.
Import B64.

Lemma iter_pos_invariant {A} (f : A → A) (P : A → Prop) :
  (∀ x, P x → P (f x)) → ∀ n x, P x → P (SpecFloat.iter_pos f n x).
Proof.
  intros Hf. induction n as [n IH|n IH|]; simpl; intros x Hx; auto.
Qed.

Lemma shr_1_nonneg mrs : 0 ≤ shr_m mrs → 0 ≤ shr_m (shr_1 mrs).
Proof.
  destruct mrs as [m r s]. simpl. destruct m as [|[p|p|]|[p|p|]]; simpl; lia.
Qed.

Lemma shr_nonneg mrs e n : 0 ≤ shr_m mrs → 0 ≤ shr_m (shr mrs e n).1.
Proof.
  intros Hm. unfold shr. destruct n; simpl; try done.
  by apply iter_pos_invariant; [apply shr_1_nonneg |].
Qed.

Lemma shr_fexp_nonneg m e l : 0 ≤ m → 0 ≤ shr_m (shr_fexp prec emax m e l).1.
Proof.
  intros Hm. unfold shr_fexp. apply shr_nonneg.
  by destruct l as [|[]].
Qed.

Lemma round_nearest_even_nonneg m l : 0 ≤ m → 0 ≤ round_nearest_even m l.
Proof.
  intros Hm. unfold round_nearest_even. destruct l as [|[]]; try lia.
  destruct (Z.even m); lia.
Qed.

(** Rounding a nonnegative mantissa gives a zero, a finite number or an
    infinity of the sign asked for: never NaN. *)
Lemma binary_round_aux_sign sx mx ex lx :
  0 ≤ mx →
  match binary_round_aux prec emax sx mx ex lx with
  | S754_zero s | S754_infinity s | S754_finite s _ _ => s = sx
  | S754_nan => False
  end.
Proof.
  intros Hm. unfold binary_round_aux.
  pose proof (shr_fexp_nonneg mx ex lx Hm) as H1.
  destruct (shr_fexp prec emax mx ex lx) as [mrs' e']. simpl in H1.
  pose proof (shr_fexp_nonneg _ e' loc_Exact
                (round_nearest_even_nonneg _ (loc_of_shr_record mrs') H1)) as H2.
  destruct (shr_fexp prec emax _ e' loc_Exact) as [mrs'' e'']. simpl in H2.
  destruct (shr_m mrs'') as [|m|m]; [done | | lia].
  by destruct (e'' <=? emax - prec).
Qed.

Lemma binary_round_sign sx mx ex :
  match binary_round prec emax sx mx ex with
  | S754_zero s | S754_infinity s | S754_finite s _ _ => s = sx
  | S754_nan => False
  end.
Proof.
  unfold binary_round. destruct (shl_align mx ex _) as [mz ez].
  by apply binary_round_aux_sign.
Qed.

Lemma binary_normalize_nonpos m e : m ≤ 0 → nonpos (binary_normalize prec emax m e false) = true.
Proof.
  intros Hm. destruct m as [|m|m]; [done | lia |]. simpl.
  pose proof (binary_round_sign true m e) as Hs.
  destruct (binary_round prec emax true m e); try done; by subst.
Qed.

(** A mantissa of [n] binary digits is at least [2^(n-1)]. *)
Lemma digits2_pos_lower (m : positive) :
  2 ^ (Z.pos (digits2_pos m) - 1) ≤ Z.pos m.
Proof.
  induction m as [m IH|m IH|]; simpl digits2_pos; [| | done].
  - rewrite Pos2Z.inj_succ. replace (Z.succ (Z.pos (digits2_pos m)) - 1)
      with (Z.succ (Z.pos (digits2_pos m) - 1)) by lia.
    rewrite Z.pow_succ_r by lia. lia.
  - rewrite Pos2Z.inj_succ. replace (Z.succ (Z.pos (digits2_pos m)) - 1)
      with (Z.succ (Z.pos (digits2_pos m) - 1)) by lia.
    rewrite Z.pow_succ_r by lia. lia.
Qed.

Lemma iter_xO_ge (m d : positive) : Z.pos m ≤ Z.pos (Pos.iter xO m d).
Proof.
  apply (Pos.iter_invariant d positive xO (fun x => Z.pos m ≤ Z.pos x)); lia.
Qed.

Lemma shl_align_ge (m : positive) (e e' : Z) : Z.pos m ≤ Z.pos (shl_align m e e').1.
Proof.
  unfold shl_align. destruct (e' - e); simpl; try lia. apply iter_xO_ge.
Qed.
End Rounding.

(** ** Counts in float64 *)

(** Integers below 2^53 are float64 values, and float64 adds them
    without rounding. *)
Module B64Count.
Import B64.

Lemma iter_xO_pow (m d : positive) : Z.pos (Pos.iter xO m d) = Z.pos m * 2 ^ Z.pos d.
Proof.
  induction d as [|d IH] using Pos.peano_ind.
  - simpl. lia.
  - rewrite Pos.iter_succ, Pos2Z.inj_succ, Z.pow_succ_r by lia.
    rewrite Pos2Z.inj_xO, IH. lia.
Qed.

(** Aligning a mantissa to a smaller exponent multiplies it by a power
    of 2. *)
Lemma shl_align_spec (m : positive) (e e' : Z) :
  e' ≤ e → Z.pos (shl_align m e e').1 = Z.pos m * 2 ^ (e - e').
Proof.
  intros He. unfold shl_align.
  destruct (e' - e) as [|d|d] eqn:Hd; simpl.
  - replace (e - e') with 0 by lia. simpl. lia.
  - lia.
  - rewrite iter_xO_pow. f_equal. f_equal. lia.
Qed.

Lemma shl_align_exp (m : positive) (e e' : Z) :
  e' ≤ e → (shl_align m e e').2 = e'.
Proof.
  intros He. unfold shl_align.
  destruct (e' - e) as [|d|d] eqn:Hd; simpl; lia.
Qed.

Lemma shl_align_id (m : positive) (e e' : Z) :
  e ≤ e' → shl_align m e e' = (m, e).
Proof.
  intros He. unfold shl_align.
  destruct (e' - e) as [|d|d] eqn:Hd; simpl; try done. lia.
Qed.

Lemma digits2_pos_upper (m : positive) : Z.pos m < 2 ^ Z.pos (digits2_pos m).
Proof.
  induction m as [m IH|m IH|]; simpl digits2_pos; [| | done].
  - rewrite Pos2Z.inj_succ, Z.pow_succ_r by lia. lia.
  - rewrite Pos2Z.inj_succ, Z.pow_succ_r by lia. lia.
Qed.

Lemma digits2_pos_unique (m : positive) (d : Z) :
  2 ^ (d - 1) ≤ Z.pos m < 2 ^ d → Z.pos (digits2_pos m) = d.
Proof.
  intros [Hlo Hhi].
  pose proof (Rounding.digits2_pos_lower m) as Hl.
  pose proof (digits2_pos_upper m) as Hu.
  assert (0 < d).
  { destruct (Z_lt_le_dec 0 d) as [|Hd]; [done |].
    assert (2 ^ d ≤ 1); [| lia].
    destruct (Z.eq_dec d 0) as [->|]; [done |].
    rewrite Z.pow_neg_r by lia. lia. }
  destruct (Z_lt_le_dec (Z.pos (digits2_pos m)) d) as [Hlt|Hge].
  - assert (2 ^ Z.pos (digits2_pos m) ≤ 2 ^ (d - 1)) by (apply Z.pow_le_mono_r; lia). lia.
  - destruct (Z_lt_le_dec d (Z.pos (digits2_pos m))) as [Hlt|Hge']; [| lia].
    assert (2 ^ d ≤ 2 ^ (Z.pos (digits2_pos m) - 1)) by (apply Z.pow_le_mono_r; lia). lia.
Qed.

Lemma iter_pos_nat {A} (f : A → A) (n : positive) (x : A) :
  SpecFloat.iter_pos f n x = Nat.iter (Pos.to_nat n) f x.
Proof.
  revert x. induction n as [n IH|n IH|]; intros x; simpl SpecFloat.iter_pos.
  - rewrite !IH, Pos2Nat.inj_xI.
    replace (S (2 * Pos.to_nat n)) with (Pos.to_nat n + (Pos.to_nat n + 1))%nat by lia.
    by rewrite !Nat.iter_add.
  - rewrite !IH, Pos2Nat.inj_xO.
    replace (2 * Pos.to_nat n)%nat with (Pos.to_nat n + Pos.to_nat n)%nat by lia.
    by rewrite Nat.iter_add.
  - reflexivity.
Qed.

(** Shifting out [k] zero bits is exact. *)
Lemma shr_exact_nat (k : nat) (M : positive) (m : Z) :
  m = Z.pos M * 2 ^ Z.of_nat k →
  Nat.iter k shr_1 {| shr_m := m; shr_r := false; shr_s := false |}
  = {| shr_m := Z.pos M; shr_r := false; shr_s := false |}.
Proof.
  revert m. induction k as [|k IH]; intros m Hm.
  - simpl in *. f_equal. lia.
  - rewrite Nat.iter_succ_r.
    rewrite Nat2Z.inj_succ, Z.pow_succ_r in Hm by lia.
    assert (Hpos : 0 < Z.pos M * 2 ^ Z.of_nat k) by (apply Z.mul_pos_pos; [lia | apply Z.pow_pos_nonneg; lia]).
    destruct (Z.pos M * 2 ^ Z.of_nat k) as [|p|p] eqn:Hp; try lia.
    assert (m = Z.pos p~0) as -> by lia.
    simpl shr_1. apply IH. lia.
Qed.

Lemma shr_exact (k : positive) (M : positive) (m : Z) (e : Z) :
  m = Z.pos M * 2 ^ Z.pos k →
  shr {| shr_m := m; shr_r := false; shr_s := false |} e (Z.pos k)
  = ({| shr_m := Z.pos M; shr_r := false; shr_s := false |}, e + Z.pos k).
Proof.
  intros Hm. unfold shr. f_equal.
  rewrite iter_pos_nat. apply shr_exact_nat. by rewrite positive_nat_Z.
Qed.

(** Rounding a mantissa of exactly 53 bits at an exponent in range
    changes nothing. *)
Lemma binary_round_aux_53 (s : bool) (M : positive) (E : Z) :
  Z.pos (digits2_pos M) = 53 → -1074 ≤ E ≤ 971 →
  binary_round_aux prec emax s (Z.pos M) E loc_Exact = S754_finite s M E.
Proof.
  intros Hd HE. unfold binary_round_aux, shr_fexp, fexp, SpecFloat.emin, prec, emax.
  simpl Zdigits2. rewrite Hd.
  replace (Z.max (53 + E - 53) (3 - 1024 - 53) - E) with 0 by lia.
  simpl. rewrite Hd.
  replace (Z.max (53 + E - 53) (3 - 1024 - 53) - E) with 0 by lia.
  simpl. destruct (E <=? 1024 - 53) eqn:Hle; [done |]. apply Z.leb_gt in Hle. lia.
Qed.

(** [binary_round] is exact when the value is some 53-bit mantissa [M]
    at an exponent [E] in range. *)
Lemma binary_round_exact (s : bool) (m : positive) (e : Z) (M : positive) (E : Z) :
  2 ^ 52 ≤ Z.pos M < 2 ^ 53 → -1074 ≤ E ≤ 971 →
  (E ≤ e ∧ Z.pos M = Z.pos m * 2 ^ (e - E)) ∨ (e < E ∧ Z.pos m = Z.pos M * 2 ^ (E - e)) →
  binary_round prec emax s m e = S754_finite s M E.
Proof.
  intros HM HE Hrel.
  assert (HdM : Z.pos (digits2_pos M) = 53) by (apply digits2_pos_unique; lia).
  assert (Hdm : Z.pos (digits2_pos m) + e = 53 + E).
  { destruct Hrel as [[Hle Heq] | [Hlt Heq]].
    - assert (Z.pos (digits2_pos m) = 53 - (e - E)); [| lia].
      apply digits2_pos_unique.
      assert (0 < 2 ^ (e - E)) by (apply Z.pow_pos_nonneg; lia).
      assert (e - E ≤ 52).
      { destruct (Z_le_gt_dec (e - E) 52); [done |].
        assert (2 ^ 53 ≤ 2 ^ (e - E)) by (apply Z.pow_le_mono_r; lia). nia. }
      replace (2 ^ 52) with (2 ^ (53 - (e - E) - 1) * 2 ^ (e - E)) in HM
        by (rewrite <- Z.pow_add_r by lia; f_equal; lia).
      replace (2 ^ 53) with (2 ^ (53 - (e - E)) * 2 ^ (e - E)) in HM
        by (rewrite <- Z.pow_add_r by lia; f_equal; lia).
      nia.
    - assert (Z.pos (digits2_pos m) = 53 + (E - e)); [| lia].
      apply digits2_pos_unique.
      assert (0 < 2 ^ (E - e)) by (apply Z.pow_pos_nonneg; lia).
      replace (53 + (E - e) - 1) with (52 + (E - e)) by lia.
      rewrite !Z.pow_add_r by lia. nia. }
  unfold binary_round, fexp, SpecFloat.emin, prec, emax.
  rewrite Hdm. replace (Z.max (53 + E - 53) (3 - 1024 - 53)) with E by lia.
  destruct Hrel as [[Hle Heq] | [Hlt Heq]].
  - pose proof (shl_align_spec m e E Hle) as Hv.
    pose proof (shl_align_exp m e E Hle) as Hx.
    destruct (shl_align m e E) as [mz ez]. simpl in Hv, Hx. subst ez.
    assert (mz = M) as -> by lia.
    by apply binary_round_aux_53.
  - rewrite shl_align_id by lia.
    unfold binary_round_aux, shr_fexp, fexp, SpecFloat.emin, prec, emax.
    simpl Zdigits2. rewrite Hdm.
    replace (Z.max (53 + E - 53) (3 - 1024 - 53) - e) with (E - e) by lia.
    destruct (E - e) as [|k|k] eqn:Hk; try lia.
    change (shr_record_of_loc (Z.pos m) loc_Exact)
      with {| shr_m := Z.pos m; shr_r := false; shr_s := false |}.
    rewrite (shr_exact k M) by done.
    cbn [fst snd shr_m loc_of_shr_record round_nearest_even].
    replace (e + Z.pos k) with E by lia.
    simpl Zdigits2. rewrite HdM.
    replace (Z.max (53 + E - 53) (3 - 1024 - 53) - E) with 0 by lia.
    simpl. destruct (E <=? 1024 - 53) eqn:Hle; [done |]. apply Z.leb_gt in Hle. lia.
Qed.

Lemma repr_exists (c : Z) : 0 < c < 2 ^ 53 → ∃ M E, repr c M E.
Proof.
  intros [Hc0 Hc]. destruct c as [|p|p]; try lia.
  pose proof (Rounding.digits2_pos_lower p) as Hl.
  pose proof (digits2_pos_upper p) as Hu.
  set (d := Z.pos (digits2_pos p)) in *.
  assert (Hd : 1 ≤ d ≤ 53).
  { split; [lia |]. destruct (Z_le_gt_dec d 53); [done |].
    assert (2 ^ 53 ≤ 2 ^ (d - 1)) by (apply Z.pow_le_mono_r; lia). lia. }
  assert (Hp2 : 0 < 2 ^ (53 - d)) by (apply Z.pow_pos_nonneg; lia).
  exists (Z.to_pos (Z.pos p * 2 ^ (53 - d))), (d - 53).
  unfold repr. rewrite Z2Pos.id by nia.
  replace (- (d - 53)) with (53 - d) by lia.
  split_and!; try lia.
  - replace (2 ^ 52) with (2 ^ (d - 1) * 2 ^ (53 - d))
      by (rewrite <- Z.pow_add_r by lia; f_equal; lia). nia.
  - replace (2 ^ 53) with (2 ^ d * 2 ^ (53 - d))
      by (rewrite <- Z.pow_add_r by lia; f_equal; lia). nia.
Qed.

Lemma lit_repr (c : Z) (M : positive) (E : Z) :
  0 < c → repr c M E → (lit c 0 : B64.t) = S754_finite false M E.
Proof.
  intros Hc (HM & HE & Heq). destruct c as [|p|p]; try lia.
  simpl. unfold of_dyadic. simpl binary_normalize.
  apply binary_round_exact; [done | lia |].
  left. split; [lia |]. by rewrite Z.sub_0_l.
Qed.

Lemma add_repr (a b : Z) Ma Ea Mb Eb M E :
  0 < a → 0 < b →
  repr a Ma Ea → repr b Mb Eb → repr (a + b) M E →
  add (S754_finite false Ma Ea : B64.t) (S754_finite false Mb Eb) = S754_finite false M E.
Proof.
  intros Ha Hb (HMa & HEa & Heqa) (HMb & HEb & Heqb) (HM & HE & Heq).
  simpl. unfold SFadd, cond_Zopp.
  set (ez := Z.min Ea Eb).
  assert (Hez : ez ≤ Ea ∧ ez ≤ Eb ∧ -52 ≤ ez ≤ 0) by (unfold ez; lia).
  assert (Hsa : Z.pos (shl_align Ma Ea ez).1 = a * 2 ^ (- ez)).
  { rewrite shl_align_spec, Heqa, <- Z.mul_assoc, <- Z.pow_add_r by lia.
    f_equal. f_equal. lia. }
  assert (Hsb : Z.pos (shl_align Mb Eb ez).1 = b * 2 ^ (- ez)).
  { rewrite shl_align_spec, Heqb, <- Z.mul_assoc, <- Z.pow_add_r by lia.
    f_equal. f_equal. lia. }
  apply binary_round_exact; [done | lia |].
  rewrite Pos2Z.inj_add, Hsa, Hsb, <- Z.mul_add_distr_r.
  destruct (Z_le_gt_dec E ez) as [Hle | Hgt].
  - left. split; [done |]. rewrite Heq, <- Z.mul_assoc, <- Z.pow_add_r by lia.
    f_equal. f_equal. lia.
  - right. split; [lia |]. rewrite Heq, <- Z.mul_assoc, <- Z.pow_add_r by lia.
    f_equal. f_equal. lia.
Qed.

(** Counts below 2^53 are added without rounding. *)
Lemma add_counts (a b : Z) :
  0 ≤ a → 0 ≤ b → a + b < 2 ^ 53 →
  add (lit a 0 : B64.t) (lit b 0) = lit (a + b) 0.
Proof.
  intros Ha Hb Hab.
  destruct (Z.eq_dec a 0) as [-> | Ha0], (Z.eq_dec b 0) as [-> | Hb0]; try done.
  - destruct (repr_exists b) as (Mb & Eb & Hrb); [lia |].
    rewrite Z.add_0_l. by rewrite (lit_repr b Mb Eb) by (done || lia).
  - destruct (repr_exists a) as (Ma & Ea & Hra); [lia |].
    rewrite Z.add_0_r. by rewrite (lit_repr a Ma Ea) by (done || lia).
  - destruct (repr_exists a) as (Ma & Ea & Hra); [lia |].
    destruct (repr_exists b) as (Mb & Eb & Hrb); [lia |].
    destruct (repr_exists (a + b)) as (M & E & Hr); [lia |].
    rewrite (lit_repr a Ma Ea), (lit_repr b Mb Eb), (lit_repr (a + b) M E) by (done || lia).
    apply (add_repr a b); (done || lia).
Qed.

Lemma count_positive (a : Z) :
  0 ≤ a < 2 ^ 53 → gtb (lit a 0 : B64.t) zero = bool_decide (0 < a).
Proof.
  intros Ha. destruct (Z.eq_dec a 0) as [-> | Ha0]; [done |].
  destruct (repr_exists a) as (M & E & Hr); [lia |].
  rewrite (lit_repr a M E) by (done || lia).
  rewrite bool_decide_eq_true_2 by lia. reflexivity.
Qed.

Lemma neg_zero_add_count (a : Z) :
  0 ≤ a < 2 ^ 53 → add neg_zero (lit a 0 : B64.t) = lit a 0.
Proof.
  intros Ha. destruct (Z.eq_dec a 0) as [-> | Ha0]; [done |].
  destruct (repr_exists a) as (M & E & Hr); [lia |].
  by rewrite (lit_repr a M E) by (done || lia).
Qed.

Lemma b64_counts (N : nat) :
  Z.of_nat N < 2 ^ 53 → counts_exact_upto (F := B64.t) N.
Proof.
  intros HN. split_and!.
  - intros a b Hab. unfold cnt. rewrite Nat2Z.inj_add. apply add_counts; lia.
  - intros a Ha. unfold cnt. rewrite count_positive by lia.
    apply bool_decide_ext. lia.
  - intros a Ha. unfold cnt. apply neg_zero_add_count. lia.
Qed.
End B64Count.

(** ** Scaling the counts by a power of two, in float64 *)

Module Scaling64.
Import B64.

Lemma Zdigits2_nonneg (m : Z) : 0 ≤ Zdigits2 m.
Proof. destruct m; simpl; lia. Qed.

Lemma Zdigits2_upper (m : Z) : 0 ≤ m → m < 2 ^ Zdigits2 m.
Proof.
  destruct m as [|p|p]; simpl Zdigits2; intros Hm; [done | | lia].
  apply B64Count.digits2_pos_upper.
Qed.

Lemma Zdigits2_le (m : Z) (d : Z) : 0 ≤ d → 0 ≤ m < 2 ^ d → Zdigits2 m ≤ d.
Proof.
  intros Hd [Hm Hlt]. destruct m as [|p|p]; simpl Zdigits2; [done | | lia].
  pose proof (Rounding.digits2_pos_lower p) as Hl.
  destruct (Z_le_gt_dec (Z.pos (digits2_pos p)) d) as [|Hgt]; [done |].
  assert (2 ^ d ≤ 2 ^ (Z.pos (digits2_pos p) - 1)) by (apply Z.pow_le_mono_r; lia).
  lia.
Qed.

(** In the normal range the number of bits dropped by a rounding does
    not depend on the exponent. *)
Lemma fexp_normal (d e : Z) : 0 ≤ d → -1021 ≤ e → fexp prec emax (d + e) - e = d - 53.
Proof. intros Hd He. unfold fexp, SpecFloat.emin, prec, emax. lia. Qed.

Lemma shr_shift mrs (e n k : Z) :
  shr mrs (e + k) n = ((shr mrs e n).1, (shr mrs e n).2 + k)
  ∧ e ≤ (shr mrs e n).2 ≤ e + Z.max n 0.
Proof. unfold shr. destruct n; simpl; split; try done; try lia. f_equal. lia. Qed.

Lemma shr_fexp_shift (m e k : Z) l :
  -1021 ≤ e → -1021 ≤ e + k →
  shr_fexp prec emax m (e + k) l
  = ((shr_fexp prec emax m e l).1, (shr_fexp prec emax m e l).2 + k)
  ∧ e ≤ (shr_fexp prec emax m e l).2 ≤ e + Z.max (Zdigits2 m - 53) 0.
Proof.
  intros He Hk. unfold shr_fexp.
  pose proof (Zdigits2_nonneg m) as Hd.
  replace (Zdigits2 m + (e + k)) with (Zdigits2 m + e + k) by lia.
  assert (fexp prec emax (Zdigits2 m + e + k) - (e + k) = Zdigits2 m - 53) as ->.
  { replace (Zdigits2 m + e + k) with (Zdigits2 m + (e + k)) by lia.
    by apply fexp_normal. }
  rewrite (fexp_normal _ e) by done.
  apply shr_shift.
Qed.

(** Rounding at an exponent raised by [k] gives the same mantissa at an
    exponent raised by [k], short of an overflow. *)
Lemma binary_round_aux_shift (s : bool) (m e k : Z) l :
  -1021 ≤ e → 0 ≤ k →
  binary_round_aux prec emax s m (e + k) l
  = match binary_round_aux prec emax s m e l with
    | S754_finite s' m' e' =>
        if e' + k <=? 971 then S754_finite s' m' (e' + k) else S754_infinity s'
    | r => r
    end.
Proof.
  intros He Hk. unfold binary_round_aux.
  destruct (shr_fexp_shift m e k l) as [-> Hb1]; [lia | lia |].
  destruct (shr_fexp prec emax m e l) as [mrs' e1]. cbn [fst snd] in *.
  set (m2 := round_nearest_even (shr_m mrs') (loc_of_shr_record mrs')).
  destruct (shr_fexp_shift m2 e1 k loc_Exact) as [-> Hb2]; [lia | lia |].
  destruct (shr_fexp prec emax m2 e1 loc_Exact) as [mrs'' e2]. cbn [fst snd] in *.
  destruct (shr_m mrs'') as [|m'|m']; try done.
  change (emax - prec) with 971.
  destruct (Z.leb_spec e2 971) as [Hle | Hgt].
  - done.
  - destruct (Z.leb_spec (e2 + k) 971); [lia | done].
Qed.

Lemma shr_1_div2 mrs : 0 ≤ shr_m mrs → shr_m (shr_1 mrs) = shr_m mrs / 2.
Proof.
  destruct mrs as [m r s]. simpl. intros Hm.
  destruct m as [|[p|p|]|p]; cbn [shr_m]; [done | | | done | lia].
  - apply (Z.div_unique _ _ _ 1); lia.
  - apply (Z.div_unique _ _ _ 0); lia.
Qed.

Lemma shr_m_iter (n : nat) mrs :
  0 ≤ shr_m mrs → shr_m (Nat.iter n shr_1 mrs) = shr_m mrs / 2 ^ Z.of_nat n.
Proof.
  intros Hm. induction n as [|n IH].
  - simpl. by rewrite Z.div_1_r.
  - rewrite Nat2Z.inj_succ, Z.pow_succ_r by lia. simpl Nat.iter.
    rewrite shr_1_div2, IH.
    + rewrite Z.div_div by (try apply Z.pow_pos_nonneg; lia). f_equal. lia.
    + rewrite IH. apply Z.div_pos; [done | apply Z.pow_pos_nonneg; lia].
Qed.

Lemma shr_record_of_loc_m m l : shr_m (shr_record_of_loc m l) = m.
Proof. by destruct l as [|[]]. Qed.

(** After the shift a mantissa has at most 53 bits. *)
Lemma shr_fexp_small (m e : Z) l :
  0 ≤ m → -1021 ≤ e →
  0 ≤ shr_m (shr_fexp prec emax m e l).1 < 2 ^ 53.
Proof.
  intros Hm He. unfold shr_fexp.
  rewrite fexp_normal by (done || apply Zdigits2_nonneg).
  pose proof (Zdigits2_upper m Hm) as Hu.
  pose proof (Zdigits2_nonneg m) as Hd.
  unfold shr. destruct (Zdigits2 m - 53) as [|n|n] eqn:Hn; cbn [fst].
  - rewrite shr_record_of_loc_m. replace (Zdigits2 m) with 53 in Hu by lia. lia.
  - rewrite B64Count.iter_pos_nat, shr_m_iter by by rewrite shr_record_of_loc_m.
    rewrite shr_record_of_loc_m, positive_nat_Z.
    split; [apply Z.div_pos; lia |].
    apply Z.div_lt_upper_bound; [lia |].
    rewrite <- Z.pow_add_r by lia.
    replace (Z.pos n + 53) with (Zdigits2 m) by lia. done.
  - rewrite shr_record_of_loc_m. split; [done |].
    assert (2 ^ Zdigits2 m ≤ 2 ^ 53) by (apply Z.pow_le_mono_r; lia). lia.
Qed.

Lemma round_nearest_even_bounds m l :
  m ≤ round_nearest_even m l ≤ m + 1.
Proof.
  unfold round_nearest_even. destruct l as [|[]]; try lia.
  destruct (Z.even m); lia.
Qed.

(** The result of a rounding in the normal range: a mantissa below
    2^53 and an exponent raised by the number of bits dropped, or one
    more. *)
Lemma binary_round_aux_bounds (s : bool) (m e : Z) l s' m' e' :
  0 ≤ m → -1021 ≤ e →
  binary_round_aux prec emax s m e l = S754_finite s' m' e' →
  Z.pos m' < 2 ^ 53 ∧ e ≤ e' ≤ e + Z.max (Zdigits2 m - 53) 0 + 1.
Proof.
  intros Hm He. unfold binary_round_aux.
  pose proof (shr_fexp_small m e l Hm He) as Hs1.
  destruct (shr_fexp_shift m e 0 l) as [_ Hb1]; [lia | lia |].
  destruct (shr_fexp prec emax m e l) as [mrs' e1]. cbn [fst snd] in *.
  pose proof (round_nearest_even_bounds (shr_m mrs') (loc_of_shr_record mrs')) as Hr.
  set (m2 := round_nearest_even (shr_m mrs') (loc_of_shr_record mrs')) in *.
  pose proof (shr_fexp_small m2 e1 loc_Exact) as Hs2.
  destruct (shr_fexp_shift m2 e1 0 loc_Exact) as [_ Hb2]; [lia | lia |].
  assert (Hd2 : Zdigits2 m2 ≤ 54) by (apply Zdigits2_le; lia).
  destruct (shr_fexp prec emax m2 e1 loc_Exact) as [mrs'' e2]. cbn [fst snd] in *.
  destruct (shr_m mrs'') as [|m''|m'']; try done.
  destruct (e2 <=? emax - prec); [| done].
  intros [= <- <- <-]. lia.
Qed.
End Scaling64.

Module Scaling64b.
Import B64 Scaling64.

Lemma moderate_inv (x : B64.t) :
  moderate x = true →
  ∃ s m e, x = S754_finite s m e ∧ Z.pos (digits2_pos m) = 53 ∧ -200 ≤ e ≤ 200.
Proof.
  destruct x as [| | |s m e]; try discriminate. unfold moderate.
  intros Hm. apply andb_prop in Hm as [Hm H3]. apply andb_prop in Hm as [H1 H2].
  exists s, m, e. split_and!; [done | lia ..].
Qed.

Lemma digits53_bounds (m : positive) :
  Z.pos (digits2_pos m) = 53 → 2 ^ 52 ≤ Z.pos m < 2 ^ 53.
Proof.
  intros Hd. pose proof (Rounding.digits2_pos_lower m) as Hl.
  pose proof (B64Count.digits2_pos_upper m) as Hu.
  rewrite Hd in Hl, Hu. done.
Qed.

(** Multiplying by [M * 2^(E+k)] instead of [M * 2^E] raises the
    exponent of the product by [k]. *)
Lemma mul_shift (f : B64.t) (M : positive) (E k : Z) :
  moderate f = true →
  Z.pos M < 2 ^ 53 → -52 ≤ E ≤ 0 → 0 ≤ k ≤ 52 →
  mul f (S754_finite false M (E + k)) = shift k (mul f (S754_finite false M E))
  ∧ tame (mul f (S754_finite false M E)).
Proof.
  intros Hf HM HE Hk.
  apply moderate_inv in Hf as (sf & mf & ef & -> & Hd & Hef).
  apply digits53_bounds in Hd.
  cbn [mul B64_arith SFmul].
  replace (ef + (E + k)) with (ef + E + k) by lia.
  rewrite binary_round_aux_shift by lia.
  destruct (binary_round_aux prec emax (xorb sf false) (Z.pos (mf * M)) (ef + E) loc_Exact)
    as [| | |s' m' e'] eqn:Hr; try done.
  apply binary_round_aux_bounds in Hr as [Hm' He']; [| lia | lia].
  assert (Zdigits2 (Z.pos (mf * M)) ≤ 106).
  { apply Zdigits2_le; [lia |]. rewrite Pos2Z.inj_mul.
    change (2 ^ 106) with (2 ^ 53 * 2 ^ 53). nia. }
  cbn [shift tame]. rewrite (proj2 (Z.leb_le _ _)) by lia. split; [done | lia].
Qed.

(** Raising the exponent of the numerator by [k] raises that of the
    quotient by [k]. *)
Lemma div_shift_num (y N : B64.t) (k : Z) :
  tame y → moderate N = true → 0 ≤ k ≤ 52 →
  div (shift k y) N = shift k (div y N).
Proof.
  intros Hy HN Hk.
  apply moderate_inv in HN as (sN & mN & eN & -> & HdN & HeN).
  destruct y as [s|s| |sy my ey]; try done.
  destruct Hy as [Hmy Hey].
  cbn [shift div B64_arith SFdiv].
  unfold SFdiv_core_binary. cbn [Zdigits2]. rewrite HdN.
  set (d1 := Z.pos (digits2_pos my)).
  assert (Hd1 : 1 ≤ d1 ≤ 53).
  { split; [unfold d1; lia |]. apply (Zdigits2_le (Z.pos my)); lia. }
  unfold fexp, SpecFloat.emin, prec, emax.
  replace (Z.min (Z.max (d1 + (ey + k) - (53 + eN) - 53) (3 - 1024 - 53)) (ey + k - eN))
    with (d1 + ey - eN - 106 + k) by lia.
  replace (Z.min (Z.max (d1 + ey - (53 + eN) - 53) (3 - 1024 - 53)) (ey - eN))
    with (d1 + ey - eN - 106) by lia.
  replace (ey + k - eN - (d1 + ey - eN - 106 + k)) with (106 - d1) by lia.
  replace (ey - eN - (d1 + ey - eN - 106)) with (106 - d1) by lia.
  set (m' := match 106 - d1 with
             | 0 => Z.pos my
             | Z.pos _ => Z.shiftl (Z.pos my) (106 - d1)
             | Z.neg _ => 0
             end).
  assert (Hm' : 0 ≤ m' < 2 ^ 106).
  { unfold m'. destruct (106 - d1) as [|p|p] eqn:Hp; try lia.
    rewrite Z.shiftl_mul_pow2 by lia.
    pose proof (B64Count.digits2_pos_upper my) as Hu. fold d1 in Hu.
    assert (0 < 2 ^ Z.pos p) by (apply Z.pow_pos_nonneg; lia).
    replace (2 ^ 106) with (2 ^ d1 * 2 ^ Z.pos p)
      by (rewrite <- Z.pow_add_r by lia; f_equal; lia).
    nia. }
  pose proof (Z.div_eucl_eq m' (Z.pos mN) ltac:(lia)) as Heq.
  pose proof (Z.mod_pos_bound m' (Z.pos mN) ltac:(lia)) as Hmod.
  unfold Z.modulo in Hmod.
  destruct (Z.div_eucl m' (Z.pos mN)) as [q r].
  assert (Hq : 0 ≤ q < 2 ^ 106) by nia.
  rewrite binary_round_aux_shift by lia.
  change (binary_round_aux 53 1024) with (binary_round_aux prec emax).
  destruct (binary_round_aux prec emax (xorb sy sN) q (d1 + ey - eN - 106)
              (new_location (Z.pos mN) r)) as [| | |s' m'' e''] eqn:Hr; try done.
  apply binary_round_aux_bounds in Hr as [_ He'']; [| lia | lia].
  assert (Zdigits2 q ≤ 106) by (apply Zdigits2_le; lia).
  cbn [shift]. by rewrite (proj2 (Z.leb_le _ _)) by lia.
Qed.

(** Raising both exponents by [k] leaves the quotient as it is. *)
Lemma div_shift_both (x e : B64.t) (k : Z) :
  div (shift k x) (shift k e) = div x e.
Proof.
  destruct x as [| | |sx mx ex], e as [| | |se me ee]; try done.
  cbn [shift div B64_arith SFdiv]. unfold SFdiv_core_binary.
  replace (Zdigits2 (Z.pos mx) + (ex + k) - (Zdigits2 (Z.pos me) + (ee + k)))
    with (Zdigits2 (Z.pos mx) + ex - (Zdigits2 (Z.pos me) + ee)) by lia.
  replace (ex + k - (ee + k)) with (ex - ee) by lia.
  done.
Qed.

(** Counts scaled by a power of two. *)
Lemma repr_pow2 (c : Z) (M : positive) (E k : Z) :
  0 ≤ k → 2 ^ k * c < 2 ^ 53 → repr c M E → repr (2 ^ k * c) M (E + k).
Proof.
  intros Hk Hc (HM & HE & Heq).
  assert (0 < 2 ^ k) by (apply Z.pow_pos_nonneg; lia).
  assert (0 < 2 ^ (- E)) by (apply Z.pow_pos_nonneg; lia).
  assert (HEk : E + k ≤ 0).
  { destruct (Z_le_gt_dec (E + k) 0) as [|Hgt]; [done |]. exfalso.
    assert (2 * 2 ^ (- E) ≤ 2 ^ k).
    { rewrite <- Z.pow_succ_r by lia. apply Z.pow_le_mono_r; lia. }
    nia. }
  unfold repr. split; [done |]. split; [lia |].
  rewrite Heq. replace (- E) with (k + - (E + k)) by lia.
  rewrite Z.pow_add_r by lia. ring.
Qed.

Lemma cnt_pow2 (n k : nat) :
  (0 < n)%nat → 2 ^ Z.of_nat k * Z.of_nat n < 2 ^ 53 →
  ∃ M E, (cnt n : B64.t) = S754_finite false M E
         ∧ (cnt (2 ^ k * n) : B64.t) = S754_finite false M (E + Z.of_nat k)
         ∧ 2 ^ 52 ≤ Z.pos M < 2 ^ 53 ∧ -52 ≤ E ≤ 0.
Proof.
  intros Hn Hc.
  assert (0 < 2 ^ Z.of_nat k) by (apply Z.pow_pos_nonneg; lia).
  destruct (B64Count.repr_exists (Z.of_nat n)) as (M & E & Hr); [nia |].
  exists M, E. pose proof (repr_pow2 _ _ _ (Z.of_nat k) ltac:(lia) Hc Hr) as Hr'.
  unfold cnt. rewrite (B64Count.lit_repr _ M E) by (done || lia).
  rewrite Nat2Z.inj_mul, Nat2Z.inj_pow.
  rewrite (B64Count.lit_repr _ M (E + Z.of_nat k)) by (done || nia).
  destruct Hr as (HM & HE & _). split_and!; (done || lia).
Qed.

Lemma pow2_repr (k : Z) : 0 ≤ k ≤ 52 → repr (2 ^ k) (2 ^ 52)%positive (k - 52).
Proof.
  intros Hk. unfold repr. split; [done |]. split; [lia |].
  rewrite <- Z.pow_add_r by lia. replace (k + - (k - 52)) with 52 by lia. done.
Qed.

Lemma cnt_pow2_value (k : nat) :
  (k ≤ 52)%nat → (cnt (2 ^ k) : B64.t) = S754_finite false (2 ^ 52) (Z.of_nat k - 52).
Proof.
  intros Hk. unfold cnt. rewrite Nat2Z.inj_pow.
  apply B64Count.lit_repr; [apply Z.pow_pos_nonneg; lia | apply pow2_repr; lia].
Qed.

(** Rounding is exact on a 53-bit mantissa followed by zeros. *)
Lemma binary_round_aux_exact (s : bool) (m M : positive) (e j : Z) :
  2 ^ 52 ≤ Z.pos M < 2 ^ 53 → 0 ≤ j → -1021 ≤ e → e + j ≤ 971 →
  Z.pos m = Z.pos M * 2 ^ j →
  binary_round_aux prec emax s (Z.pos m) e loc_Exact = S754_finite s M (e + j).
Proof.
  intros HM Hj He Hej Hm.
  assert (0 < 2 ^ j) by (apply Z.pow_pos_nonneg; lia).
  assert (HdM : Z.pos (digits2_pos M) = 53) by (apply B64Count.digits2_pos_unique; lia).
  assert (Hdm : Z.pos (digits2_pos m) = 53 + j).
  { apply B64Count.digits2_pos_unique.
    replace (53 + j - 1) with (52 + j) by lia.
    rewrite !Z.pow_add_r by lia. nia. }
  unfold binary_round_aux, shr_fexp. cbn [Zdigits2]. rewrite Hdm.
  rewrite fexp_normal by lia.
  replace (53 + j - 53) with j by lia.
  destruct j as [|j|j]; [| | lia].
  - cbn [shr shr_record_of_loc fst snd shr_m loc_of_shr_record round_nearest_even].
    assert (m = M) as -> by lia.
    cbn [Zdigits2]. rewrite HdM, fexp_normal by lia.
    cbn [shr shr_record_of_loc shr_m Z.sub Z.add Z.opp Z.pos_sub].
    change (53 - 53) with 0. cbn [shr shr_m].
    rewrite Z.add_0_r. change (emax - prec) with 971.
    by rewrite (proj2 (Z.leb_le _ _)) by lia.
  - change (shr_record_of_loc (Z.pos m) loc_Exact)
      with {| shr_m := Z.pos m; shr_r := false; shr_s := false |}.
    rewrite (B64Count.shr_exact j M) by done.
    cbn [fst snd shr_m loc_of_shr_record round_nearest_even Zdigits2].
    rewrite HdM, fexp_normal by lia.
    change (53 - 53) with 0. cbn [shr shr_record_of_loc shr_m].
    change (emax - prec) with 971.
    by rewrite (proj2 (Z.leb_le _ _)) by lia.
Qed.

(** The product of [2^k] and a count is the count of the product. *)
Lemma mul_pow2_count (n k : nat) :
  (k ≤ 52)%nat → 2 ^ Z.of_nat k * Z.of_nat n < 2 ^ 53 →
  mul (cnt (2 ^ k)) (cnt n : B64.t) = cnt (2 ^ k * n).
Proof.
  intros Hk Hc. rewrite cnt_pow2_value by done.
  destruct (Nat.eq_dec n 0%nat) as [-> | Hn].
  { by rewrite Nat.mul_0_r. }
  destruct (cnt_pow2 n k) as (M & E & -> & -> & HM & HE); [lia | done |].
  cbn [mul B64_arith SFmul xorb].
  rewrite (binary_round_aux_exact _ _ M _ 52); [f_equal; lia | lia | lia | lia | lia |].
  rewrite Pos2Z.inj_mul. change (Z.pos (2 ^ 52)) with (2 ^ 52). lia.
Qed.
End Scaling64b.

Module Scaling64c.
Import B64 Scaling64 Scaling64b.

(** The density of one pixel of the mask, before and after the counts
    are doubled [k] times. *)
Lemma pixel_scale (n S k : nat) (f N : B64.t) :
  (n ≤ S)%nat → (k ≤ 52)%nat →
  2 ^ Z.of_nat k * Z.of_nat S < 2 ^ 53 →
  moderate f = true → moderate N = true →
  div (cnt (2 ^ k * n)) (div (mul f (cnt (2 ^ k * S))) N)
  = div (cnt n) (div (mul f (cnt S)) N).
Proof.
  intros Hn Hk HS Hf HN.
  assert (Hp : 0 < 2 ^ Z.of_nat k) by (apply Z.pow_pos_nonneg; lia).
  destruct (Nat.eq_dec S 0%nat) as [-> | HS0].
  { replace n with 0%nat by lia. by rewrite Nat.mul_0_r. }
  destruct (cnt_pow2 S k) as (M & E & -> & -> & HM & HE); [lia | done |].
  destruct (mul_shift f M E (Z.of_nat k)) as [-> Hy]; [done | lia | lia | lia |].
  rewrite div_shift_num by (done || lia).
  destruct (Nat.eq_dec n 0%nat) as [-> | Hn0].
  - rewrite Nat.mul_0_r.
    change (cnt 0 : B64.t) with (shift (Z.of_nat k) (cnt 0 : B64.t)) at 1.
    apply div_shift_both.
  - destruct (cnt_pow2 n k) as (Mn & En & -> & -> & _); [lia | nia |].
    change (S754_finite false Mn (En + Z.of_nat k))
      with (shift (Z.of_nat k) (S754_finite false Mn En)).
    apply div_shift_both.
Qed.

Lemma masked2_scaled (S k : nat) (N : B64.t) (msk : list bool) (ns : list nat)
    (frac : list B64.t) :
  (k ≤ 52)%nat →
  2 ^ Z.of_nat k * Z.of_nat S < 2 ^ 53 →
  moderate N = true →
  Forall (fun n => n ≤ S)%nat (select ns msk) →
  forallb moderate (select frac msk) = true →
  masked2 (fun c f => sub (div c (div (mul f (cnt (2 ^ k * S))) N)) one) zero msk
    (scale_in_mask (cnt (2 ^ k)) msk (map cnt ns)) frac
  = masked2 (fun c f => sub (div c (div (mul f (cnt S)) N)) one) zero msk
      (map cnt ns) frac.
Proof.
  intros Hk HS HN. revert ns frac.
  induction msk as [|m msk IH]; intros [|n ns] [|f frac] Hns Hfrac; try done.
  cbn [map scale_in_mask zip_with masked2 select] in *.
  destruct m.
  - apply Forall_cons in Hns as [Hn Hns].
    cbn [forallb] in Hfrac. apply andb_prop in Hfrac as [Hf Hfrac].
    f_equal; [| by apply IH].
    rewrite mul_pow2_count by (done || nia).
    f_equal. by apply pixel_scale.
  - f_equal. by apply IH.
Qed.

Lemma sum_list_scaled (c : nat) (ns : list nat) :
  sum_list (map (Nat.mul c) ns) = (c * sum_list ns)%nat.
Proof. induction ns as [|n ns IH]; simpl; [lia | rewrite IH; lia]. Qed.

Lemma scaled_counts (k : nat) (ns : list nat) :
  (k ≤ 52)%nat →
  2 ^ Z.of_nat k * Z.of_nat (sum_list ns) < 2 ^ 53 →
  map (mul (cnt (2 ^ k))) (map cnt ns : list B64.t) = map cnt (map (Nat.mul (2 ^ k)) ns).
Proof.
  intros Hk. induction ns as [|n ns IH]; intros HS; [done |].
  assert (Hp : 0 < 2 ^ Z.of_nat k) by (apply Z.pow_pos_nonneg; lia).
  cbn [sum_list_with] in HS. unfold id in HS at 1. rewrite Nat2Z.inj_add in HS.
  cbn [map]. rewrite mul_pow2_count by (done || nia). f_equal. apply IH. nia.
Qed.
End Scaling64c.

(** C4 (amended): in float64, doubling the counts of the mask [k] times
    leaves the density as it is, bit for bit.  The counts are natural
    numbers, as in a count map; the scaled total stays below 2^53; the
    completeness on the mask and its sum are normal numbers with an
    exponent between -200 and 200, which keeps every product and quotient
    away from overflow and underflow. *)
Theorem C4_scale_invariance_pow2 (ns : list nat) (mask_frac : option (list B64.t))
    (mask : option (mask_array B64.t)) (k : nat) :
  let count : list B64.t := map cnt ns in
  let frac := effective_frac count mask_frac in
  let msk := effective_mask count mask in
  length frac = length count →
  length msk = length count →
  (k ≤ 52)%nat →
  2 ^ Z.of_nat k * Z.of_nat (sum_list (select ns msk)) < 2 ^ 53 →
  forallb moderate (select frac msk) = true →
  moderate (np_sum (select frac msk)) = true →
  ∃ density,
    count2density count mask_frac mask = Ok density
    ∧ count2density (scale_in_mask (cnt (2 ^ k)) msk count) mask_frac mask = Ok density.
Proof.
  intros count frac msk Hf Hm Hk HS Hfrac HN.
  assert (Hp : 0 < 2 ^ Z.of_nat k) by (apply Z.pow_pos_nonneg; lia).
  assert (Hlen : length (scale_in_mask (cnt (2 ^ k)) msk count) = length count)
    by by apply scale_in_mask_length.
  assert (Hfrac' : effective_frac (scale_in_mask (cnt (2 ^ k)) msk count) mask_frac = frac).
  { unfold effective_frac. rewrite Hlen. reflexivity. }
  assert (Hmsk' : effective_mask (scale_in_mask (cnt (2 ^ k)) msk count) mask = msk).
  { unfold effective_mask. rewrite Hlen. reflexivity. }
  exists (density_spec count frac msk). split.
  - by apply count2density_pointwise.
  - rewrite count2density_pointwise; rewrite ?Hfrac', ?Hmsk'; [| congruence ..].
    f_equal. unfold density_spec.
    rewrite select_scale_in_mask. unfold count at 1 3.
    rewrite !select_counts, Scaling64c.scaled_counts by done.
    set (S := sum_list (select ns msk)) in *.
    assert (HS53 : Z.of_nat S < 2 ^ 53) by nia.
    assert (Hex' : counts_exact_upto (F := B64.t) (2 ^ k * S)).
    { apply B64Count.b64_counts. by rewrite Nat2Z.inj_mul, Nat2Z.inj_pow. }
    pose proof (B64Count.b64_counts S HS53) as Hex.
    rewrite (np_sum_counts _ Hex') by (rewrite Scaling64c.sum_list_scaled; done).
    rewrite (np_sum_counts _ Hex) by done.
    rewrite Scaling64c.sum_list_scaled. fold S.
    apply Scaling64c.masked2_scaled; try done.
    apply Forall_forall. intros n Hn.
    pose proof (sum_list_with_in n id _ Hn) as Hle. unfold id in Hle at 1. exact Hle.
Qed.

Lemma C4_scale_invariance_pow2_witness :
  ∃ density,
    count2density (F := B64.t) [ [#0]; [#2]; [#3] ] None None = Ok density
    ∧ count2density (F := B64.t) [ [#0]; [#4]; [#6] ] None None = Ok density.
Proof.
  destruct (C4_scale_invariance_pow2 [0; 2; 3]%nat None None 1)
    as (density & H1 & H2); [reflexivity | reflexivity | lia | by vm_compute
                            | reflexivity | reflexivity |].
  exists density. split; [exact H1 | exact H2].
Defined.


(** ** The steps of a successful call of [make_healpix_map] *)

Section BinnerSteps.
Context {F : Type} `{Arith F}.
Variable nside2npix : Z → nat.
Variable ang2pix : Z → F → F → option Z.
Variable nside2pixarea : Z → bool → F.

Local Abbreviation binner := (make_healpix_map nside2npix ang2pix nside2pixarea).

Lemma make_healpix_map_Ok_inv ra dec quantity nside mask weight fill_UNSEEN return_extra
    outmaps count rmask ex :
  binner ra dec quantity nside mask weight fill_UNSEEN return_extra
  = Ok (outmaps, count, rmask, ex) →
  ∃ qw ipix count1,
    let npix := nside2npix nside in
    let x := if fill_UNSEEN then UNSEEN else zero in
    let bool_mask := bool_mask_of mask count1 in
    prepare_quantity ra dec quantity weight = Ok qw
    ∧ pixels ang2pix nside ra dec = Ok ipix
    ∧ add_at (zeros npix) (map (fun i => (i, one)) ipix) = Ok count1
    ∧ length bool_mask = npix
    ∧ count = fill count1 (map negb bool_mask) x
    ∧ quantity_maps npix ipix bool_mask x qw = Ok outmaps.
Proof.
  unfold make_healpix_map. intros Hr.
  apply bind_Ok_inv in Hr as (qw & Hqw & Hr).
  apply bind_Ok_inv in Hr as ([] & Hm & Hr).
  apply bind_Ok_inv in Hr as (ipix & Hipix & Hr).
  apply bind_Ok_inv in Hr as (count1 & Hcount1 & Hr).
  apply bind_Ok_inv in Hr as (count2 & Hcount2 & Hr).
  apply bind_Ok_inv in Hr as ([] & _ & Hr).
  apply bind_Ok_inv in Hr as (outmaps' & Hout & Hr).
  exists qw, ipix, count1. cbv zeta.
  unfold setitem_mask in Hcount2. case_decide as Hlen; [| discriminate].
  injection Hcount2 as <-. rewrite length_map in Hlen.
  apply add_at_length in Hcount1 as Hl1. unfold zeros in Hl1.
  rewrite length_replicate in Hl1.
  assert (outmaps' = outmaps ∧
          fill count1 (map negb (bool_mask_of mask count1))
            (if fill_UNSEEN then UNSEEN else zero) = count) as [-> <-].
  { destruct return_extra; inv_result; by simplify_eq. }
  split_and!; try done. congruence.
Qed.

Lemma pixels_length nside (ra dec : list F) ipix :
  length ra = length dec →
  pixels ang2pix nside ra dec = Ok ipix → length ipix = length ra.
Proof.
  unfold pixels, broadcast2. intros Hlen.
  rewrite decide_True by by rewrite !length_map.
  simpl. intros Hm. apply mapM_Ok_length in Hm.
  rewrite Hm, length_zip_with, !length_map. lia.
Qed.

Lemma astype_bool_length (m : mask_array F) : length (astype_bool m) = mask_len m.
Proof. destruct m; simpl; by rewrite ?length_map. Qed.

(** A call that only counts returns, as soon as healpy places every
    object on the grid and a supplied mask has one entry per pixel. *)
Lemma counting_returns ra dec nside mask weight fill_UNSEEN return_extra ipix :
  pixels ang2pix nside ra dec = Ok ipix →
  Forall (fun i => 0 ≤ i < Z.of_nat (nside2npix nside)) ipix →
  (∀ m, mask = Some m → mask_len m = nside2npix nside) →
  ∃ r, binner ra dec None nside mask weight fill_UNSEEN return_extra = Ok r.
Proof.
  intros Hpix Hrange Hmask. unfold make_healpix_map. simpl.
  assert (match mask with
          | Some m => assert (bool_decide (mask_len m = nside2npix nside)) msg_mask_len
          | None => Ok ()
          end = Ok ()) as ->.
  { destruct mask as [m|]; [| done]. by rewrite bool_decide_eq_true_2 by auto. }
  simpl. rewrite Hpix. simpl.
  destruct (add_at_in_range (zeros (nside2npix nside)) (map (fun i => (i, one)) ipix))
    as [count1 Hc1].
  { unfold zeros. rewrite length_replicate, Forall_fmap.
    eapply Forall_impl; [exact Hrange |]. by intros i Hi. }
  rewrite Hc1. simpl.
  apply add_at_length in Hc1 as Hl1. unfold zeros in Hl1. rewrite length_replicate in Hl1.
  assert (Hbm : length (bool_mask_of mask count1) = length count1).
  { destruct mask as [m|]; simpl; [| by rewrite length_map].
    rewrite astype_bool_length, Hl1. auto. }
  unfold setitem_mask. rewrite decide_True by by rewrite length_map.
  simpl.
  assert (match mask with
          | Some _ => Ok ()
          | None =>
              inmask ← getitem_mask
                (fill count1 (map negb (bool_mask_of mask count1))
                   (if fill_UNSEEN then UNSEEN else zero))
                (bool_mask_of mask count1);
              assert (forallb (fun c => gtb c zero) inmask) msg_count
          end = Ok ()) as ->.
  { destruct mask as [m|]; [done |]. unfold getitem_mask.
    rewrite decide_True.
    - simpl. by rewrite derived_mask_check.
    - simpl. by rewrite length_fill, !length_map. }
  simpl. destruct return_extra; [| eauto].
  unfold make_extra, getitem_mask.
  rewrite decide_True by by rewrite length_fill.
  simpl.
  destruct (mapM_total
              (fun i => k ← norm_index (length (bool_mask_of mask count1)) i;
                        Ok (i, default false (bool_mask_of mask count1 !! k))) ipix)
    as [flags ->]; [| simpl; eauto].
  eapply Forall_impl; [exact Hrange |]. intros i Hi. simpl in Hi.
  rewrite norm_index_in_range by (rewrite Hbm, Hl1; lia). simpl. eauto.
Qed.
End BinnerSteps.

(** ** The count map sums to the number of objects *)

(** C3 (counterexample): one object, in float64.  With a supplied mask
    that is false everywhere the count map is zeroed and sums to 0; with
    no mask and [fill_UNSEEN=True] the eleven empty pixels hold
    [hp.UNSEEN] and the sum is not 1 either.  Neither outcome depends on
    the pixel the object falls in. *)
Lemma C3_counterexample :
  (∃ count rmask,
     make_healpix_map (F := B64.t) Toy.nside2npix Toy.ang2pix Toy.nside2pixarea
       [ [#0] ] [ [#0] ] None 1 (Some (BoolMask (replicate 12 false))) None false false
     = Ok ([], count, rmask, None)
     ∧ count = replicate 12 [#0] ∧ np_sum count ≠ [#1])
  ∧ (∃ count rmask,
     make_healpix_map (F := B64.t) Toy.nside2npix Toy.ang2pix Toy.nside2pixarea
       [ [#0] ] [ [#0] ] None 1 None None true false
     = Ok ([], count, rmask, None)
     ∧ length (List.filter (fun c => eqb c UNSEEN) count) = 11%nat
     ∧ np_sum count ≠ [#1]).
Proof.
  split; eexists _, _; split_and!; try (vm_compute; reflexivity); vm_compute; discriminate.
Qed.

Section CountSum.
Context {F : Type} `{Arith F}.
Variable nside2npix : Z → nat.
Variable ang2pix : Z → F → F → option Z.
Variable nside2pixarea : Z → bool → F.

Local Abbreviation binner := (make_healpix_map nside2npix ang2pix nside2pixarea).

(** In an arithmetic that handles counts up to the size of the catalog
    without rounding, the count map of a covered catalog sums to the
    number of objects. *)
Lemma count_map_sum (ra dec : list F) (quantity weight : option (ndarray F))
    (nside : Z) (mask : option (mask_array F)) (return_extra : bool) (ipix : list Z)
    outmaps count rmask ex :
  counts_exact_upto (length ra) →
  length ra = length dec →
  pixels ang2pix nside ra dec = Ok ipix →
  Forall (fun i => 0 ≤ i < Z.of_nat (nside2npix nside)) ipix →
  covers mask (nside2npix nside) ipix →
  binner ra dec quantity nside mask weight false return_extra
  = Ok (outmaps, count, rmask, ex) →
  np_sum count = cnt (length ra).
Proof.
  intros Hexact Hlen Hpix Hrange Hcov Hr.
  apply make_healpix_map_Ok_inv in Hr
    as (qw & ipix' & count1 & _ & Hpix' & Hc1 & Hbm & -> & _).
  rewrite Hpix in Hpix'. injection Hpix' as <-.
  pose proof (pixels_length _ _ _ _ _ Hlen Hpix) as Hn.
  apply add_at_length in Hc1 as Hl1. unfold zeros in Hl1.
  rewrite length_replicate in Hl1.
  pose proof Hc1 as Hks. rewrite zeros_counts in Hks.
  apply (add_at_ones_counts _ Hexact) in Hks as (ks & -> & Hsum).
  2: { rewrite sum_list_replicate. lia. }
  rewrite sum_list_replicate, Nat.mul_0_r, Nat.add_0_l in Hsum.
  assert (fill (map cnt ks) (map negb (bool_mask_of mask (map cnt ks))) zero
          = map cnt ks) as ->.
  { destruct mask as [m|]; simpl.
    - destruct Hcov as [Hm Hcov].
      apply fill_already. intros p Hp.
      rewrite list_lookup_fmap in Hp.
      destruct (astype_bool m !! p) as [[]|] eqn:Hmp; try discriminate.
      rewrite (add_at_untouched _ _ _ p Hc1).
      + apply lookup_replicate_2. apply lookup_lt_Some in Hmp.
        by rewrite astype_bool_length, Hm in Hmp.
      + rewrite Forall_fmap. unfold zeros. rewrite length_replicate.
        rewrite Forall_forall in Hrange, Hcov. apply Forall_forall.
        intros i Hi. simpl.
        rewrite norm_index_in_range by auto.
        intros [= <-]. specialize (Hcov i Hi). simpl in Hcov. congruence.
    - apply (fill_derived_counts _ Hexact).
      apply Forall_forall. intros a Ha.
      pose proof (sum_list_with_in a id ks Ha) as Hle. unfold id in Hle at 1. lia. }
  rewrite (np_sum_counts _ Hexact) by lia.
  by rewrite Hsum, Hn.
Qed.
End CountSum.

Section CountSumFloat.
Variable nside2npix : Z → nat.
Variable ang2pix : Z → B64.t → B64.t → option Z.
Variable nside2pixarea : Z → bool → B64.t.

Local Abbreviation binner := (make_healpix_map nside2npix ang2pix nside2pixarea).

(** C3 (amended): take a catalog of fewer than 2^53 objects, with as
    many right ascensions as declinations, every object of which healpy
    places on the pixel grid.  With [fill_UNSEEN=False], and with no mask
    or a mask that covers the catalog, a counting call returns, and the
    count map of every call that returns sums, in float64, to the number
    of objects. *)
Theorem C3_count_sums_to_catalog_size (ra dec : list B64.t)
    (quantity weight : option (ndarray B64.t)) (nside : Z)
    (mask : option (mask_array B64.t)) (return_extra : bool) (ipix : list Z) :
  Z.of_nat (length ra) < 2 ^ 53 →
  length ra = length dec →
  pixels ang2pix nside ra dec = Ok ipix →
  Forall (fun i => 0 ≤ i < Z.of_nat (nside2npix nside)) ipix →
  covers mask (nside2npix nside) ipix →
  (∃ r, binner ra dec None nside mask weight false return_extra = Ok r)
  ∧ ∀ outmaps count rmask ex,
      binner ra dec quantity nside mask weight false return_extra
      = Ok (outmaps, count, rmask, ex) →
      np_sum count = lit (Z.of_nat (length ra)) 0.
Proof.
  intros Hsize Hlen Hpix Hrange Hcov. split.
  - eapply counting_returns; [exact Hpix | exact Hrange |].
    intros m ->. by destruct Hcov.
  - intros outmaps count rmask ex Hr.
    eapply count_map_sum; eauto using B64Count.b64_counts.
Qed.
End CountSumFloat.

Lemma C3_count_sums_to_catalog_size_witness :
  ∃ count rmask,
    make_healpix_map (F := B64.t) Toy.nside2npix Toy.ang2pix Toy.nside2pixarea
      [ [#0]; [#5]; [#7] ] [ [#0]; [#10]; [#20] ] None 1 None None false false
    = Ok ([], count, rmask, None)
    ∧ np_sum count = [#3].
Proof.
  destruct (C3_count_sums_to_catalog_size Toy.nside2npix Toy.ang2pix Toy.nside2pixarea
              [ [#0]; [#5]; [#7] ] [ [#0]; [#10]; [#20] ] None None 1 None false
              [11; 0; 0])
    as [[r Hr] Hsum].
  - by vm_compute.
  - reflexivity.
  - vm_compute. reflexivity.
  - repeat constructor; by vm_compute.
  - exact I.
  - destruct r as [[[outmaps count] rmask] ex].
    assert (outmaps = [] ∧ ex = None) as [-> ->].
    { vm_compute in Hr. by injection Hr as <- _ _ <-. }
    exists count, rmask. split; [exact Hr |].
    exact (Hsum _ _ _ _ Hr).
Defined.

(** ** Empty pixels inside a supplied mask *)

Section MaskedDivision.
Context {F : Type} `{Arith F}.

Lemma getitem_mask_Ok_inv {A} (a v : list A) (msk : list bool) :
  getitem_mask a msk = Ok v → length msk = length a ∧ v = select a msk.
Proof. unfold getitem_mask. case_decide; [by intros [= <-] | discriminate]. Qed.

Lemma setitem_mask_Ok_inv (a a' : list F) (msk : list bool) (x : F) :
  setitem_mask a msk x = Ok a' → length msk = length a ∧ a' = fill a msk x.
Proof. unfold setitem_mask. case_decide; [by intros [= <-] | discriminate]. Qed.

Lemma setitem_mask_array_Ok_inv (a a' v : list F) (msk : list bool) :
  setitem_mask_array a msk v = Ok a' → length msk = length a ∧ a' = scatter a msk v.
Proof.
  unfold setitem_mask_array. repeat case_decide; try discriminate. by intros [= <-].
Qed.

Lemma scatter_div_lookup (f : F → F → F) (a b : list F) (msk : list bool) (p : nat) x y :
  msk !! p = Some true → a !! p = Some x → b !! p = Some y →
  scatter a msk (zip_with f (select a msk) (select b msk)) !! p = Some (f x y).
Proof.
  revert a b p. induction msk as [|m msk IH]; intros [|x' a] [|y' b] [|p]; simpl; try done.
  - by intros [= ->] [= ->] [= ->].
  - intros Hm Ha Hb. destruct m; simpl; eauto.
Qed.

Lemma untouched_zip (n p : nat) (ipix : list Z) (v : list F) :
  Forall (fun i => norm_index n i ≠ Ok p) ipix →
  Forall (fun '(i, _) => norm_index n i ≠ Ok p) (zip ipix v).
Proof.
  intros Hi. revert v. induction Hi as [|i ipix Hi _ IH]; intros [|y v]; simpl;
    constructor; auto.
Qed.

(** In a map made by [weighted_mean_map], a pixel of the mask that holds
    no object carries [0 / 0]. *)
Lemma weighted_mean_map_empty_pixel npix ipix bool_mask x q w outmap (p : nat) :
  weighted_mean_map npix ipix bool_mask x q w = Ok outmap →
  bool_mask !! p = Some true →
  Forall (fun i => norm_index npix i ≠ Ok p) ipix →
  outmap !! p = Some (div zero zero).
Proof.
  unfold weighted_mean_map. intros Hr Hp Hempty.
  apply bind_Ok_inv in Hr as (wv & _ & Hr).
  apply bind_Ok_inv in Hr as (sum_w & Hsw & Hr).
  apply bind_Ok_inv in Hr as (qw & _ & Hr).
  apply bind_Ok_inv in Hr as (qwv & _ & Hr).
  apply bind_Ok_inv in Hr as (outmap0 & Hom & Hr).
  apply bind_Ok_inv in Hr as (num & Hnum & Hr).
  apply bind_Ok_inv in Hr as (den & Hden & Hr).
  apply bind_Ok_inv in Hr as (outmap1 & Hom1 & Hr).
  apply getitem_mask_Ok_inv in Hnum as [Hl0 ->].
  apply getitem_mask_Ok_inv in Hden as [Hl1 ->].
  apply setitem_mask_array_Ok_inv in Hom1 as [_ ->].
  apply setitem_mask_Ok_inv in Hr as [_ ->].
  apply add_at_length in Hsw as Hlsw. apply add_at_length in Hom as Hlom.
  unfold zeros in *. rewrite length_replicate in Hlsw, Hlom.
  assert (Hpn : (p < npix)%nat).
  { apply lookup_lt_Some in Hp. congruence. }
  rewrite fill_lookup_false by by rewrite list_lookup_fmap, Hp.
  apply scatter_div_lookup; [done | |].
  - rewrite (add_at_untouched _ _ _ p Hom).
    + by apply lookup_replicate_2.
    + rewrite length_replicate. by apply untouched_zip.
  - rewrite (add_at_untouched _ _ _ p Hsw).
    + by apply lookup_replicate_2.
    + rewrite length_replicate. by apply untouched_zip.
Qed.

Lemma prepare_quantity_Some ra dec q weight qw :
  prepare_quantity ra dec (Some q) weight = Ok qw →
  ∃ w, qw = Some (atleast_2d q, w).
Proof.
  unfold prepare_quantity. intros Hr. inv_result. subst. eauto.
Qed.
End MaskedDivision.

Section EmptyPixels.
Variable nside2npix : Z → nat.
Variable ang2pix : Z → B64.t → B64.t → option Z.
Variable nside2pixarea : Z → bool → B64.t.

Local Abbreviation binner := (make_healpix_map nside2npix ang2pix nside2pixarea).

(** C10: with a caller's mask and a quantity, every returned quantity map
    holds NaN, the result of 0/0, at every pixel of the mask that
    contains no object; NaN is not the fill value.  There is one map per
    row of [quantity]. *)
Theorem C10_empty_masked_pixel_is_nan (ra dec : list B64.t) (q : ndarray B64.t)
    (nside : Z) (m : mask_array B64.t) (weight : option (ndarray B64.t))
    (fill_UNSEEN return_extra : bool) outmaps count rmask ex (ipix : list Z) (p : nat) :
  binner ra dec (Some q) nside (Some m) weight fill_UNSEEN return_extra
  = Ok (outmaps, count, rmask, ex) →
  pixels ang2pix nside ra dec = Ok ipix →
  astype_bool m !! p = Some true →
  Forall (fun i => norm_index (nside2npix nside) i ≠ Ok p) ipix →
  length outmaps = length (atleast_2d q)
  ∧ Forall (fun outmap : list B64.t => outmap !! p = Some S754_nan) outmaps
  ∧ div (zero : B64.t) zero = S754_nan
  ∧ S754_nan ≠ (if fill_UNSEEN then UNSEEN else zero : B64.t).
Proof.
  intros Hr Hpix Hp Hempty.
  apply make_healpix_map_Ok_inv in Hr
    as (qw & ipix' & count1 & Hqw & Hpix' & _ & _ & _ & Hmaps).
  rewrite Hpix in Hpix'. injection Hpix' as <-.
  apply prepare_quantity_Some in Hqw as [w ->].
  simpl in Hmaps. split_and!.
  - apply mapM_Ok_length in Hmaps. by rewrite Hmaps, length_seq.
  - apply Forall_lookup. intros k outmap Hk.
    destruct (mapM_Ok_lookup _ _ _ _ _ Hmaps Hk) as (i & _ & Hi).
    inv_result.
    exact (weighted_mean_map_empty_pixel _ _ _ _ _ _ _ p Hi Hp Hempty).
  - reflexivity.
  - by destruct fill_UNSEEN.
Qed.
End EmptyPixels.

Lemma C10_empty_masked_pixel_is_nan_witness :
  ∃ outmap count rmask,
    make_healpix_map (F := B64.t) Toy.nside2npix Toy.ang2pix Toy.nside2pixarea
      [ [#10]; [#10] ] [ [#0]; [#10] ] (Some (Arr1 [ [#3]; [#5] ])) 1
      (Some (BoolMask (replicate 12 true))) None false false
    = Ok ([outmap], count, rmask, None)
    ∧ outmap !! 5%nat = Some S754_nan.
Proof.
  destruct (make_healpix_map (F := B64.t) Toy.nside2npix Toy.ang2pix Toy.nside2pixarea
      [ [#10]; [#10] ] [ [#0]; [#10] ] (Some (Arr1 [ [#3]; [#5] ])) 1
      (Some (BoolMask (replicate 12 true))) None false false)
    as [[[[outmaps count] rmask] ex]|e] eqn:Hr; [| vm_compute in Hr; discriminate Hr].
  destruct (C10_empty_masked_pixel_is_nan _ _ _ _ _ _ _ _ _ _ _ _ _ _ _ [11; 0] 5%nat Hr)
    as (Hlen & Hnan & _).
  - vm_compute. reflexivity.
  - reflexivity.
  - repeat constructor; by vm_compute.
  - assert (ex = None) as -> by (vm_compute in Hr; by injection Hr as _ _ _ <-).
    destruct outmaps as [|outmap [|? ?]]; try discriminate Hlen.
    exists outmap, count, rmask. split; [reflexivity |].
    by apply Forall_cons in Hnan as [Hnan _].
Defined.


(** ** Clipping in [density2count] *)

Module Clipping.
Import B64 Rounding.

(** For a float64 [d <= -1] the sum [1 + d], rounded, is zero or
    negative. *)
Lemma add_one_nonpos (d : B64.t) :
  valid_binary prec emax d = true →
  SFleb d [#-1] = true →
  nonpos (add one d) = true.
Proof.
  rewrite B64Facts.b64_minus_one_eq, B64Facts.b64_one_eq.
  destruct d as [s|s| |s m e]; try done.
  - intros _ Hle. by destruct s.
  - intros Hvalid Hle. destruct s; [| done].
    unfold SFleb, SFcompare in Hle. simpl in Hvalid.
    assert (He : -52 ≤ e ∧ 2 ^ 52 ≤ Z.pos m) .
    { destruct (e ?= -52) eqn:Hcmp.
      - apply Z.compare_eq in Hcmp. subst e. split; [lia |].
        destruct (Pos.compare_cont Eq m 4503599627370496) eqn:Hm; try done.
        + apply Pos.compare_eq in Hm. subst m. done.
        + apply Pos.compare_gt_iff in Hm. lia.
      - done.
      - apply Z.compare_gt_iff in Hcmp. split; [lia |].
        unfold bounded, canonical_mantissa, fexp, SpecFloat.emin, prec, emax in Hvalid.
        apply andb_prop in Hvalid as [Hcan _]. apply Z.eqb_eq in Hcan.
        pose proof (digits2_pos_lower m) as Hd.
        assert (Z.pos (digits2_pos m) = 53) as Hdig by lia.
        rewrite Hdig in Hd. exact Hd. }
    destruct He as [He Hm].
    unfold add, B64_arith, SFadd.
    rewrite Z.min_l by lia.
    apply binary_normalize_nonpos.
    pose proof (shl_align_ge m e (-52)) as Hal.
    change (shl_align 4503599627370496 (-52) (-52)).1 with 4503599627370496%positive.
    unfold cond_Zopp. lia.
Qed.

Lemma clip_nonpos (x : B64.t) : nonpos x = true → np_clip x zero inf = zero.
Proof. by destruct x as [[]|[]| |[] m e]. Qed.

(** Every float64 at or below -1 has relative density +0. *)
Lemma relative_density_below (d : B64.t) :
  valid_binary prec emax d = true → SFleb d [#-1] = true →
  relative_density d = zero.
Proof. intros Hv Hle. apply clip_nonpos. by apply add_one_nonpos. Qed.

(** nbar * 0 * c is a zero when [nbar] and [c] are finite. *)
Lemma rate_zero (nbarpix c : B64.t) :
  is_finite nbarpix = true → is_finite c = true →
  is_zero (mul (mul nbarpix zero) c) = true.
Proof. destruct nbarpix, c; simpl; done. Qed.
End Clipping.

Section Rates.
Context {F : Type} `{IEEE F}.

Lemma fill_lookup_true (a : list F) (msk : list bool) (x y : F) (p : nat) :
  msk !! p = Some true → a !! p = Some y → fill a msk x !! p = Some x.
Proof.
  revert msk p. induction a as [|z a IH]; intros [|m msk] [|p]; simpl; try done.
  - by intros [= ->].
  - apply IH.
Qed.

(** The rate of pixel [p]: [nbarpix * clip(1 + density[p], 0, inf) *
    completeness[p]] on the mask, [nbarpix * 0 * completeness[p]] off it. *)
Lemma sampling_rate_lookup (densitymap : list F) nbarpix mask completeness lamb
    (p : nat) (m : bool) d c :
  sampling_rate densitymap nbarpix mask completeness = Ok lamb →
  length completeness = length densitymap →
  astype_bool mask !! p = Some m →
  densitymap !! p = Some d →
  completeness !! p = Some c →
  lamb !! p = Some (mul (mul nbarpix (if m then relative_density d else zero)) c).
Proof.
  unfold sampling_rate. intros Hr Hlen Hm Hd Hc.
  apply bind_Ok_inv in Hr as (opd & Hopd & Hr).
  apply bind_Ok_inv in Hr as (rates & Hrates & Hr).
  injection Hr as <-.
  apply setitem_mask_Ok_inv in Hopd as [Hl ->].
  unfold broadcast2 in Hrates.
  rewrite decide_True in Hrates by by rewrite length_map, length_fill, length_map.
  injection Hrates as <-.
  rewrite list_lookup_fmap, lookup_zip_with, list_lookup_fmap.
  assert (fill (map relative_density densitymap) (map negb (astype_bool mask)) zero !! p
          = Some (if m then relative_density d else zero)) as ->.
  { destruct m.
    - rewrite fill_lookup_false by by rewrite list_lookup_fmap, Hm.
      by rewrite list_lookup_fmap, Hd.
    - eapply fill_lookup_true; [by rewrite list_lookup_fmap, Hm |].
      by rewrite list_lookup_fmap, Hd. }
  simpl. by rewrite Hc.
Qed.

(** [density2count] hands these rates to the random source: with
    [pixel=True] and a boolean mask of the length of the map, the outcome
    is the Poisson draw at the rates [sampling_rate] computes from
    [nbar]. *)
Lemma density2count_draws_at_rate (npix2nside : nat → option Z)
    (nside2pixarea : Z → bool → F) (rng : Type)
    (poisson : rng → list F → option (list Z * rng)) (state : rng)
    (densitymap : list F) (nbar : F) (b : list bool) (completeness : list F) :
  length b = length densitymap →
  (density2count npix2nside nside2pixarea rng poisson state densitymap nbar
     (Some (BoolMask b)) (Some completeness) true).2
  = (lamb ← sampling_rate densitymap nbar (BoolMask b) completeness;
     or_raise (poisson state lamb) (ValueError "lam < 0 or lam is NaN")).
Proof.
  intros Hb. unfold density2count. simpl. unfold getitem_mask.
  by rewrite decide_True.
Qed.
End Rates.

(** * Further properties of the binner *)

(** ** What [np.add.at] leaves in each pixel *)

Section AddAtLookup.
Context {F : Type} `{Arith F}.

Lemma norm_index_lands (n p : nat) (i : Z) (k : nat) :
  norm_index n i = Ok k → lands_in n p i = bool_decide (k = p).
Proof. intros Hk. unfold lands_in. by rewrite Hk. Qed.

(** Pixel [p] ends with its former value to which the values sent to
    [p] have been added one after the other, in the order of the
    catalog. *)
Lemma add_at_lookup (a a' : list F) (iv : list (Z * F)) (p : nat) (x : F) :
  add_at a iv = Ok a' →
  a !! p = Some x →
  a' !! p = Some (foldl add x (values_at (length a) p iv)).
Proof.
  revert a x. induction iv as [|[i v] iv IH]; intros a x Ha Hp.
  - injection Ha as <-. done.
  - cbn [add_at] in Ha. apply bind_Ok_inv in Ha as (k & Hk & Ha).
    unfold values_at. rewrite filter_cons. cbn [fst].
    rewrite (norm_index_lands _ p _ _ Hk).
    destruct (decide (k = p)) as [-> | Hne].
    + rewrite bool_decide_eq_true_2 by done.
      rewrite decide_True by done. cbn [map foldl snd].
      erewrite IH; [| exact Ha | by rewrite list_lookup_alter_eq, Hp].
      by rewrite length_alter.
    + rewrite bool_decide_eq_false_2 by done.
      rewrite decide_False by done.
      erewrite IH; [| exact Ha | by rewrite list_lookup_alter_ne, Hp].
      by rewrite length_alter.
Qed.

(** One index outside [-n, n) is enough for [np.add.at] to raise. *)
Lemma add_at_out_of_range (a : list F) (iv : list (Z * F)) (i : Z) (v : F) :
  (i, v) ∈ iv →
  ¬ (- Z.of_nat (length a) ≤ i < Z.of_nat (length a)) →
  add_at a iv = Raise (IndexError "index out of bounds").
Proof.
  revert a. induction iv as [|[j w] iv IH]; intros a Hin Hout.
  - by apply elem_of_nil in Hin.
  - cbn [add_at]. unfold norm_index at 1.
    destruct (decide (0 ≤ j < Z.of_nat (length a))) as [Hj | Hj];
      [| destruct (decide (- Z.of_nat (length a) ≤ j < 0)) as [Hj' | Hj']];
      cbn [mbind result_bind]; [| | reflexivity].
    all: apply elem_of_cons in Hin as [[= -> ->] | Hin]; [lia |].
    all: apply IH; [done | by rewrite length_alter].
Qed.

Lemma hits_cons (n p : nat) (i : Z) (ipix : list Z) :
  hits n (i :: ipix) p = ((if lands_in n p i then 1 else 0) + hits n ipix p)%nat.
Proof.
  unfold hits. rewrite filter_cons. destruct (lands_in n p i); simpl; done.
Qed.

Lemma hits_le (n p : nat) (ipix : list Z) : (hits n ipix p ≤ length ipix)%nat.
Proof. unfold hits. apply length_filter. Qed.

Lemma hits_pos (n p : nat) (ipix : list Z) (i : Z) :
  i ∈ ipix → lands_in n p i = true → (0 < hits n ipix p)%nat.
Proof.
  intros Hin Hl. unfold hits.
  assert (Hf : i ∈ filter (fun i => lands_in n p i = true) ipix)
    by by apply list_elem_of_filter.
  destruct (filter _ ipix); [by apply elem_of_nil in Hf | simpl; lia].
Qed.

Lemma hits_Permutation (n p : nat) (ipix ipix' : list Z) :
  ipix ≡ₚ ipix' → hits n ipix p = hits n ipix' p.
Proof. intros Hp. unfold hits. by rewrite Hp. Qed.

Lemma histogram_Permutation (n : nat) (ipix ipix' : list Z) :
  ipix ≡ₚ ipix' → histogram n ipix = histogram n ipix'.
Proof.
  intros Hp. unfold histogram. apply map_ext. intros p.
  by apply hits_Permutation.
Qed.

Lemma histogram_lookup (n : nat) (ipix : list Z) (p : nat) :
  (p < n)%nat → histogram n ipix !! p = Some (hits n ipix p).
Proof.
  intros Hp. unfold histogram. rewrite list_lookup_fmap, lookup_seq_lt by done. done.
Qed.

Lemma length_histogram (n : nat) (ipix : list Z) : length (histogram n ipix) = n.
Proof. unfold histogram. by rewrite length_map, length_seq. Qed.

Lemma select_fill_negb {A} (a : list A) (msk : list bool) (x : A) :
  select (fill a (map negb msk) x) msk = select a msk.
Proof.
  revert msk. induction a as [|y a IH]; intros [|m msk]; simpl; try done.
  destruct m; simpl; by rewrite IH.
Qed.

Lemma fill_lookup_filled (a : list F) (msk : list bool) (x : F) (p : nat) :
  (p < length a)%nat → msk !! p = Some true → fill a msk x !! p = Some x.
Proof.
  revert msk p. induction a as [|y a IH]; intros [|m msk] [|p]; simpl; try done;
    try lia.
  - by intros _ [= ->].
  - intros Hp. apply IH. lia.
Qed.

Lemma mapM_Ok_lookup_fwd {A B} (f : A → result B) (l : list A) (bs : list B) i a :
  mapM f l = Ok bs → l !! i = Some a → ∃ b, bs !! i = Some b ∧ f a = Ok b.
Proof.
  revert bs i. induction l as [|a' l IH]; simpl; intros bs i Hm Ha; [done |].
  inv_result. subst bs. destruct i as [|i]; simpl in *.
  - injection Ha as <-. eauto.
  - eauto.
Qed.

Lemma mapM_Ok_map {A B} (f : A → result B) (g : A → B) (l : list A) (bs : list B) :
  mapM f l = Ok bs → (∀ a b, a ∈ l → f a = Ok b → b = g a) → bs = map g l.
Proof.
  revert bs. induction l as [|a l IH]; simpl; intros bs Hm Hg.
  - by injection Hm as <-.
  - inv_result. subst bs. f_equal.
    + apply Hg; [left | done].
    + apply IH; [done |]. intros a' b' Hin. apply Hg. by right.
Qed.

Lemma map_mul_zip (q w : list F) :
  map (fun '(a, b) => mul a b) (zip q w) = zip_with mul q w.
Proof.
  revert w. induction q as [|a q IH]; intros [|b w]; simpl; try done. by rewrite IH.
Qed.

Lemma broadcast_to_same (v : list F) (n : nat) :
  length v = n → broadcast_to v n = Ok v.
Proof. intros Hv. unfold broadcast_to. by rewrite decide_True. Qed.

Lemma broadcast2_same {A B} (a : list A) (b : list B) :
  length a = length b → broadcast2 a b = Ok (zip a b).
Proof. intros Hv. unfold broadcast2. by rewrite decide_True. Qed.
End AddAtLookup.

(** ** Counting one unit per object *)

Section Histogram.
Context {F : Type} `{Arith F}.
Variable N : nat.
Hypothesis Hexact : counts_exact_upto N.

Lemma add_at_ones_hits (ks : list nat) (ipix : list Z) (a' : list F) :
  add_at (map cnt ks) (map (fun i => (i, one)) ipix) = Ok a' →
  (sum_list ks + length ipix ≤ N)%nat →
  ∃ ks', a' = map cnt ks' ∧ length ks' = length ks
    ∧ sum_list ks' = (sum_list ks + length ipix)%nat
    ∧ ∀ p k, ks !! p = Some k → ks' !! p = Some (k + hits (length ks) ipix p)%nat.
Proof using Hexact.
  revert ks. induction ipix as [|i ipix IH]; intros ks Ha Hle.
  - injection Ha as <-. exists ks. split_and!; try done; try (simpl; lia).
    intros p k Hk. by rewrite Nat.add_0_r.
  - cbn [map add_at] in Ha. apply bind_Ok_inv in Ha as (k0 & Hk0 & Ha).
    rewrite length_map in Hk0.
    pose proof (norm_index_lt _ _ _ Hk0) as Hlt.
    destruct (lookup_lt_is_Some_2 ks k0 Hlt) as [a Hka].
    assert (a ≤ sum_list ks)%nat.
    { apply (sum_list_with_in a id). by eapply list_elem_of_lookup_2. }
    simpl in Hle.
    rewrite (alter_counts N Hexact k0 a) in Ha by (done || lia).
    destruct (IH _ Ha) as (ks' & -> & Hlen & Hsum & Hks').
    { rewrite sum_list_alter_S by done. lia. }
    rewrite length_alter in Hlen, Hks'.
    exists ks'. split_and!; try done.
    { rewrite Hsum, sum_list_alter_S by done. simpl. lia. }
    intros p k Hk. rewrite hits_cons, (norm_index_lands _ p _ _ Hk0).
    destruct (decide (k0 = p)) as [-> | Hne].
    + rewrite bool_decide_eq_true_2 by done.
      rewrite (Hks' p (S k)); [f_equal; lia |].
      by rewrite list_lookup_alter_eq, Hk.
    + rewrite bool_decide_eq_false_2 by done.
      rewrite (Hks' p k); [done |].
      by rewrite list_lookup_alter_ne, Hk.
Qed.

(** Starting from zeros, one unit per object leaves in every pixel the
    number of objects that land in it, and these numbers add up to the
    size of the catalog. *)
Lemma add_at_ones_histogram (n : nat) (ipix : list Z) (a' : list F) :
  add_at (zeros n) (map (fun i => (i, one)) ipix) = Ok a' →
  (length ipix ≤ N)%nat →
  a' = map cnt (histogram n ipix) ∧ sum_list (histogram n ipix) = length ipix.
Proof using Hexact.
  intros Ha Hle. rewrite zeros_counts in Ha.
  apply add_at_ones_hits in Ha as (ks' & -> & Hlen & Hsum & Hks').
  2: { rewrite sum_list_replicate. lia. }
  rewrite length_replicate in Hlen, Hks'.
  rewrite sum_list_replicate, Nat.mul_0_r, Nat.add_0_l in Hsum.
  assert (ks' = histogram n ipix) as ->; [| done].
  apply list_eq. intros p.
  destruct (decide (p < n)%nat) as [Hp | Hp].
  - rewrite histogram_lookup by done.
    rewrite (Hks' p 0%nat); [done |]. by apply lookup_replicate_2.
  - rewrite !lookup_ge_None_2; [done | |].
    + rewrite length_histogram. lia.
    + lia.
Qed.

(** Leaving out pixels that hold no object does not change the total. *)
Lemma sum_list_select (ks : list nat) (msk : list bool) :
  length msk = length ks →
  (∀ p, msk !! p = Some false → ks !! p = Some 0%nat) →
  sum_list (select ks msk) = sum_list ks.
Proof.
  revert msk. induction ks as [|k ks IH]; intros [|m msk] Hlen Hz; simpl in *;
    try done.
  assert (Hz' : ∀ p, msk !! p = Some false → ks !! p = Some 0%nat)
    by (intros p; apply (Hz (S p))).
  destruct m; simpl.
  - rewrite IH by (lia || done). done.
  - specialize (Hz 0%nat eq_refl). injection Hz as ->.
    rewrite IH by (lia || done). done.
Qed.

Lemma np_sum_counts_select (ks : list nat) (msk : list bool) :
  length msk = length ks →
  (∀ p, msk !! p = Some false → ks !! p = Some 0%nat) →
  (sum_list ks ≤ N)%nat →
  np_sum (select (map cnt ks) msk) = cnt (sum_list ks).
Proof using Hexact.
  intros Hlen Hz Hle. rewrite select_counts.
  rewrite (np_sum_counts N Hexact) by by rewrite sum_list_select.
  by rewrite sum_list_select.
Qed.
End Histogram.

(** ** All the steps of a successful call *)

Section BinnerFull.
Context {F : Type} `{Arith F}.
Variable nside2npix : Z → nat.
Variable ang2pix : Z → F → F → option Z.
Variable nside2pixarea : Z → bool → F.

Local Abbreviation binner := (make_healpix_map nside2npix ang2pix nside2pixarea).

Lemma make_healpix_map_Ok_full ra dec quantity nside mask weight fill_UNSEEN return_extra
    outmaps count rmask ex :
  binner ra dec quantity nside mask weight fill_UNSEEN return_extra
  = Ok (outmaps, count, rmask, ex) →
  ∃ qw ipix count1,
    let npix := nside2npix nside in
    let x := if fill_UNSEEN then UNSEEN else zero in
    let bool_mask := bool_mask_of mask count1 in
    prepare_quantity ra dec quantity weight = Ok qw
    ∧ pixels ang2pix nside ra dec = Ok ipix
    ∧ add_at (zeros npix) (map (fun i => (i, one)) ipix) = Ok count1
    ∧ length count1 = npix
    ∧ length bool_mask = npix
    ∧ count = fill count1 (map negb bool_mask) x
    ∧ quantity_maps npix ipix bool_mask x qw = Ok outmaps
    ∧ rmask = match mask with
              | None => RealMask (astype_float bool_mask)
              | Some m => m
              end
    ∧ if return_extra
      then ∃ e, make_extra nside2pixarea nside ipix count bool_mask = Ok e ∧ ex = Some e
      else ex = None.
Proof.
  unfold make_healpix_map. intros Hr.
  apply bind_Ok_inv in Hr as (qw & Hqw & Hr).
  apply bind_Ok_inv in Hr as ([] & Hm & Hr).
  apply bind_Ok_inv in Hr as (ipix & Hipix & Hr).
  apply bind_Ok_inv in Hr as (count1 & Hcount1 & Hr).
  apply bind_Ok_inv in Hr as (count2 & Hcount2 & Hr).
  apply bind_Ok_inv in Hr as ([] & _ & Hr).
  apply bind_Ok_inv in Hr as (outmaps' & Hout & Hr).
  exists qw, ipix, count1. cbv zeta.
  apply setitem_mask_Ok_inv in Hcount2 as [Hlen ->]. rewrite length_map in Hlen.
  apply add_at_length in Hcount1 as Hl1. unfold zeros in Hl1.
  rewrite length_replicate in Hl1.
  destruct return_extra.
  - apply bind_Ok_inv in Hr as (e & He & Hr). injection Hr as <- <- <- <-.
    split_and!; try done; [congruence | eauto].
  - injection Hr as <- <- <- <-. split_and!; try done. congruence.
Qed.

Lemma prepare_quantity_rows ra dec q weight qw :
  prepare_quantity ra dec (Some q) weight = Ok qw →
  qw = Some (atleast_2d q,
             match weight with
             | Some w => atleast_2d w
             | None => ones_like (atleast_2d q)
             end).
Proof.
  unfold prepare_quantity. intros Hr. destruct weight as [w|]; inv_result; by subst.
Qed.

Lemma make_extra_Ok_inv nside ipix count bool_mask (e : extra_stats F) :
  make_extra nside2pixarea nside ipix count bool_mask = Ok e →
  count_tot_in_mask e = np_sum (select count bool_mask)
  ∧ mapM (fun i => k ← norm_index (length bool_mask) i;
                   Ok (i, default false (bool_mask !! k))) ipix
    = Ok (ipix_masked e).
Proof.
  unfold make_extra. intros Hr.
  apply bind_Ok_inv in Hr as (inmask & Hin & Hr).
  apply bind_Ok_inv in Hr as (flags & Hfl & Hr).
  apply getitem_mask_Ok_inv in Hin as [_ ->].
  injection Hr as <-. by simpl.
Qed.

Lemma weighted_mean_map_length npix ipix bool_mask x q w (outmap : list F) :
  weighted_mean_map npix ipix bool_mask x q w = Ok outmap → length outmap = npix.
Proof.
  unfold weighted_mean_map. intros Hr.
  apply bind_Ok_inv in Hr as (wv & _ & Hr).
  apply bind_Ok_inv in Hr as (sum_w & Hsw & Hr).
  apply bind_Ok_inv in Hr as (qw & _ & Hr).
  apply bind_Ok_inv in Hr as (qwv & _ & Hr).
  apply bind_Ok_inv in Hr as (outmap0 & Hom & Hr).
  apply bind_Ok_inv in Hr as (num & Hnum & Hr).
  apply bind_Ok_inv in Hr as (den & Hden & Hr).
  apply bind_Ok_inv in Hr as (outmap1 & Hom1 & Hr).
  apply setitem_mask_array_Ok_inv in Hom1 as [_ ->].
  apply setitem_mask_Ok_inv in Hr as [_ ->].
  apply add_at_length in Hom. unfold zeros in Hom.
  by rewrite length_fill, length_scatter, Hom, length_replicate.
Qed.

Lemma quantity_maps_lengths npix ipix bool_mask x qw (outmaps : list (list F)) :
  quantity_maps npix ipix bool_mask x qw = Ok outmaps →
  Forall (fun outmap => length outmap = npix) outmaps.
Proof.
  unfold quantity_maps. destruct qw as [[q w]|]; [| by intros [= <-]].
  intros Hm. apply Forall_lookup. intros k outmap Hk.
  destruct (mapM_Ok_lookup _ _ _ _ _ Hm Hk) as (i & _ & Hi).
  apply bind_Ok_inv in Hi as (qk & _ & Hi).
  apply bind_Ok_inv in Hi as (wk & _ & Hi).
  by eapply weighted_mean_map_length.
Qed.

Lemma weighted_mean_map_unmasked npix ipix bool_mask (x : F) q w outmap (p : nat) :
  weighted_mean_map npix ipix bool_mask x q w = Ok outmap →
  bool_mask !! p = Some false →
  outmap !! p = Some x.
Proof.
  unfold weighted_mean_map. intros Hr Hp.
  apply bind_Ok_inv in Hr as (wv & _ & Hr).
  apply bind_Ok_inv in Hr as (sum_w & Hsw & Hr).
  apply bind_Ok_inv in Hr as (qw & _ & Hr).
  apply bind_Ok_inv in Hr as (qwv & _ & Hr).
  apply bind_Ok_inv in Hr as (outmap0 & Hom & Hr).
  apply bind_Ok_inv in Hr as (num & Hnum & Hr).
  apply bind_Ok_inv in Hr as (den & Hden & Hr).
  apply bind_Ok_inv in Hr as (outmap1 & Hom1 & Hr).
  apply setitem_mask_array_Ok_inv in Hom1 as [Hl ->].
  apply setitem_mask_Ok_inv in Hr as [_ ->].
  apply fill_lookup_filled.
  - rewrite length_scatter, <- Hl. by eapply lookup_lt_Some.
  - by rewrite list_lookup_fmap, Hp.
Qed.

(** With one value and one weight per object, a pixel of the mask holds
    the sum of [quantity * weight] over its objects divided by the sum of
    their weights, both sums taken in catalog order from 0. *)
Lemma weighted_mean_map_lookup npix ipix bool_mask x q w outmap (p : nat) :
  weighted_mean_map npix ipix bool_mask x q w = Ok outmap →
  length q = length ipix →
  length w = length ipix →
  bool_mask !! p = Some true →
  outmap !! p
  = Some (div (accumulated (values_at npix p (zip ipix (zip_with mul q w))))
              (accumulated (values_at npix p (zip ipix w)))).
Proof.
  unfold weighted_mean_map. intros Hr Hq Hw Hp.
  rewrite broadcast_to_same in Hr by done. cbn [mbind result_bind] in Hr.
  apply bind_Ok_inv in Hr as (sum_w & Hsw & Hr).
  rewrite broadcast2_same in Hr by congruence. cbn [mbind result_bind] in Hr.
  rewrite map_mul_zip in Hr.
  rewrite broadcast_to_same in Hr by (rewrite length_zip_with; lia).
  cbn [mbind result_bind] in Hr.
  apply bind_Ok_inv in Hr as (outmap0 & Hom & Hr).
  apply bind_Ok_inv in Hr as (num & Hnum & Hr).
  apply bind_Ok_inv in Hr as (den & Hden & Hr).
  apply bind_Ok_inv in Hr as (outmap1 & Hom1 & Hr).
  apply getitem_mask_Ok_inv in Hnum as [Hl0 ->].
  apply getitem_mask_Ok_inv in Hden as [Hl1 ->].
  apply setitem_mask_array_Ok_inv in Hom1 as [_ ->].
  apply setitem_mask_Ok_inv in Hr as [_ ->].
  apply add_at_length in Hsw as Hlsw. apply add_at_length in Hom as Hlom.
  unfold zeros in *. rewrite length_replicate in Hlsw, Hlom.
  assert (Hpn : (p < npix)%nat).
  { apply lookup_lt_Some in Hp. congruence. }
  rewrite fill_lookup_false by by rewrite list_lookup_fmap, Hp.
  apply scatter_div_lookup; [done | |].
  - rewrite (add_at_lookup _ _ _ p zero Hom) by by apply lookup_replicate_2.
    by rewrite length_replicate.
  - rewrite (add_at_lookup _ _ _ p zero Hsw) by by apply lookup_replicate_2.
    by rewrite length_replicate.
Qed.

(** X1: a call that returns gives a count map with one entry per pixel
    of the grid, quantity maps of that length too, a mask of that length,
    and as many quantity maps as [quantity] has rows once promoted to two
    dimensions (none without a quantity). *)
Theorem make_healpix_map_lengths ra dec quantity nside mask weight fill_UNSEEN
    return_extra outmaps count rmask ex :
  binner ra dec quantity nside mask weight fill_UNSEEN return_extra
  = Ok (outmaps, count, rmask, ex) →
  length count = nside2npix nside
  ∧ Forall (fun outmap => length outmap = nside2npix nside) outmaps
  ∧ mask_len rmask = nside2npix nside
  ∧ length outmaps = match quantity with
                     | Some q => length (atleast_2d q)
                     | None => 0%nat
                     end.
Proof.
  intros Hr. apply make_healpix_map_Ok_full in Hr
    as (qw & ipix & count1 & Hqw & _ & _ & Hl1 & Hbm & -> & Hmaps & -> & _).
  split_and!.
  - by rewrite length_fill.
  - by eapply quantity_maps_lengths.
  - destruct mask as [m|]; simpl in *.
    + by rewrite <- astype_bool_length.
    + unfold astype_float. by rewrite !length_map.
  - destruct quantity as [q|].
    + apply prepare_quantity_Some in Hqw as [w ->]. simpl in Hmaps.
      apply mapM_Ok_length in Hmaps. by rewrite Hmaps, length_seq.
    + injection Hqw as <-. by injection Hmaps as <-.
Qed.

(** X2: the ways a call can fail.  The assertion that the counts are
    positive on the mask (line 90) never fires, whatever the mask.  An
    AssertionError is one of the four checks on [quantity] and [weight],
    which need a quantity, or the check of the length of a supplied mask;
    no other failure is an AssertionError. *)
Theorem make_healpix_map_failures ra dec quantity nside mask weight fill_UNSEEN
    return_extra e :
  binner ra dec quantity nside mask weight fill_UNSEEN return_extra = Raise e →
  e ≠ AssertionError msg_count
  ∧ ((quantity ≠ None
      ∧ e ∈ [AssertionError msg_shape; AssertionError msg_weight;
             AssertionError msg_qw_len; AssertionError msg_radec])
     ∨ (e = AssertionError msg_mask_len
        ∧ ∃ m, mask = Some m ∧ mask_len m ≠ nside2npix nside)
     ∨ not_assertion e).
Proof.
  intros Hr. apply make_healpix_map_raises in Hr as [Hr | [(m & -> & Hm & ->) | Hr]].
  - apply prepare_quantity_raises in Hr as [Hq [-> | [-> | [-> | ->]]]];
      (split; [discriminate |]); left; (split; [done |]); rewrite !elem_of_cons; auto 10.
  - split; [discriminate |]. right. left. eauto.
  - split; [by intros -> |]. by right; right.
Qed.
End BinnerFull.

Lemma make_healpix_map_lengths_witness :
  ∃ outmap count rmask,
    make_healpix_map (F := B64.t) Toy.nside2npix Toy.ang2pix Toy.nside2pixarea
      [ [#10]; [#10] ] [ [#0]; [#10] ] (Some (Arr1 [ [#3]; [#5] ])) 1 None None false false
    = Ok ([outmap], count, rmask, None)
    ∧ length outmap = 12%nat ∧ length count = 12%nat ∧ mask_len rmask = 12%nat.
Proof.
  eassert (Hr : make_healpix_map (F := B64.t) Toy.nside2npix Toy.ang2pix Toy.nside2pixarea
      [ [#10]; [#10] ] [ [#0]; [#10] ] (Some (Arr1 [ [#3]; [#5] ])) 1 None None false false
    = Ok (_, _, _, _)) by (vm_compute; reflexivity).
  pose proof Hr as H1.
  eapply make_healpix_map_lengths in H1 as (Hc & Ho & Hm & _).
  eexists _, _, _. split; [exact Hr |].
  apply Forall_cons in Ho as [Ho _].
  split_and!; [exact Ho | exact Hc | exact Hm].
Defined.

Lemma make_healpix_map_failures_witness :
  make_healpix_map (F := B64.t) Toy.nside2npix Toy.ang2pix Toy.nside2pixarea
    [ [#0] ] [ [#0] ] None 1 (Some (BoolMask [true])) None false false
  = Raise (AssertionError msg_mask_len)
  ∧ AssertionError msg_mask_len ≠ AssertionError msg_count.
Proof.
  assert (Hr : make_healpix_map (F := B64.t) Toy.nside2npix Toy.ang2pix Toy.nside2pixarea
      [ [#0] ] [ [#0] ] None 1 (Some (BoolMask [true])) None false false
    = Raise (AssertionError msg_mask_len)) by (vm_compute; reflexivity).
  split; [exact Hr |].
  pose proof Hr as H1. eapply make_healpix_map_failures in H1 as [H1 _]. exact H1.
Defined.

(** ** Refused inputs *)

Section BinnerErrors.
Context {F : Type} `{Arith F}.
Variable nside2npix : Z → nat.
Variable ang2pix : Z → F → F → option Z.
Variable nside2pixarea : Z → bool → F.

Local Abbreviation binner := (make_healpix_map nside2npix ang2pix nside2pixarea).

Lemma forallb_false_elem {A} (f : A → bool) (l : list A) :
  forallb f l = false → ∃ v, v ∈ l ∧ f v = false.
Proof.
  induction l as [|a l IH]; simpl; [discriminate |].
  destruct (f a) eqn:Ha; simpl.
  - intros Hl. destruct (IH Hl) as (v & Hv & Hfv). exists v. split; [by right | done].
  - intros _. exists a. split; [left | done].
Qed.

(** X3: with a two-dimensional [quantity] and a [weight] of the same
    shape, the call raises the AssertionError of the weights exactly when
    some entry of [weight] fails [weight > 0] (a zero, a negative number,
    a NaN); nothing else is looked at before. *)
Theorem weight_not_positive_rejected (ra dec : list F) (q w : list (list F)) (nside : Z)
    (mask : option (mask_array F)) (fill_UNSEEN return_extra : bool) :
  shape (Arr2 q) = shape (Arr2 w) →
  binner ra dec (Some (Arr2 q)) nside mask (Some (Arr2 w)) fill_UNSEEN return_extra
  = Raise (AssertionError msg_weight)
  ↔ ∃ v, v ∈ concat w ∧ gtb v zero = false.
Proof.
  intros Hshape. split.
  - intros Hr.
    destruct (forallb (fun v => gtb v zero) (concat w)) eqn:Hall.
    + exfalso.
      apply make_healpix_map_raises in Hr as [Hr | [(m & _ & _ & [=]) | []]].
      unfold prepare_quantity in Hr. cbn [atleast_2d elements] in Hr.
      rewrite (bool_decide_eq_true_2 (shape (Arr2 q) = shape (Arr2 w))) in Hr by done.
      rewrite Hall in Hr. cbn [assert mbind result_bind] in Hr.
      inv_result; discriminate.
    + by apply forallb_false_elem.
  - intros (v & Hv & Hneg). unfold make_healpix_map, prepare_quantity.
    cbn [atleast_2d].
    rewrite (bool_decide_eq_true_2 (shape (Arr2 q) = shape (Arr2 w))) by done.
    cbn [assert mbind result_bind elements].
    assert (forallb (fun v => gtb v zero) (concat w) = false) as ->; [| reflexivity].
    apply not_true_is_false. intros Hall. rewrite forallb_forall in Hall.
    apply list_elem_of_In in Hv. specialize (Hall v Hv). congruence.
Qed.

(** X4: when healpy hands back a pixel index outside [-npix, npix), a
    counting call with no mask, or with a mask of the right length,
    raises the IndexError of [np.add.at]. *)
Theorem out_of_grid_index_raises (ra dec : list F) (nside : Z)
    (mask : option (mask_array F)) (weight : option (ndarray F))
    (fill_UNSEEN return_extra : bool) (ipix : list Z) (i : Z) :
  pixels ang2pix nside ra dec = Ok ipix →
  i ∈ ipix →
  ¬ (- Z.of_nat (nside2npix nside) ≤ i < Z.of_nat (nside2npix nside)) →
  (∀ m, mask = Some m → mask_len m = nside2npix nside) →
  binner ra dec None nside mask weight fill_UNSEEN return_extra
  = Raise (IndexError "index out of bounds").
Proof.
  intros Hpix Hi Hout Hmask. unfold make_healpix_map.
  cbn [prepare_quantity mbind result_bind].
  assert (match mask with
          | Some m => assert (bool_decide (mask_len m = nside2npix nside)) msg_mask_len
          | None => Ok ()
          end = Ok ()) as ->.
  { destruct mask as [m|]; [| done]. by rewrite bool_decide_eq_true_2 by auto. }
  cbn [mbind result_bind]. rewrite Hpix. cbn [mbind result_bind].
  rewrite (add_at_out_of_range _ _ i one); [done | |].
  - by apply (list_elem_of_fmap_2 (fun i => (i, one))).
  - unfold zeros. by rewrite length_replicate.
Qed.

End BinnerErrors.

Lemma weight_not_positive_rejected_witness :
  make_healpix_map (F := B64.t) Toy.nside2npix Toy.ang2pix Toy.nside2pixarea
    [ [#0]; [#5] ] [ [#0]; [#10] ] (Some (Arr2 [ [ [#3]; [#5] ] ])) 1 None
    (Some (Arr2 [ [ [#1]; S754_nan ] ])) false false
  = Raise (AssertionError msg_weight).
Proof.
  apply weight_not_positive_rejected; [reflexivity |].
  exists S754_nan. split; [| reflexivity]. right. left.
Defined.

Lemma out_of_grid_index_raises_witness :
  make_healpix_map (F := B64.t) (fun _ => 12%nat) (fun _ _ _ => Some 12)
    (fun _ _ => zero) [ [#0] ] [ [#0] ] None 1 None None false false
  = Raise (IndexError "index out of bounds").
Proof.
  apply out_of_grid_index_raises with (ipix := [12]) (i := 12).
  - vm_compute. reflexivity.
  - left.
  - simpl. lia.
  - intros m [=].
Defined.

(** ** The maps returned in float64 *)

Section MapsFloat.
Variable nside2npix : Z → nat.
Variable ang2pix : Z → B64.t → B64.t → option Z.
Variable nside2pixarea : Z → bool → B64.t.

Local Abbreviation binner := (make_healpix_map nside2npix ang2pix nside2pixarea).

Lemma astype_bool_float (bm : list bool) :
  astype_bool (RealMask (astype_float bm : list B64.t)) = bm.
Proof.
  induction bm as [|[] bm IH]; simpl in *; [done | by rewrite IH ..].
Qed.

Lemma derived_mask_of_filled (count1 : list B64.t) (fill_UNSEEN : bool) :
  map (fun c => gtb c zero)
    (fill count1 (map negb (map (fun c => gtb c zero) count1))
       (if fill_UNSEEN then UNSEEN else zero))
  = map (fun c => gtb c zero) count1.
Proof.
  induction count1 as [|c count1 IH]; cbn [fill map]; [done |].
  rewrite IH. f_equal.
  destruct (gtb c zero) eqn:Hc; cbn [negb]; [done |]. by destruct fill_UNSEEN.
Qed.

(** What a successful call did, with the mask read off the mask that is
    returned and the counts written as a histogram. *)
Lemma make_healpix_map_Ok_hist ra dec quantity nside mask weight fill_UNSEEN return_extra
    outmaps count rmask ex (ipix : list Z) :
  binner ra dec quantity nside mask weight fill_UNSEEN return_extra
  = Ok (outmaps, count, rmask, ex) →
  pixels ang2pix nside ra dec = Ok ipix →
  Z.of_nat (length ipix) < 2 ^ 53 →
  let npix := nside2npix nside in
  let x : B64.t := if fill_UNSEEN then UNSEEN else zero in
  let bool_mask := astype_bool rmask in
  length bool_mask = npix
  ∧ sum_list (histogram npix ipix) = length ipix
  ∧ count = fill (map cnt (histogram npix ipix)) (map negb bool_mask) x
  ∧ (mask = None →
     bool_mask = map (fun h => bool_decide (0 < h)%nat) (histogram npix ipix))
  ∧ (∀ m, mask = Some m → rmask = m)
  ∧ (∃ qw, prepare_quantity ra dec quantity weight = Ok qw
           ∧ quantity_maps npix ipix bool_mask x qw = Ok outmaps)
  ∧ if return_extra
    then ∃ e, make_extra nside2pixarea nside ipix count bool_mask = Ok e ∧ ex = Some e
    else ex = None.
Proof.
  intros Hr Hpix Hsize. cbv zeta.
  apply make_healpix_map_Ok_full in Hr
    as (qw & ipix' & count1 & Hqw & Hpix' & Hc1 & Hl1 & Hbm & -> & Hmaps & -> & Hex).
  rewrite Hpix in Hpix'. injection Hpix' as <-.
  pose proof (B64Count.b64_counts (length ipix) Hsize) as Hexact.
  apply (add_at_ones_histogram _ Hexact) in Hc1 as [-> Hsum]; [| done].
  assert (Hrm : astype_bool
                  match mask with
                  | Some m => m
                  | None => RealMask (astype_float
                              (bool_mask_of mask
                                 (map cnt (histogram (nside2npix nside) ipix))))
                  end
                = bool_mask_of mask (map cnt (histogram (nside2npix nside) ipix))).
  { destruct mask as [m|]; [done |]. by rewrite astype_bool_float. }
  rewrite Hrm. split_and!; try done.
  - intros ->. simpl. rewrite <- list_fmap_compose. apply map_ext_in.
    intros h Hh. simpl. destruct Hexact as [_ Hpos]. apply Hpos.
    apply list_elem_of_In in Hh.
    pose proof (sum_list_with_in h id _ Hh) as Hle. unfold id in Hle at 1. lia.
  - by intros m ->.
  - eauto.
Qed.

(** X5: in a catalog of fewer than 2^53 objects, the count of a pixel of
    the returned mask is the number of objects that landed in it; outside
    the mask the count is the fill value.  When the mask is derived, the
    pixels of the mask are those that hold an object. *)
Theorem count_map_is_histogram ra dec quantity nside mask weight fill_UNSEEN return_extra
    outmaps count rmask ex (ipix : list Z) (p : nat) (b : bool) :
  binner ra dec quantity nside mask weight fill_UNSEEN return_extra
  = Ok (outmaps, count, rmask, ex) →
  pixels ang2pix nside ra dec = Ok ipix →
  Z.of_nat (length ipix) < 2 ^ 53 →
  astype_bool rmask !! p = Some b →
  count !! p = Some (if b then cnt (hits (nside2npix nside) ipix p)
                     else if fill_UNSEEN then UNSEEN else zero)
  ∧ (mask = None → b = bool_decide (0 < hits (nside2npix nside) ipix p)%nat).
Proof.
  intros Hr Hpix Hsize Hp.
  destruct (make_healpix_map_Ok_hist _ _ _ _ _ _ _ _ _ _ _ _ _ Hr Hpix Hsize)
    as (Hbm & _ & -> & Hnone & _).
  assert (Hlt : (p < nside2npix nside)%nat).
  { rewrite <- Hbm. by eapply lookup_lt_Some. }
  split.
  - destruct b.
    + rewrite fill_lookup_false by by rewrite list_lookup_fmap, Hp.
      by rewrite list_lookup_fmap, histogram_lookup.
    + apply fill_lookup_filled.
      * by rewrite length_map, length_histogram.
      * by rewrite list_lookup_fmap, Hp.
  - intros Hm. rewrite (Hnone Hm), list_lookup_fmap, histogram_lookup in Hp by done.
    by injection Hp as <-.
Qed.

(** X6: the count map and the mask do not depend on the order of the
    objects in the catalog, nor on the quantity and the weights. *)
Theorem count_map_order_independent ra dec quantity weight ra' dec' quantity' weight'
    nside mask fill_UNSEEN return_extra return_extra'
    outmaps count rmask ex outmaps' count' rmask' ex' (ipix ipix' : list Z) :
  binner ra dec quantity nside mask weight fill_UNSEEN return_extra
  = Ok (outmaps, count, rmask, ex) →
  binner ra' dec' quantity' nside mask weight' fill_UNSEEN return_extra'
  = Ok (outmaps', count', rmask', ex') →
  pixels ang2pix nside ra dec = Ok ipix →
  pixels ang2pix nside ra' dec' = Ok ipix' →
  ipix ≡ₚ ipix' →
  Z.of_nat (length ipix) < 2 ^ 53 →
  count = count' ∧ rmask = rmask'.
Proof.
  intros Hr Hr' Hpix Hpix' Hperm Hsize.
  apply make_healpix_map_Ok_full in Hr
    as (qw & i1 & count1 & _ & Hp1 & Hc1 & _ & _ & -> & _ & -> & _).
  apply make_healpix_map_Ok_full in Hr'
    as (qw' & i2 & count2 & _ & Hp2 & Hc2 & _ & _ & -> & _ & -> & _).
  rewrite Hpix in Hp1. injection Hp1 as <-.
  rewrite Hpix' in Hp2. injection Hp2 as <-.
  pose proof (B64Count.b64_counts (length ipix) Hsize) as Hexact.
  apply (add_at_ones_histogram _ Hexact) in Hc1 as [-> _]; [| done].
  apply (add_at_ones_histogram _ Hexact) in Hc2 as [-> _]; [| by rewrite <- Hperm].
  by rewrite <- (histogram_Permutation _ _ _ Hperm).
Qed.

(** X7: outside the mask that comes back, the count map and every
    quantity map hold the fill value: 0, or [hp.UNSEEN] with
    [fill_UNSEEN]. *)
Theorem unmasked_pixels_filled ra dec quantity nside mask weight fill_UNSEEN return_extra
    outmaps count rmask ex (p : nat) :
  binner ra dec quantity nside mask weight fill_UNSEEN return_extra
  = Ok (outmaps, count, rmask, ex) →
  astype_bool rmask !! p = Some false →
  count !! p = Some (if fill_UNSEEN then UNSEEN else zero)
  ∧ Forall (fun outmap : list B64.t =>
              outmap !! p = Some (if fill_UNSEEN then UNSEEN else zero)) outmaps.
Proof.
  intros Hr Hp. apply make_healpix_map_Ok_full in Hr
    as (qw & ipix & count1 & _ & _ & _ & Hl1 & Hbm & -> & Hmaps & -> & _).
  assert (Hp' : bool_mask_of mask count1 !! p = Some false).
  { destruct mask as [m|]; [done |]. by rewrite astype_bool_float in Hp. }
  split.
  - apply fill_lookup_filled.
    + rewrite Hl1, <- Hbm. by eapply lookup_lt_Some.
    + by rewrite list_lookup_fmap, Hp'.
  - unfold quantity_maps in Hmaps. destruct qw as [[q w]|]; [| by injection Hmaps as <-].
    apply Forall_lookup. intros k outmap Hk.
    destruct (mapM_Ok_lookup _ _ _ _ _ Hmaps Hk) as (i & _ & Hi).
    apply bind_Ok_inv in Hi as (qk & _ & Hi).
    apply bind_Ok_inv in Hi as (wk & _ & Hi).
    by eapply weighted_mean_map_unmasked.
Qed.

(** X8: the mask that comes back is the caller's own, untouched, or
    else the map that is 1.0 where the returned count map is positive and
    0.0 elsewhere. *)
Theorem returned_mask_value ra dec quantity nside mask weight fill_UNSEEN return_extra
    outmaps count rmask ex :
  binner ra dec quantity nside mask weight fill_UNSEEN return_extra
  = Ok (outmaps, count, rmask, ex) →
  rmask = match mask with
          | Some m => m
          | None => RealMask (astype_float (map (fun c => gtb c zero) count))
          end.
Proof.
  intros Hr. apply make_healpix_map_Ok_full in Hr
    as (qw & ipix & count1 & _ & _ & _ & _ & _ & -> & _ & -> & _).
  destruct mask as [m|]; [done |]. simpl.
  by rewrite derived_mask_of_filled.
Qed.

(** X9: with a quantity, row [k] of [quantity] gives map [k]; when the
    row and its weights have one entry per object, the map holds at each
    pixel of the mask the sum of [quantity * weight] over the objects of
    the pixel divided by the sum of their weights (each sum taken from 0
    in catalog order).  Without [weight] the weights are all 1. *)
Theorem quantity_map_weighted_mean ra dec q nside mask weight fill_UNSEEN return_extra
    outmaps count rmask ex (ipix : list Z) (k p : nat) (qk wk : list B64.t) :
  binner ra dec (Some q) nside mask weight fill_UNSEEN return_extra
  = Ok (outmaps, count, rmask, ex) →
  pixels ang2pix nside ra dec = Ok ipix →
  atleast_2d q !! k = Some qk →
  match weight with
  | Some w => atleast_2d w
  | None => ones_like (atleast_2d q)
  end !! k = Some wk →
  length qk = length ipix →
  length wk = length ipix →
  astype_bool rmask !! p = Some true →
  ∃ outmap,
    outmaps !! k = Some outmap
    ∧ outmap !! p
      = Some (div (accumulated (values_at (nside2npix nside) p
                             (zip ipix (zip_with mul qk wk))))
                  (accumulated (values_at (nside2npix nside) p (zip ipix wk)))).
Proof.
  intros Hr Hpix Hqk Hwk Hlq Hlw Hp.
  apply make_healpix_map_Ok_full in Hr
    as (qw & ipix' & count1 & Hqw & Hpix' & _ & _ & _ & _ & Hmaps & -> & _).
  rewrite Hpix in Hpix'. injection Hpix' as <-.
  assert (Hp' : bool_mask_of mask count1 !! p = Some true).
  { destruct mask as [m|]; [done |]. by rewrite astype_bool_float in Hp. }
  apply prepare_quantity_rows in Hqw as ->. cbn [quantity_maps] in Hmaps.
  assert (Hk : seq 0 (length (atleast_2d q)) !! k = Some k).
  { apply lookup_seq. split; [done |]. by eapply lookup_lt_Some. }
  destruct (mapM_Ok_lookup_fwd _ _ _ _ _ Hmaps Hk) as (outmap & Hout & Hf).
  unfold row in Hf. rewrite Hqk, Hwk in Hf. cbn [mbind result_bind] in Hf.
  exists outmap. split; [done |].
  by eapply weighted_mean_map_lookup.
Qed.

(** X10: with [return_extra], [count_tot_in_mask] is the number of
    objects of the catalog (fewer than 2^53), whatever the fill value,
    when the mask is derived or no object lands outside the supplied
    mask. *)
Theorem extra_count_total ra dec quantity nside mask weight fill_UNSEEN
    outmaps count rmask e (ipix : list Z) :
  binner ra dec quantity nside mask weight fill_UNSEEN true
  = Ok (outmaps, count, rmask, Some e) →
  pixels ang2pix nside ra dec = Ok ipix →
  Z.of_nat (length ipix) < 2 ^ 53 →
  (∀ m p, mask = Some m → astype_bool m !! p = Some false →
          hits (nside2npix nside) ipix p = 0%nat) →
  count_tot_in_mask e = cnt (length ipix).
Proof.
  intros Hr Hpix Hsize Hcov.
  destruct (make_healpix_map_Ok_hist _ _ _ _ _ _ _ _ _ _ _ _ _ Hr Hpix Hsize)
    as (Hbm & Hsum & -> & Hnone & Hsome & _ & (e' & He & [= <-])).
  apply make_extra_Ok_inv in He as [-> _].
  rewrite select_fill_negb.
  pose proof (B64Count.b64_counts (length ipix) Hsize) as Hexact.
  rewrite (np_sum_counts_select _ Hexact); [by rewrite Hsum | | | lia].
  - by rewrite length_histogram.
  - intros p Hp.
    assert (Hlt : (p < nside2npix nside)%nat).
    { rewrite <- Hbm. by eapply lookup_lt_Some. }
    rewrite histogram_lookup by done. f_equal.
    destruct mask as [m|].
    + rewrite (Hsome m eq_refl) in Hp. by eapply Hcov.
    + rewrite (Hnone eq_refl), list_lookup_fmap, histogram_lookup in Hp by done.
      injection Hp as Hp. apply bool_decide_eq_false_1 in Hp. lia.
Qed.

(** X11: with [return_extra] and a derived mask, every entry of
    [ipix_masked] carries the flag True: the pixel of each object of the
    catalog holds at least that object, so [bool_mask[ipix]] is True
    throughout. *)
Theorem extra_ipix_masked_derived ra dec quantity nside weight fill_UNSEEN
    outmaps count rmask e (ipix : list Z) :
  binner ra dec quantity nside None weight fill_UNSEEN true
  = Ok (outmaps, count, rmask, Some e) →
  pixels ang2pix nside ra dec = Ok ipix →
  Z.of_nat (length ipix) < 2 ^ 53 →
  ipix_masked e = map (fun i => (i, true)) ipix.
Proof.
  intros Hr Hpix Hsize.
  destruct (make_healpix_map_Ok_hist _ _ _ _ _ _ _ _ _ _ _ _ _ Hr Hpix Hsize)
    as (Hbm & _ & _ & Hnone & _ & _ & (e' & He & [= <-])).
  apply make_extra_Ok_inv in He as [_ Hflags].
  apply (mapM_Ok_map _ _ _ _ Hflags). intros i b Hi Hb.
  apply bind_Ok_inv in Hb as (k & Hk & [= <-]). f_equal.
  rewrite Hbm in Hk. pose proof (norm_index_lt _ _ _ Hk) as Hlt.
  rewrite (Hnone eq_refl), list_lookup_fmap, histogram_lookup by done.
  simpl. apply bool_decide_eq_true_2. apply (hits_pos _ _ _ i); [done |].
  rewrite (norm_index_lands _ k _ _ Hk). by apply bool_decide_eq_true_2.
Qed.
End MapsFloat.

Lemma count_map_is_histogram_witness :
  ∃ count rmask,
    make_healpix_map (F := B64.t) Toy.nside2npix Toy.ang2pix Toy.nside2pixarea
      [ [#0]; [#5]; [#7] ] [ [#0]; [#10]; [#20] ] None 1 None None false false
    = Ok ([], count, rmask, None)
    ∧ count !! 0%nat = Some [#2].
Proof.
  eassert (Hr : make_healpix_map (F := B64.t) Toy.nside2npix Toy.ang2pix Toy.nside2pixarea
      [ [#0]; [#5]; [#7] ] [ [#0]; [#10]; [#20] ] None 1 None None false false
    = Ok (_, _, _, _)) by (vm_compute; reflexivity).
  pose proof Hr as H1.
  eapply count_map_is_histogram with (ipix := [11; 0; 0]) (p := 0%nat) (b := true)
    in H1 as [H1 _];
    [| vm_compute; reflexivity | by vm_compute | reflexivity].
  eexists _, _. split; [exact Hr | exact H1].
Defined.

Lemma count_map_order_independent_witness :
  ∃ count rmask count' rmask',
    make_healpix_map (F := B64.t) Toy.nside2npix Toy.ang2pix Toy.nside2pixarea
      [ [#0]; [#5] ] [ [#0]; [#10] ] None 1 None None false false
    = Ok ([], count, rmask, None)
    ∧ make_healpix_map (F := B64.t) Toy.nside2npix Toy.ang2pix Toy.nside2pixarea
        [ [#5]; [#0] ] [ [#10]; [#0] ] None 1 None None false false
      = Ok ([], count', rmask', None)
    ∧ count = count' ∧ rmask = rmask'.
Proof.
  eassert (Hr : make_healpix_map (F := B64.t) Toy.nside2npix Toy.ang2pix Toy.nside2pixarea
      [ [#0]; [#5] ] [ [#0]; [#10] ] None 1 None None false false
    = Ok (_, _, _, _)) by (vm_compute; reflexivity).
  eassert (Hr' : make_healpix_map (F := B64.t) Toy.nside2npix Toy.ang2pix Toy.nside2pixarea
      [ [#5]; [#0] ] [ [#10]; [#0] ] None 1 None None false false
    = Ok (_, _, _, _)) by (vm_compute; reflexivity).
  eexists _, _, _, _. split; [exact Hr |]. split; [exact Hr' |].
  eapply (count_map_order_independent _ _ _ _ _ _ _ _ _ _ _ _ _ _ _ _ _ _ _ _ _ _ _ _
            [11; 0] [0; 11] Hr Hr').
  - vm_compute. reflexivity.
  - vm_compute. reflexivity.
  - apply perm_swap.
  - by vm_compute.
Defined.

Lemma unmasked_pixels_filled_witness :
  ∃ count rmask,
    make_healpix_map (F := B64.t) Toy.nside2npix Toy.ang2pix Toy.nside2pixarea
      [ [#0]; [#5]; [#7] ] [ [#0]; [#10]; [#20] ] None 1 None None true false
    = Ok ([], count, rmask, None)
    ∧ count !! 5%nat = Some UNSEEN.
Proof.
  eassert (Hr : make_healpix_map (F := B64.t) Toy.nside2npix Toy.ang2pix Toy.nside2pixarea
      [ [#0]; [#5]; [#7] ] [ [#0]; [#10]; [#20] ] None 1 None None true false
    = Ok (_, _, _, _)) by (vm_compute; reflexivity).
  pose proof Hr as H1.
  eapply unmasked_pixels_filled with (p := 5%nat) in H1 as [H1 _]; [| reflexivity].
  eexists _, _. split; [exact Hr | exact H1].
Defined.

Lemma returned_mask_value_witness :
  ∃ count rmask,
    make_healpix_map (F := B64.t) Toy.nside2npix Toy.ang2pix Toy.nside2pixarea
      [ [#0]; [#5]; [#7] ] [ [#0]; [#10]; [#20] ] None 1 None None true false
    = Ok ([], count, rmask, None)
    ∧ rmask = RealMask (astype_float (map (fun c => gtb c zero) count)).
Proof.
  eassert (Hr : make_healpix_map (F := B64.t) Toy.nside2npix Toy.ang2pix Toy.nside2pixarea
      [ [#0]; [#5]; [#7] ] [ [#0]; [#10]; [#20] ] None 1 None None true false
    = Ok (_, _, _, _)) by (vm_compute; reflexivity).
  pose proof Hr as H1. eapply returned_mask_value in H1.
  eexists _, _. split; [exact Hr | exact H1].
Defined.

Lemma quantity_map_weighted_mean_witness :
  ∃ outmap count rmask,
    make_healpix_map (F := B64.t) Toy.nside2npix Toy.ang2pix Toy.nside2pixarea
      [ [#10]; [#10] ] [ [#10]; [#20] ] (Some (Arr1 [ [#3]; [#5] ])) 1 None None false false
    = Ok ([outmap], count, rmask, None)
    ∧ outmap !! 0%nat = Some [#4].
Proof.
  eassert (Hr : make_healpix_map (F := B64.t) Toy.nside2npix Toy.ang2pix Toy.nside2pixarea
      [ [#10]; [#10] ] [ [#10]; [#20] ] (Some (Arr1 [ [#3]; [#5] ])) 1 None None false false
    = Ok (_, _, _, _)) by (vm_compute; reflexivity).
  pose proof Hr as H1.
  eapply quantity_map_weighted_mean
    with (ipix := [0; 0]) (k := 0%nat) (p := 0%nat)
         (qk := [ [#3]; [#5] ]) (wk := [ [#1]; [#1] ])
    in H1 as (outmap & Hk & Hp);
    [| vm_compute; reflexivity | reflexivity ..].
  injection Hk as <-.
  eexists _, _, _. split; [exact Hr |].
  etransitivity; [exact Hp | vm_compute; reflexivity].
Defined.

Lemma extra_count_total_witness :
  ∃ count rmask e,
    make_healpix_map (F := B64.t) Toy.nside2npix Toy.ang2pix Toy.nside2pixarea
      [ [#0]; [#5]; [#7] ] [ [#0]; [#10]; [#20] ] None 1 None None true true
    = Ok ([], count, rmask, Some e)
    ∧ count_tot_in_mask e = [#3].
Proof.
  eassert (Hr : make_healpix_map (F := B64.t) Toy.nside2npix Toy.ang2pix Toy.nside2pixarea
      [ [#0]; [#5]; [#7] ] [ [#0]; [#10]; [#20] ] None 1 None None true true
    = Ok (_, _, _, Some _)) by (vm_compute; reflexivity).
  pose proof Hr as H1.
  eapply extra_count_total with (ipix := [11; 0; 0]) in H1;
    [| vm_compute; reflexivity | by vm_compute | intros m p [=]].
  eexists _, _, _. split; [exact Hr | exact H1].
Defined.

Lemma extra_ipix_masked_derived_witness :
  ∃ count rmask e,
    make_healpix_map (F := B64.t) Toy.nside2npix Toy.ang2pix Toy.nside2pixarea
      [ [#0]; [#5]; [#7] ] [ [#0]; [#10]; [#20] ] None 1 None None false true
    = Ok ([], count, rmask, Some e)
    ∧ ipix_masked e = [(11, true); (0, true); (0, true)].
Proof.
  eassert (Hr : make_healpix_map (F := B64.t) Toy.nside2npix Toy.ang2pix Toy.nside2pixarea
      [ [#0]; [#5]; [#7] ] [ [#0]; [#10]; [#20] ] None 1 None None false true
    = Ok (_, _, _, Some _)) by (vm_compute; reflexivity).
  pose proof Hr as H1.
  eapply extra_ipix_masked_derived with (ipix := [11; 0; 0]) in H1;
    [| vm_compute; reflexivity | by vm_compute].
  eexists _, _, _. split; [exact Hr | exact H1].
Defined.

(** * Further properties of the converter *)

Section ConverterFacts.
Context {F : Type} `{Arith F}.

Lemma count2density_Ok_lengths (count : list F) mask_frac mask density :
  count2density count mask_frac mask = Ok density →
  length (effective_frac count mask_frac) = length count
  ∧ length (effective_mask count mask) = length count.
Proof.
  unfold count2density, effective_frac, effective_mask. intros Hr.
  apply bind_Ok_inv in Hr as (frac_in & Hf & Hr).
  apply bind_Ok_inv in Hr as (count_in & Hc & Hr).
  apply getitem_mask_Ok_inv in Hf as [Hf _].
  apply getitem_mask_Ok_inv in Hc as [Hc _].
  split; congruence.
Qed.

Lemma getitem_mask_eq {A} (a : list A) (msk : list bool) :
  length msk = length a → getitem_mask a msk = Ok (select a msk).
Proof. intros Hl. unfold getitem_mask. by rewrite decide_True. Qed.

Lemma getitem_mask_ne {A} (a : list A) (msk : list bool) :
  length msk ≠ length a →
  getitem_mask a msk = Raise (IndexError "boolean index did not match indexed array").
Proof. intros Hl. unfold getitem_mask. by rewrite decide_False. Qed.

Lemma masked2_all_false f z (a b : list F) (n : nat) :
  length a = n → length b = n →
  masked2 f z (replicate n false) a b = replicate n z.
Proof.
  revert a b. induction n as [|n IH]; intros [|x a] [|y b]; simpl; try done.
  intros [=] [=]. f_equal. by apply IH.
Qed.

Lemma select_masked2 f z (msk : list bool) (a b : list F) :
  select (masked2 f z msk a b) msk = zip_with f (select a msk) (select b msk).
Proof.
  revert a b. induction msk as [|m msk IH]; intros [|x a] [|y b]; simpl; try done.
  - by destruct m, (select a msk).
  - destruct m; simpl; by rewrite IH.
Qed.

Lemma select_map {A B} (g : A → B) (a : list A) (msk : list bool) :
  select (map g a) msk = map g (select a msk).
Proof.
  revert msk. induction a as [|x a IH]; intros [|m msk]; simpl; try done.
  destruct m; simpl; by rewrite IH.
Qed.

Lemma select_all {A} (a : list A) : select a (replicate (length a) true) = a.
Proof. induction a as [|x a IH]; simpl; [done | by rewrite IH]. Qed.

Lemma fill_none {A} (a : list A) (x : A) :
  fill a (map negb (replicate (length a) true)) x = a.
Proof. induction a as [|y a IH]; simpl; [done | by rewrite IH]. Qed.

(** X12: [count2density] returns exactly when the completeness map and
    the mask (given or defaulted) both have the length of the count map,
    and then with a density map of that length; otherwise it raises the
    IndexError of the boolean indexing. *)
Theorem count2density_returns_iff (count : list F) (mask_frac : option (list F))
    (mask : option (mask_array F)) :
  let frac := effective_frac count mask_frac in
  let msk := effective_mask count mask in
  (length frac = length count ∧ length msk = length count →
   ∃ density,
     count2density count mask_frac mask = Ok density ∧ length density = length count)
  ∧ (¬ (length frac = length count ∧ length msk = length count) →
     ∃ msg, count2density count mask_frac mask = Raise (IndexError msg)).
Proof.
  cbv zeta. split.
  - intros [Hf Hm]. eexists. split; [by apply count2density_pointwise |].
    unfold density_spec. rewrite masked2_length; congruence.
  - intros Hne. unfold count2density.
    fold (effective_frac count mask_frac). fold (effective_mask count mask).
    destruct (decide (length (effective_mask count mask)
                      = length (effective_frac count mask_frac))) as [Hfm | Hfm].
    2: { rewrite (getitem_mask_ne (effective_frac count mask_frac)) by done. eauto. }
    rewrite (getitem_mask_eq (effective_frac count mask_frac)) by done.
    cbn [mbind result_bind].
    rewrite (getitem_mask_ne count); [eauto |]. intros Hm. apply Hne. split; congruence.
Qed.

(** X13: the density a call returns is, at each pixel of the mask,
    [count / (frac * total / norm) - 1], with [total] and [norm] the sums
    of the counts and of the completeness over the mask, and 0 at each
    pixel off the mask. *)
Theorem count2density_lookup (count : list F) (mask_frac : option (list F))
    (mask : option (mask_array F)) (density : list F) (p : nat) (m : bool) (c f : F) :
  let frac := effective_frac count mask_frac in
  let msk := effective_mask count mask in
  count2density count mask_frac mask = Ok density →
  msk !! p = Some m →
  count !! p = Some c →
  frac !! p = Some f →
  density !! p
  = Some (if m
          then sub (div c (div (mul f (np_sum (select count msk)))
                               (np_sum (select frac msk)))) one
          else zero).
Proof.
  cbv zeta. intros Hr Hm Hc Hf.
  destruct (count2density_Ok_lengths _ _ _ _ Hr) as [Hlf Hlm].
  rewrite count2density_pointwise in Hr by done. injection Hr as <-.
  unfold density_spec. exact (masked2_lookup _ _ _ _ _ _ _ _ _ Hm Hc Hf).
Qed.

(** X14: with a mask that selects no pixel the division is never
    carried out: the density is 0 everywhere, whatever the counts. *)
Theorem count2density_empty_mask (count : list F) (mask_frac : option (list F))
    (m : mask_array F) :
  length (effective_frac count mask_frac) = length count →
  astype_bool m = replicate (length count) false →
  count2density count mask_frac (Some m) = Ok (zeros (length count)).
Proof.
  intros Hf Hm.
  assert (Hmsk : effective_mask count (Some m) = replicate (length count) false)
    by exact Hm.
  rewrite count2density_pointwise by (done || by rewrite Hmsk, length_replicate).
  f_equal. unfold density_spec. rewrite Hmsk. by apply masked2_all_false.
Qed.
End ConverterFacts.


Lemma count2density_returns_iff_witness :
  ∃ density,
    count2density (F := B64.t) [ [#10]; [#0]; [#5]; [#0] ] None
      (Some (BoolMask [true; false; true; false])) = Ok density
    ∧ length density = 4%nat.
Proof.
  destruct (count2density_returns_iff (F := B64.t) [ [#10]; [#0]; [#5]; [#0] ] None
              (Some (BoolMask [true; false; true; false]))) as [Hok _].
  apply Hok. split; reflexivity.
Defined.

Lemma count2density_lookup_witness :
  ∃ density,
    count2density (F := B64.t) [ [#10]; [#0]; [#5]; [#0] ] None
      (Some (BoolMask [true; false; true; false])) = Ok density
    ∧ density !! 0%nat = Some (sub (div [#10] (div [#15] [#2])) [#1])
    ∧ density !! 1%nat = Some [#0].
Proof.
  eassert (Hr : count2density (F := B64.t) [ [#10]; [#0]; [#5]; [#0] ] None
      (Some (BoolMask [true; false; true; false])) = Ok _) by (vm_compute; reflexivity).
  eexists. split; [exact Hr |]. split.
  - etransitivity;
      [exact (count2density_lookup _ _ _ _ 0%nat true [#10] [#1] Hr eq_refl eq_refl eq_refl)
      | vm_compute; reflexivity].
  - exact (count2density_lookup _ _ _ _ 1%nat false [#0] [#1] Hr eq_refl eq_refl eq_refl).
Defined.

Lemma count2density_empty_mask_witness :
  count2density (F := B64.t) [ [#1]; [#2] ] None (Some (BoolMask [false; false]))
  = Ok [ [#0]; [#0] ].
Proof.
  apply (count2density_empty_mask (F := B64.t) [ [#1]; [#2] ]); reflexivity.
Defined.


(** * From one function to the next *)

Section Pipeline.
Context {F : Type} `{IEEE F}.
Variable nside2npix : Z → nat.
Variable ang2pix : Z → F → F → option Z.
Variable nside2pixarea : Z → bool → F.
Variable npix2nside : nat → option Z.
Variable rng : Type.
Variable poisson : rng → list F → option (list Z * rng).

Local Abbreviation binner := (make_healpix_map nside2npix ang2pix nside2pixarea).
Local Abbreviation sampler := (density2count npix2nside nside2pixarea rng poisson).

(** X18: the count map and the mask that [make_healpix_map] returns can
    be handed to [count2density] as they are: the call returns a density
    with one entry per pixel.  The mask derived by [make_healpix_map] is
    an array of floats, though, and [density2count] refuses it as an
    index: the call raises IndexError, having printed nothing. *)
Theorem binner_output_downstream ra dec quantity nside mask weight fill_UNSEEN
    return_extra outmaps count rmask ex :
  binner ra dec quantity nside mask weight fill_UNSEEN return_extra
  = Ok (outmaps, count, rmask, ex) →
  (∃ density,
     count2density count None (Some rmask) = Ok density
     ∧ length density = nside2npix nside)
  ∧ (mask = None →
     ∀ state densitymap nbar completeness pixel,
       ∃ msg, sampler state densitymap nbar (Some rmask) completeness pixel
              = ([], Raise (IndexError msg))).
Proof.
  intros Hr. apply make_healpix_map_Ok_full in Hr
    as (qw & ipix & count1 & _ & _ & _ & Hl1 & Hbm & -> & _ & -> & _).
  assert (Hc : length (fill count1 (map negb (bool_mask_of mask count1))
                         (if fill_UNSEEN then UNSEEN else zero))
               = nside2npix nside) by by rewrite length_fill.
  assert (Hm : length (astype_bool
                         match mask with
                         | Some m => m
                         | None => RealMask (astype_float (bool_mask_of mask count1))
                         end) = nside2npix nside).
  { destruct mask as [m|]; [done |]. cbn [astype_bool]. unfold astype_float.
    by rewrite !length_map in *. }
  split.
  - eexists. split.
    + apply count2density_pointwise.
      * unfold effective_frac, ones. simpl. by rewrite length_replicate.
      * unfold effective_mask. cbn [default]. by rewrite Hc.
    + unfold density_spec. rewrite masked2_length.
      * done.
      * unfold effective_mask. cbn [default]. by rewrite Hc.
      * unfold effective_frac, effective_mask, ones. cbn [default].
        by rewrite length_replicate, Hc.
  - intros -> state densitymap nbar completeness pixel.
    unfold density2count. cbn [default index_by_mask]. eauto.
Qed.

(** X19: with no mask and no completeness, and [nbar] given per pixel,
    every pixel is sampled: the rate of a pixel is
    [nbar * clip(1 + density, 0, inf) * 1.0], the warning is printed when
    any pixel is below -1, and the outcome is that of the Poisson draw. *)
Theorem density2count_defaults (state : rng) (densitymap : list F) (nbar : F) :
  sampler state densitymap nbar None None true
  = (if existsb (fun d => ltb d (lit (-1) 0)) densitymap then [msg_clip] else [],
     or_raise (poisson state
                 (map (fun d => mul (mul nbar (relative_density d)) one) densitymap))
              (ValueError "lam < 0 or lam is NaN")).
Proof.
  unfold density2count. cbn [default index_by_mask mask_astype_float].
  rewrite getitem_mask_eq by by rewrite length_replicate.
  rewrite select_all. f_equal.
  cbn [mbind result_bind]. unfold sampling_rate. cbn [astype_bool].
  unfold setitem_mask.
  rewrite decide_True by by rewrite !length_map, length_replicate.
  cbn [mbind result_bind].
  rewrite <- (length_map relative_density densitymap) at 1.
  rewrite fill_none.
  rewrite broadcast2_same.
  2: { unfold astype_float. by rewrite !length_map, length_replicate. }
  cbn [mbind result_bind]. do 2 f_equal.
  unfold astype_float. rewrite fmap_replicate.
  clear. induction densitymap as [|d l IH]; simpl; [done |]. by rewrite IH.
Qed.
End Pipeline.

Lemma binner_output_downstream_witness :
  ∃ count rmask density,
    make_healpix_map (F := B64.t) Toy.nside2npix Toy.ang2pix Toy.nside2pixarea
      [ [#0]; [#5]; [#7] ] [ [#0]; [#10]; [#20] ] None 1 None None false false
    = Ok ([], count, rmask, None)
    ∧ count2density count None (Some rmask) = Ok density
    ∧ length density = 12%nat
    ∧ ∃ msg,
        density2count (fun _ => None) Toy.nside2pixarea unit (fun _ _ => None)
          tt density [#1] (Some rmask) None true
        = ([], Raise (IndexError msg)).
Proof.
  eassert (Hr : make_healpix_map (F := B64.t) Toy.nside2npix Toy.ang2pix Toy.nside2pixarea
      [ [#0]; [#5]; [#7] ] [ [#0]; [#10]; [#20] ] None 1 None None false false
    = Ok (_, _, _, _)) by (vm_compute; reflexivity).
  destruct (binner_output_downstream Toy.nside2npix Toy.ang2pix Toy.nside2pixarea
              (fun _ => None) unit (fun _ _ => None) _ _ _ _ _ _ _ _ _ _ _ _ Hr)
    as [(density & Hd & Hl) Hraise].
  eexists _, _, density. split_and!; [exact Hr | exact Hd | exact Hl |].
  apply Hraise. reflexivity.
Defined.

(** ** Asking for the extra statistics *)

Section ReturnExtra.
Context {F : Type} `{Arith F}.
Variable nside2npix : Z → nat.
Variable ang2pix : Z → F → F → option Z.
Variable nside2pixarea : Z → bool → F.

Local Abbreviation binner := (make_healpix_map nside2npix ang2pix nside2pixarea).

Lemma add_at_Ok_indices (a a' : list F) (iv : list (Z * F)) :
  add_at a iv = Ok a' →
  Forall (fun x : Z * F => ∃ k, norm_index (length a) x.1 = Ok k) iv.
Proof.
  revert a. induction iv as [|[i v] iv IH]; intros a Ha; [constructor |].
  cbn [add_at] in Ha. apply bind_Ok_inv in Ha as (k & Hk & Ha).
  constructor; [eauto |].
  apply IH in Ha. by rewrite length_alter in Ha.
Qed.

(** Once the objects have been counted, the statistics can be computed. *)
Lemma make_extra_total nside (ipix : list Z) (count : list F) (bool_mask : list bool) :
  length bool_mask = length count →
  Forall (fun i => ∃ k, norm_index (length bool_mask) i = Ok k) ipix →
  ∃ e, make_extra nside2pixarea nside ipix count bool_mask = Ok e.
Proof.
  intros Hlen Hidx. unfold make_extra.
  rewrite getitem_mask_eq by done. cbn [mbind result_bind].
  destruct (mapM_total
              (fun i => k ← norm_index (length bool_mask) i;
                        Ok (i, default false (bool_mask !! k))) ipix)
    as [flags ->]; [| cbn [mbind result_bind]; eauto].
  eapply Forall_impl; [exact Hidx |]. intros i [k ->]. simpl. eauto.
Qed.

Lemma bind_ext_iff {A B C} (r : result A) (k1 k2 : A → result B) (X : C → B) (Y : B) :
  (∀ a, r = Ok a → ((∃ e, k1 a = Ok (X e)) ↔ k2 a = Ok Y)) →
  ((∃ e, (r ≫= k1) = Ok (X e)) ↔ (r ≫= k2) = Ok Y).
Proof.
  destruct r as [a|e0]; simpl; [auto |].
  intros _. split; [intros [? [=]] | intros [=]].
Qed.

(** X20: [return_extra] only adds the dictionary.  A call with
    [return_extra=True] returns exactly when the same call without it
    does, and with the same maps and the same mask: computing the
    statistics never fails. *)
Theorem return_extra_only_adds ra dec quantity nside mask weight fill_UNSEEN
    outmaps count rmask :
  (∃ e, make_healpix_map nside2npix ang2pix nside2pixarea
          ra dec quantity nside mask weight fill_UNSEEN true
        = Ok (outmaps, count, rmask, Some e))
  ↔ make_healpix_map nside2npix ang2pix nside2pixarea
      ra dec quantity nside mask weight fill_UNSEEN false
    = Ok (outmaps, count, rmask, None).
Proof.
  unfold make_healpix_map. cbv zeta.
  apply (bind_ext_iff _ _ _ (fun e => (outmaps, count, rmask, Some e))).
  intros qw _.
  apply (bind_ext_iff _ _ _ (fun e => (outmaps, count, rmask, Some e))).
  intros [] _.
  apply (bind_ext_iff _ _ _ (fun e => (outmaps, count, rmask, Some e))).
  intros ipix _.
  apply (bind_ext_iff _ _ _ (fun e => (outmaps, count, rmask, Some e))).
  intros count1 Hc1.
  apply (bind_ext_iff _ _ _ (fun e => (outmaps, count, rmask, Some e))).
  intros count2 Hc2.
  apply (bind_ext_iff _ _ _ (fun e => (outmaps, count, rmask, Some e))).
  intros [] _.
  apply (bind_ext_iff _ _ _ (fun e => (outmaps, count, rmask, Some e))).
  intros outmaps' _.
  split.
  - intros (e & He). apply bind_Ok_inv in He as (e' & _ & He).
    by injection He as -> -> -> _.
  - intros Heq. injection Heq as -> -> ->.
    apply setitem_mask_Ok_inv in Hc2 as [Hlen Hfill]. rewrite length_map in Hlen.
    destruct (make_extra_total nside ipix count (bool_mask_of mask count1)) as [e He].
    + by rewrite Hfill, length_fill.
    + apply add_at_length in Hc1 as Hl1.
      apply add_at_Ok_indices in Hc1. rewrite Forall_fmap in Hc1.
      rewrite Hlen, Hl1.
      eapply Forall_impl; [exact Hc1 |]. by intros i [k Hk]; exists k.
    + exists e. by rewrite He.
Qed.
End ReturnExtra.

Lemma return_extra_only_adds_witness :
  ∃ count rmask,
    make_healpix_map (F := B64.t) Toy.nside2npix Toy.ang2pix Toy.nside2pixarea
      [ [#0]; [#5]; [#7] ] [ [#0]; [#10]; [#20] ] None 1 None None false false
    = Ok ([], count, rmask, None).
Proof.
  eassert (Hr : make_healpix_map (F := B64.t) Toy.nside2npix Toy.ang2pix Toy.nside2pixarea
      [ [#0]; [#5]; [#7] ] [ [#0]; [#10]; [#20] ] None 1 None None false true
    = Ok (_, _, _, Some _)) by (vm_compute; reflexivity).
  eexists _, _. apply return_extra_only_adds. eexists. exact Hr.
Defined.

(** ** The rates [density2count] hands to the random source *)

Section SamplerRates.
Context {F : Type} `{IEEE F}.
Variable npix2nside : nat → option Z.
Variable nside2pixarea : Z → bool → F.
Variable rng : Type.
Variable poisson : rng → list F → option (list Z * rng).

Lemma sampling_rate_Ok (densitymap : list F) nbarpix (mask : mask_array F) completeness :
  length (astype_bool mask) = length densitymap →
  length completeness = length densitymap →
  ∃ lamb, sampling_rate densitymap nbarpix mask completeness = Ok lamb
          ∧ length lamb = length densitymap.
Proof.
  intros Hm Hc. unfold sampling_rate, setitem_mask.
  rewrite decide_True by by rewrite !length_map.
  cbn [mbind result_bind].
  rewrite broadcast2_same by by rewrite length_map, length_fill, length_map.
  cbn [mbind result_bind]. eexists. split; [reflexivity |].
  rewrite length_map, length_zip, length_map, length_fill, length_map. lia.
Qed.

(** A call with a boolean mask (or none) and a completeness (or none) of
    the length of the map prints the warning when a density of the mask
    is below -1, and draws at the rates of [sampling_rate]. *)
Lemma density2count_rates (state : rng) (densitymap : list F) (nbar nbarpix : F)
    (bmask : option (list bool)) (completeness : option (list F)) (pixel : bool) :
  let b := default (replicate (length densitymap) true) bmask in
  let comp := default (astype_float b) completeness in
  length b = length densitymap →
  length comp = length densitymap →
  mean_per_pixel npix2nside nside2pixarea (length densitymap) nbar pixel = Some nbarpix →
  ∃ lamb,
    density2count npix2nside nside2pixarea rng poisson state densitymap nbar
      (BoolMask <$> bmask) completeness pixel
    = (if existsb (fun d => ltb d (lit (-1) 0)) (select densitymap b)
       then [msg_clip] else [],
       or_raise (poisson state lamb) (ValueError "lam < 0 or lam is NaN"))
    ∧ sampling_rate densitymap nbarpix (BoolMask b) comp = Ok lamb
    ∧ length lamb = length densitymap.
Proof.
  intros b comp Hb Hc Hn.
  destruct (sampling_rate_Ok densitymap nbarpix (BoolMask b) comp Hb Hc)
    as (lamb & Hl & Hlen).
  exists lamb. split_and!; [| done | done].
  unfold density2count.
  assert (Hmask : default (BoolMask (replicate (length densitymap) true))
                    (BoolMask <$> bmask) = (BoolMask b : mask_array F))
    by by destruct bmask.
  rewrite Hmask. cbn [index_by_mask mask_astype_float].
  rewrite getitem_mask_eq by done. f_equal.
  unfold mean_per_pixel in Hn. destruct pixel.
  - injection Hn as ->. cbn [mbind result_bind]. fold comp. by rewrite Hl.
  - destruct (npix2nside (length densitymap)) as [nside|]; [| done].
    injection Hn as <-. cbn [or_raise mbind result_bind]. fold comp. by rewrite Hl.
Qed.

(** The outcome of a call depends on the density map through its
    length and its clipped relative densities only. *)
Lemma density2count_outcome_ext (state : rng) (d1 d2 : list F) (nbar : F)
    (mask : option (mask_array F)) (completeness : option (list F)) (pixel : bool) :
  map relative_density d1 = map relative_density d2 →
  (density2count npix2nside nside2pixarea rng poisson state d1 nbar mask completeness
     pixel).2
  = (density2count npix2nside nside2pixarea rng poisson state d2 nbar mask completeness
       pixel).2.
Proof.
  intros Hrel.
  assert (Hlen : length d1 = length d2)
    by (rewrite <- (length_map relative_density d1), Hrel; apply length_map).
  unfold density2count. rewrite Hlen.
  set (m := default (BoolMask (replicate (length d2) true)) mask).
  destruct m as [b | v]; cbn [index_by_mask]; [| done].
  unfold getitem_mask. rewrite Hlen.
  case_decide; [| done]. cbn [snd].
  unfold sampling_rate. by rewrite Hrel.
Qed.
End SamplerRates.

(** ** Clipped densities in [density2count] *)

Section ClippedRates.
Variable npix2nside : nat → option Z.
Variable nside2pixarea : Z → bool → B64.t.
Variable rng : Type.
Variable poisson : rng → list B64.t → option (list Z * rng).

Lemma clipped_relative_density (d : B64.t) :
  clipped d = true → relative_density d = zero.
Proof.
  unfold clipped. intros [Hv Hle]%andb_prop.
  by apply Clipping.relative_density_below.
Qed.

Lemma clipped_maps_relative (d1 d2 : list B64.t) :
  Forall2 (fun x y : B64.t => x = y ∨ (clipped x = true ∧ clipped y = true)) d1 d2 →
  map relative_density d1 = map relative_density d2.
Proof.
  induction 1 as [|x y d1 d2 Hxy _ IH]; [done |].
  cbn [map]. rewrite IH. f_equal.
  destruct Hxy as [-> | [Hx Hy]]; [done |].
  by rewrite !clipped_relative_density.
Qed.

(** C8: what [density2count] hands to the random source.  In a call
    with a boolean mask (or none) and a completeness (or none) of the
    length of the density map, the outcome is the Poisson draw at rates
    [lamb], one per pixel, with
    [lamb[p] = nbarpix * clip(1 + density[p], 0, inf) * completeness[p]]
    on the mask and [nbarpix * 0 * completeness[p]] off it, [nbarpix]
    being the mean number of objects per pixel.  At a density of -1, of -2
    or any float64 at or below -1 the rate is [nbarpix * 0 *
    completeness[p]], a zero when [nbarpix] and the completeness are
    finite; and replacing such densities by others of the kind, -2 by -1
    say, leaves the outcome of the call as it is. *)
Theorem C8_clipped_rate (state : rng) (densitymap : list B64.t) (nbar nbarpix : B64.t)
    (bmask : option (list bool)) (completeness : option (list B64.t)) (pixel : bool) :
  let b := default (replicate (length densitymap) true) bmask in
  let comp := default (astype_float b) completeness in
  length b = length densitymap →
  length comp = length densitymap →
  mean_per_pixel npix2nside nside2pixarea (length densitymap) nbar pixel = Some nbarpix →
  clipped [#-1] = true ∧ clipped [#-2] = true
  ∧ (∃ lamb,
       density2count npix2nside nside2pixarea rng poisson state densitymap nbar
         (BoolMask <$> bmask) completeness pixel
       = (if existsb (fun d => ltb d [#-1]) (select densitymap b)
          then [msg_clip] else [],
          or_raise (poisson state lamb) (ValueError "lam < 0 or lam is NaN"))
       ∧ length lamb = length densitymap
       ∧ ∀ (p : nat) (m : bool) (d c : B64.t),
           b !! p = Some m → densitymap !! p = Some d → comp !! p = Some c →
           lamb !! p
           = Some (mul (mul nbarpix (if m then np_clip (add one d) zero inf else zero)) c)
           ∧ (clipped d = true ∨ m = false →
              lamb !! p = Some (mul (mul nbarpix zero) c)
              ∧ (B64.is_finite nbarpix = true → B64.is_finite c = true →
                 ∃ s, lamb !! p = Some (S754_zero s))))
  ∧ (∀ densitymap',
       Forall2 (fun d d' : B64.t => d = d' ∨ (clipped d = true ∧ clipped d' = true))
         densitymap densitymap' →
       (density2count npix2nside nside2pixarea rng poisson state densitymap' nbar
          (BoolMask <$> bmask) completeness pixel).2
       = (density2count npix2nside nside2pixarea rng poisson state densitymap nbar
            (BoolMask <$> bmask) completeness pixel).2).
Proof.
  intros b comp Hb Hc Hn. split_and!; [reflexivity | reflexivity | |].
  - destruct (density2count_rates npix2nside nside2pixarea rng poisson state densitymap
                nbar nbarpix bmask completeness pixel Hb Hc Hn)
      as (lamb & Hcall & Hrate & Hlen).
    exists lamb. split_and!; [exact Hcall | exact Hlen |].
    intros p m d c Hm Hd Hcp.
    pose proof (sampling_rate_lookup _ _ _ _ _ p m d c Hrate Hc Hm Hd Hcp) as Hp.
    split; [exact Hp |].
    intros Hz.
    assert (Hp0 : lamb !! p = Some (mul (mul nbarpix zero) c)).
    { rewrite Hp. destruct Hz as [Hz | ->]; [| done].
      destruct m; [| done].
      by rewrite <- (clipped_relative_density d Hz). }
    split; [exact Hp0 |].
    intros Hfn Hfc. pose proof (Clipping.rate_zero nbarpix c Hfn Hfc) as Hrz.
    rewrite Hp0. destruct (mul (mul nbarpix zero) c) as [s| | |]; try done. eauto.
  - intros densitymap' Hd. symmetry.
    apply density2count_outcome_ext. by apply clipped_maps_relative.
Qed.
End ClippedRates.

Lemma C8_clipped_rate_witness :
  density2count (F := B64.t) (fun _ => None) Toy.nside2pixarea unit
    (fun _ lamb => Some (map (fun l => if B64.is_zero l then 0 else 1) lamb, tt))
    tt [ [#-1]; [#-2]; [#0] ] [#5] None None true
  = ([msg_clip], Ok ([0; 0; 1], tt))
  ∧ (density2count (F := B64.t) (fun _ => None) Toy.nside2pixarea unit
       (fun _ lamb => Some (map (fun l => if B64.is_zero l then 0 else 1) lamb, tt))
       tt [ [#-1]; [#-1]; [#0] ] [#5] None None true).2
    = Ok ([0; 0; 1], tt).
Proof.
  destruct (C8_clipped_rate (fun _ => None) Toy.nside2pixarea unit
              (fun _ lamb => Some (map (fun l => if B64.is_zero l then 0 else 1) lamb, tt))
              tt [ [#-1]; [#-2]; [#0] ] [#5] [#5] None None true)
    as (_ & _ & (lamb & Hcall & Hlen & Hrate) & Hsame);
    [reflexivity | reflexivity | reflexivity |].
  split.
  - vm_compute. reflexivity.
  - rewrite (Hsame [ [#-1]; [#-1]; [#0] ]).
    + vm_compute. reflexivity.
    + constructor; [by left |].
      constructor; [right; split; reflexivity |].
      constructor; [by left | constructor].
Defined.

(** ** A NaN in the density map *)

Section NanDensity.
Variable npix2nside : nat → option Z.
Variable nside2pixarea : Z → bool → B64.t.
Variable rng : Type.
Variable poisson : rng → list B64.t → option (list Z * rng).

Lemma below_select_nan (d : list B64.t) (b : list bool) (p : nat) :
  d !! p = Some S754_nan →
  existsb (fun x : B64.t => ltb x [#-1]) (select (<[p := zero]> d) b)
  = existsb (fun x : B64.t => ltb x [#-1]) (select d b).
Proof.
  revert b p. induction d as [|x d IH]; intros [|m b] [|p] Hp; try done.
  - injection Hp as ->.
    change (<[0%nat := zero]> (S754_nan :: d)) with ((zero : B64.t) :: d).
    cbn [select]. by destruct m.
  - change (<[S p := zero]> (x :: d)) with (x :: <[p := zero]> d).
    cbn [select]. specialize (IH b p Hp).
    destruct m; cbn [existsb]; by rewrite IH.
Qed.

(** X21: a NaN in the density map handed to [density2count].  The
    warning is printed or not as if the pixel held 0: the test
    [density < -1] is false on NaN.  The NaN goes through the clipping:
    inside the mask the rate handed to the random source is NaN at this
    pixel, whatever the mean density and the completeness are; outside
    the mask the density is not looked at and the rate is
    [nbarpix * 0 * completeness], as for any other pixel. *)
Theorem nan_density_rate (state : rng) (densitymap : list B64.t) (nbar nbarpix : B64.t)
    (bmask : option (list bool)) (completeness : option (list B64.t)) (pixel : bool)
    (p : nat) :
  let b := default (replicate (length densitymap) true) bmask in
  let comp := default (astype_float b) completeness in
  length b = length densitymap →
  length comp = length densitymap →
  mean_per_pixel npix2nside nside2pixarea (length densitymap) nbar pixel = Some nbarpix →
  densitymap !! p = Some S754_nan →
  (density2count npix2nside nside2pixarea rng poisson state densitymap nbar
     (BoolMask <$> bmask) completeness pixel).1
  = (density2count npix2nside nside2pixarea rng poisson state (<[p := zero]> densitymap)
       nbar (BoolMask <$> bmask) completeness pixel).1
  ∧ ∃ lamb,
      (density2count npix2nside nside2pixarea rng poisson state densitymap nbar
         (BoolMask <$> bmask) completeness pixel).2
      = or_raise (poisson state lamb) (ValueError "lam < 0 or lam is NaN")
      ∧ ∀ (m : bool) (c : B64.t),
          b !! p = Some m → comp !! p = Some c →
          lamb !! p = Some (if m then S754_nan else mul (mul nbarpix zero) c).
Proof.
  intros b comp Hb Hc Hn Hp.
  destruct (density2count_rates npix2nside nside2pixarea rng poisson state densitymap
              nbar nbarpix bmask completeness pixel Hb Hc Hn)
    as (lamb & Hcall & Hrate & Hlen).
  split.
  - destruct (density2count_rates npix2nside nside2pixarea rng poisson state
                (<[p := zero]> densitymap) nbar nbarpix bmask completeness pixel)
      as (lamb' & Hcall' & _); rewrite ?length_insert; [done .. |].
    rewrite Hcall, Hcall'. cbn [fst]. rewrite length_insert. fold b.
    by rewrite below_select_nan.
  - exists lamb. split; [by rewrite Hcall |].
    intros m c Hm Hcp.
    rewrite (sampling_rate_lookup _ _ _ _ _ p m S754_nan c Hrate Hc Hm Hp Hcp).
    destruct m; [| done].
    change (relative_density (S754_nan : B64.t)) with (S754_nan : B64.t).
    f_equal. by destruct nbarpix, c.
Qed.
End NanDensity.

Lemma nan_density_rate_witness :
  density2count (F := B64.t) (fun _ => None) Toy.nside2pixarea unit
    (fun _ lamb => if existsb B64.is_nan lamb then None else Some ([], tt))
    tt [ [#0]; S754_nan; [#-1] ] [#5] (Some (BoolMask [true; true; false]))
    (Some [ [#1]; [#1]; [#1] ]) true
  = ([], Raise (ValueError "lam < 0 or lam is NaN"))
  ∧ ∃ lamb : list B64.t,
      (density2count (F := B64.t) (fun _ => None) Toy.nside2pixarea unit
         (fun _ lamb => if existsb B64.is_nan lamb then None else Some ([], tt))
         tt [ [#0]; S754_nan; [#-1] ] [#5] (Some (BoolMask [true; true; false]))
         (Some [ [#1]; [#1]; [#1] ]) true).2
      = or_raise (if existsb B64.is_nan lamb then None else Some ([], tt))
          (ValueError "lam < 0 or lam is NaN")
      ∧ lamb !! 1%nat = Some S754_nan.
Proof.
  split; [vm_compute; reflexivity |].
  destruct (nan_density_rate (fun _ => None) Toy.nside2pixarea unit
              (fun _ lamb => if existsb B64.is_nan lamb then None else Some ([], tt))
              tt [ [#0]; S754_nan; [#-1] ] [#5] [#5] (Some [true; true; false])
              (Some [ [#1]; [#1]; [#1] ]) true 1%nat)
    as (_ & lamb & Hcall & Hrate); [reflexivity ..|].
  exists lamb. split; [exact Hcall |].
  exact (Hrate true [#1] eq_refl eq_refl).
Defined.

(** ** Signs in float64 *)

Module Signs.
Import B64 Rounding.

Lemma add_not_negative (x y : B64.t) :
  not_negative x = true → not_negative y = true → not_negative (add x y) = true.
Proof.
  destruct x as [[]|[]| |[] mx ex], y as [[]|[]| |[] my ey]; try done.
  intros _ _. cbn [add B64_arith SFadd cond_Zopp].
  set (ez := Z.min ex ey).
  set (m := Z.pos (shl_align mx ex ez).1 + Z.pos (shl_align my ey ez).1).
  assert (Hm : 0 < m) by (unfold m; lia).
  destruct m as [|m|m]; try lia. cbn [binary_normalize].
  pose proof (binary_round_sign false m ez) as Hs.
  destruct (binary_round prec emax false m ez); try done; by subst.
Qed.

Lemma neg_zero_add (x : B64.t) : not_negative x = true → add neg_zero x = x.
Proof. by destruct x as [[]|[]| |[] mx ex]. Qed.

Lemma mul_not_negative (x y : B64.t) :
  not_negative x = true → not_negative y = true → not_negative (mul x y) = true.
Proof.
  destruct x as [[]|[]| |[] mx ex], y as [[]|[]| |[] my ey]; try done.
  intros _ _. cbn [mul B64_arith SFmul xorb].
  pose proof (binary_round_aux_sign false (Z.pos (mx * my)) (ex + ey) loc_Exact
                ltac:(lia)) as Hs.
  destruct (binary_round_aux prec emax false (Z.pos (mx * my)) (ex + ey) loc_Exact);
    try done; by subst.
Qed.

Lemma div_not_negative (x y : B64.t) :
  not_negative x = true → not_negative y = true → not_negative (div x y) = true.
Proof.
  destruct x as [[]|[]| |[] mx ex], y as [[]|[]| |[] my ey]; try done.
  intros _ _. cbn [div B64_arith SFdiv xorb].
  unfold SFdiv_core_binary.
  set (e' := Z.min _ _). set (s := ex - ey - e').
  set (m' := match s with
             | 0 => Z.pos mx
             | Z.pos _ => Z.shiftl (Z.pos mx) s
             | Z.neg _ => 0
             end).
  assert (Hm' : 0 ≤ m').
  { unfold m'. destruct s; try lia. apply Z.shiftl_nonneg. lia. }
  pose proof (Z.div_eucl_eq m' (Z.pos my) ltac:(lia)) as Heq.
  pose proof (Z.mod_pos_bound m' (Z.pos my) ltac:(lia)) as Hmod.
  unfold Z.modulo in Hmod.
  destruct (Z.div_eucl m' (Z.pos my)) as [q r].
  assert (Hq : 0 ≤ q) by nia.
  pose proof (binary_round_aux_sign false q e' (new_location (Z.pos my) r) Hq)
    as Hs.
  destruct (binary_round_aux prec emax false q e' (new_location (Z.pos my) r));
    try done; by subst.
Qed.
End Signs.

(** ** Rounding below one *)

Module BelowOne.
Import B64 Rounding Scaling64.

Lemma shr_spec mrs (e n : Z) :
  0 ≤ shr_m mrs →
  shr_m (shr mrs e n).1 = shr_m mrs / 2 ^ Z.max n 0
  ∧ (shr mrs e n).2 = e + Z.max n 0.
Proof.
  intros Hm. unfold shr. destruct n as [|k|k]; cbn [fst snd].
  - rewrite Z.max_r by lia. rewrite Z.pow_0_r, Z.div_1_r. lia.
  - rewrite B64Count.iter_pos_nat, shr_m_iter by done.
    rewrite positive_nat_Z, Z.max_l by lia. done.
  - rewrite Z.max_r by lia. rewrite Z.pow_0_r, Z.div_1_r. lia.
Qed.

(** One stage of [binary_round_aux]: a mantissa [m <= 2^-e] at an
    exponent [e <= -52] is shifted to a mantissa [m' <= 2^-e'] at an
    exponent [e' <= -52]. *)
Lemma shr_fexp_below_one (m e : Z) l :
  0 ≤ m ≤ 2 ^ (- e) → e ≤ -52 →
  let r := shr_fexp prec emax m e l in
  0 ≤ shr_m r.1 ≤ 2 ^ (- r.2) ∧ r.2 ≤ -52
  ∧ (m < 2 ^ (- e) → shr_m r.1 < 2 ^ (- r.2)).
Proof.
  intros Hm He. cbv zeta. unfold shr_fexp.
  destruct (shr_spec (shr_record_of_loc m l) e (fexp prec emax (Zdigits2 m + e) - e))
    as [-> ->]; [rewrite shr_record_of_loc_m; lia |].
  rewrite shr_record_of_loc_m.
  assert (HD : Zdigits2 m ≤ - e + 1).
  { apply Zdigits2_le; [lia |]. split; [lia |].
    rewrite Z.pow_add_r by lia. lia. }
  pose proof (Zdigits2_nonneg m) as HD0.
  unfold fexp, SpecFloat.emin, prec, emax.
  set (k := Z.max (Z.max (Zdigits2 m + e - 53) (3 - 1024 - 53) - e) 0).
  assert (Hk : 0 ≤ k ≤ - e - 52) by lia.
  assert (Hp : 0 < 2 ^ k) by (apply Z.pow_pos_nonneg; lia).
  assert (Hpow : 2 ^ (- e) = 2 ^ (- (e + k)) * 2 ^ k).
  { rewrite <- Z.pow_add_r by lia. f_equal. lia. }
  split_and!.
  - apply Z.div_pos; lia.
  - rewrite Hpow in Hm. apply Z.div_le_upper_bound; [lia |]. lia.
  - lia.
  - intros Hlt. rewrite Hpow in Hlt.
    apply Z.div_lt_upper_bound; [lia |]. lia.
Qed.

Lemma binary_round_aux_below_one (s : bool) (m e : Z) l :
  0 ≤ m < 2 ^ (- e) → e ≤ -52 →
  match binary_round_aux prec emax s m e l with
  | S754_zero _ => True
  | S754_finite _ m' e' => e' ≤ -52 ∧ Z.pos m' ≤ 2 ^ (- e')
  | _ => False
  end.
Proof.
  intros Hm He. unfold binary_round_aux.
  destruct (shr_fexp_below_one m e l) as (H1 & He1 & Hlt1); [lia | done |].
  specialize (Hlt1 ltac:(lia)).
  destruct (shr_fexp prec emax m e l) as [mrs' e1]. cbn [fst snd] in *.
  pose proof (round_nearest_even_bounds (shr_m mrs') (loc_of_shr_record mrs')) as Hr.
  set (m3 := round_nearest_even (shr_m mrs') (loc_of_shr_record mrs')) in *.
  destruct (shr_fexp_below_one m3 e1 loc_Exact) as (H2 & He2 & _); [lia | done |].
  destruct (shr_fexp prec emax m3 e1 loc_Exact) as [mrs'' e2]. cbn [fst snd] in *.
  destruct (shr_m mrs'') as [|m'|m']; [done | | lia].
  rewrite (proj2 (Z.leb_le e2 (emax - prec))) by (unfold emax, prec; lia).
  split; [done | lia].
Qed.

Lemma binary_round_below_one (s : bool) (p : positive) (e : Z) :
  Z.pos p < 2 ^ (- e) → e ≤ -52 →
  match binary_round prec emax s p e with
  | S754_zero _ => True
  | S754_finite _ m' e' => e' ≤ -52 ∧ Z.pos m' ≤ 2 ^ (- e')
  | _ => False
  end.
Proof.
  intros Hp He. unfold binary_round.
  set (fe := fexp prec emax (Z.pos (digits2_pos p) + e)).
  destruct (Z.le_gt_cases fe e) as [Hle | Hgt].
  - pose proof (B64Count.shl_align_spec p e fe Hle) as Hm.
    pose proof (B64Count.shl_align_exp p e fe Hle) as Hx.
    destruct (shl_align p e fe) as [p1 e1]. cbn [fst snd] in *. subst e1.
    assert (Hfe : fe ≤ -52) by lia.
    apply binary_round_aux_below_one; [| done].
    split; [lia |]. rewrite Hm.
    replace (- fe) with (- e + (e - fe)) by lia.
    rewrite Z.pow_add_r by lia.
    assert (0 < 2 ^ (e - fe)) by (apply Z.pow_pos_nonneg; lia). nia.
  - rewrite B64Count.shl_align_id by lia.
    apply binary_round_aux_below_one; [lia | done].
Qed.

Lemma not_below_finite (m' big : positive) (e' eb : Z) :
  e' < eb ∨ (e' = eb ∧ Z.pos m' ≤ Z.pos big) →
  SFltb (S754_finite true m' e') (S754_finite true big eb) = false.
Proof.
  unfold SFltb, SFcompare. intros [Hlt | [-> Hle]].
  - by rewrite (proj2 (Z.compare_lt_iff _ _) Hlt).
  - rewrite Z.compare_refl. fold (Pos.compare m' big).
    destruct (Pos.compare_spec m' big); [done | done | lia].
Qed.

(** A float64 with the sign bit clear, less one, is not below -1. *)
Lemma sub_one_not_below (q : B64.t) :
  not_negative q = true → ltb (sub q one) [#-1] = false.
Proof.
  destruct q as [[]|[]| |[] m e]; try done.
  intros _. rewrite B64Facts.b64_one_eq, B64Facts.b64_minus_one_eq.
  cbn [sub B64_arith SFsub cond_Zopp].
  set (ez := Z.min e (-52)).
  pose proof (B64Count.shl_align_spec m e ez ltac:(lia)) as Ha.
  pose proof (B64Count.shl_align_spec 4503599627370496 (-52) ez ltac:(lia)) as Hb.
  set (a := Z.pos (shl_align m e ez).1) in *.
  set (b := Z.pos (shl_align 4503599627370496 (-52) ez).1) in *.
  assert (Hb' : b = 2 ^ (- ez)).
  { rewrite Hb. change (Z.pos 4503599627370496) with (2 ^ 52).
    rewrite <- Z.pow_add_r by lia. f_equal. lia. }
  assert (Hapos : 0 < a) by (unfold a; lia).
  destruct (a - b) as [|M|M] eqn:HM; cbn [binary_normalize].
  - done.
  - pose proof (binary_round_sign false M ez) as Hs.
    destruct (binary_round prec emax false M ez) as [s'|s'| |s' m' e']; try done;
      by subst.
  - pose proof (binary_round_sign true M ez) as Hs.
    pose proof (binary_round_below_one true M ez ltac:(lia) ltac:(lia)) as Hr.
    destruct (binary_round prec emax true M ez) as [s'|s'| |s' m' e']; try done.
    subst s'. destruct Hr as [He' Hm'].
    apply not_below_finite.
    destruct (Z.eq_dec e' (-52)) as [-> | Hne]; [right | left; lia].
    split; [done |]. exact Hm'.
Qed.
End BelowOne.

(** ** What every partial sum of [np.sum] satisfies *)

Section SumClosed.
Context {F : Type} `{Arith F}.
Variable P : F → Prop.
Hypothesis P_zero : P zero.
Hypothesis P_add : ∀ x y, P x → P y → P (add x y).
Hypothesis P_start : ∀ x, P x → P (add neg_zero x).

Lemma foldl_closed (a : list F) (x : F) : P x → Forall P a → P (foldl add x a).
Proof using P_add.
  revert x. induction a as [|y a IH]; intros x Hx Ha; [done |].
  apply Forall_cons in Ha as [Hy Ha]. cbn [foldl]. apply IH; [| done]. by apply P_add.
Qed.

Lemma foldl_start_closed (a : list F) :
  a ≠ [] → Forall P a → P (foldl add neg_zero a).
Proof using P_add P_start.
  destruct a as [|y a]; [done |]. intros _ Ha.
  apply Forall_cons in Ha as [Hy Ha]. cbn [foldl].
  apply foldl_closed; [| done]. by apply P_start.
Qed.

Lemma zip_with_add_closed (r a : list F) :
  Forall P r → Forall P a → Forall P (zip_with add r a).
Proof using P_add.
  intros Hr. revert a. induction Hr as [|x r Hx Hr IH]; intros [|y a] Ha; try done.
  apply Forall_cons in Ha as [Hy Ha]. cbn [zip_with].
  constructor; [by apply P_add | by apply IH].
Qed.

Lemma accumulate8_closed (k : nat) (r a : list F) :
  Forall P r → Forall P a →
  Forall P (accumulate8 k r a).1 ∧ Forall P (accumulate8 k r a).2.
Proof using P_add.
  revert r a. induction k as [|k IH]; intros r a Hr Ha; [done |].
  cbn [accumulate8]. apply IH.
  - apply zip_with_add_closed; [done | by apply Forall_take].
  - by apply Forall_drop.
Qed.

Lemma sum8_closed (r : list F) : Forall P r → P (sum8 r).
Proof using P_zero P_add.
  intros Hr. unfold sum8.
  destruct r as [|r0 [|r1 [|r2 [|r3 [|r4 [|r5 [|r6 [|r7 [|? ?]]]]]]]]]; try done.
  repeat (apply Forall_cons in Hr as [? Hr]).
  repeat apply P_add; done.
Qed.

Lemma block_sum_closed (a : list F) : Forall P a → P (block_sum a).
Proof using P_zero P_add.
  intros Ha. unfold block_sum.
  destruct (accumulate8_closed (length a / 8 - 1) (take 8 a) (drop 8 a))
    as [Hr Hrest]; [by apply Forall_take | by apply Forall_drop |].
  destruct (accumulate8 _ _ _) as [r rest]. cbn [fst snd] in *.
  apply foldl_closed; [by apply sum8_closed | done].
Qed.

Lemma pairwise_sum_fuel_closed (fuel : nat) (a : list F) :
  a ≠ [] → Forall P a → P (pairwise_sum_fuel fuel a).
Proof using P_zero P_add P_start.
  revert a. induction fuel as [|fuel IH]; intros a Hne Ha; cbn [pairwise_sum_fuel].
  - destruct (length a <? 8)%nat; [by apply foldl_start_closed |].
    destruct (length a <=? 128)%nat; by apply block_sum_closed.
  - destruct (length a <? 8)%nat; [by apply foldl_start_closed |].
    destruct (Nat.leb_spec (length a) 128) as [Hle | Hgt]; [by apply block_sum_closed |].
    pose proof (half8_bounds _ Hgt) as Hn2.
    set (n2 := (length a / 2 - (length a / 2) mod 8)%nat) in *.
    apply P_add; apply IH.
    + intros Hd. apply (f_equal length) in Hd. rewrite length_take in Hd.
      simpl in Hd. lia.
    + by apply Forall_take.
    + intros Hd. apply (f_equal length) in Hd. rewrite length_drop in Hd.
      simpl in Hd. lia.
    + by apply Forall_drop.
Qed.

(** A property that 0.0 has, that sums keep and that adding to -0.0
    keeps holds of [np.sum] when it holds of every element. *)
Lemma np_sum_closed (a : list F) : Forall P a → P (np_sum a).
Proof using P_zero P_add P_start.
  intros Ha. unfold np_sum. destruct a as [|x a]; [done |].
  apply P_start. by apply pairwise_sum_fuel_closed.
Qed.
End SumClosed.

(** ** The density is never below -1 *)

Section DensityFloor.

Lemma Forall_select {A} (P : A → Prop) (a : list A) (msk : list bool) :
  Forall P a → Forall P (select a msk).
Proof.
  intros Ha. revert msk. induction Ha as [|x a Hx Ha IH]; intros [|m msk]; try done.
  cbn [select]. destruct m; [constructor |]; auto.
Qed.

Lemma np_sum_not_negative (a : list B64.t) :
  Forall (fun x => not_negative x = true) a → not_negative (np_sum a) = true.
Proof.
  apply (np_sum_closed (fun x => not_negative x = true)).
  - reflexivity.
  - apply Signs.add_not_negative.
  - intros x Hx. by rewrite Signs.neg_zero_add.
Qed.

Lemma masked2_Forall (Pa Pb Q : B64.t → Prop) (f : B64.t → B64.t → B64.t) (z : B64.t)
    (msk : list bool) (a b : list B64.t) :
  Q z → Forall Pa a → Forall Pb b →
  (∀ x y, Pa x → Pb y → Q (f x y)) →
  Forall Q (masked2 f z msk a b).
Proof.
  intros Hz Ha Hb Hf. revert a b Ha Hb.
  induction msk as [|m msk IH]; intros a b Ha Hb; [done |].
  destruct Ha as [|x a Hx Ha]; [done |]. destruct Hb as [|y b Hy Hb]; [done |].
  cbn [masked2]. constructor; [| by apply IH].
  destruct m; [by apply Hf | done].
Qed.

Lemma existsb_Forall_false {A} (g : A → bool) (l : list A) :
  Forall (fun x => g x = false) l → existsb g l = false.
Proof. induction 1 as [|x l Hx _ IH]; [done |]. cbn [existsb]. by rewrite Hx, IH. Qed.

Variable npix2nside : nat → option Z.
Variable nside2pixarea : Z → bool → B64.t.
Variable rng : Type.
Variable poisson : rng → list B64.t → option (list Z * rng).

(** X17: in float64, counts and a completeness with the sign bit clear
    (+0, positive numbers, +inf, or NaN) give a density map with no entry
    below -1: on the mask [count / expected] has its sign bit clear or is
    NaN, and subtracting 1 rounds to -1 at least; off the mask the density
    is 0.  So [density2count] never prints its warning on a density map
    that [count2density] made of such counts, whatever the mask, the
    completeness and the mean density of the call. *)
Theorem density_at_least_minus_one (count : list B64.t)
    (mask_frac : option (list B64.t)) (mask : option (mask_array B64.t))
    (density : list B64.t) :
  let frac := effective_frac count mask_frac in
  count2density count mask_frac mask = Ok density →
  Forall (fun c => not_negative c = true) count →
  Forall (fun f => not_negative f = true) frac →
  Forall (fun d => ltb d [#-1] = false) density
  ∧ ∀ state nbar mask' completeness pixel,
      (density2count npix2nside nside2pixarea rng poisson state density nbar mask'
         completeness pixel).1 = [].
Proof.
  cbv zeta. intros Hr Hc Hf.
  destruct (count2density_Ok_lengths _ _ _ _ Hr) as [Hlf Hlm].
  rewrite count2density_pointwise in Hr by done. injection Hr as <-.
  set (frac := effective_frac count mask_frac) in *.
  set (msk := effective_mask count mask) in *.
  assert (Hd : Forall (fun d : B64.t => ltb d [#-1] = false) (density_spec count frac msk)).
  { unfold density_spec.
    apply (masked2_Forall (fun c => not_negative c = true)
             (fun f => not_negative f = true)); [reflexivity | done | done |].
    intros c f Hcn Hfn. apply BelowOne.sub_one_not_below.
    apply Signs.div_not_negative; [done |].
    apply Signs.div_not_negative.
    - apply Signs.mul_not_negative; [done |].
      by apply np_sum_not_negative, Forall_select.
    - by apply np_sum_not_negative, Forall_select. }
  split; [exact Hd |].
  intros state nbar mask' completeness pixel. unfold density2count.
  destruct (default _ mask') as [b | v]; cbn [index_by_mask]; [| done].
  unfold getitem_mask. case_decide; [| done]. cbn [fst].
  rewrite existsb_Forall_false; [done |]. by apply Forall_select.
Qed.
End DensityFloor.

Lemma density_at_least_minus_one_witness :
  ∃ density,
    count2density (F := B64.t) [ [#0]; [#2]; [#3] ] None None = Ok density
    ∧ Forall (fun d : B64.t => ltb d [#-1] = false) density
    ∧ (density2count (fun _ => None) Toy.nside2pixarea unit (fun _ _ => None)
         tt density [#5] None None true).1 = [].
Proof.
  eassert (Hr : count2density (F := B64.t) [ [#0]; [#2]; [#3] ] None None = Ok _)
    by (vm_compute; reflexivity).
  destruct (density_at_least_minus_one (fun _ => None) Toy.nside2pixarea unit
              (fun _ _ => None) _ None None _ Hr) as [Hd Hp].
  - repeat constructor.
  - repeat constructor.
  - eexists. split_and!; [exact Hr | exact Hd | apply Hp].
Defined.

(** ** Calls with a quantity that return *)

Section QuantityReturns.
Context {F : Type} `{Arith F}.
Variable nside2npix : Z → nat.
Variable ang2pix : Z → F → F → option Z.
Variable nside2pixarea : Z → bool → F.

Lemma Forall_zip_fst {A B} (P : A → Prop) (a : list A) (b : list B) :
  Forall P a → Forall (fun x : A * B => P x.1) (zip a b).
Proof.
  intros Ha. revert b. induction Ha as [|x a Hx _ IH]; intros [|y b]; simpl;
    constructor; auto.
Qed.

Lemma add_at_zip_returns (npix : nat) (ipix : list Z) (v : list F) :
  Forall (fun i => 0 ≤ i < Z.of_nat npix) ipix →
  ∃ a, add_at (zeros npix) (zip ipix v) = Ok a ∧ length a = npix.
Proof.
  intros Hrange.
  destruct (add_at_in_range (zeros npix) (zip ipix v)) as [a Ha].
  - unfold zeros. rewrite length_replicate.
    eapply Forall_impl; [by apply Forall_zip_fst |]. by intros [i y].
  - exists a. split; [done |]. apply add_at_length in Ha.
    unfold zeros in Ha. by rewrite length_replicate in Ha.
Qed.

(** One pass of the loop goes through when the row and its weights have
    one entry per object and every object is on the grid. *)
Lemma weighted_mean_map_returns npix ipix (bool_mask : list bool) (x : F) q w :
  length q = length ipix →
  length w = length ipix →
  Forall (fun i => 0 ≤ i < Z.of_nat npix) ipix →
  length bool_mask = npix →
  ∃ outmap, weighted_mean_map npix ipix bool_mask x q w = Ok outmap.
Proof.
  intros Hq Hw Hrange Hbm. unfold weighted_mean_map.
  rewrite broadcast_to_same by done. cbn [mbind result_bind].
  destruct (add_at_zip_returns npix ipix w Hrange) as (sum_w & -> & Hlw).
  cbn [mbind result_bind].
  rewrite broadcast2_same by congruence. cbn [mbind result_bind].
  rewrite map_mul_zip.
  rewrite broadcast_to_same by (rewrite length_zip_with; lia).
  cbn [mbind result_bind].
  destruct (add_at_zip_returns npix ipix (zip_with mul q w) Hrange) as (outmap & -> & Hlo).
  cbn [mbind result_bind].
  rewrite !getitem_mask_eq by congruence. cbn [mbind result_bind].
  unfold setitem_mask_array.
  rewrite decide_True by congruence.
  rewrite decide_True.
  2: { rewrite length_zip_with, !select_length by congruence. lia. }
  cbn [mbind result_bind]. unfold setitem_mask.
  rewrite decide_True by (rewrite length_map, length_scatter; congruence).
  eauto.
Qed.

(** X22: a call with a quantity and no weight returns as soon as [ra],
    [dec] and every row of [quantity] have one entry per object, healpy
    places every object on the pixel grid, and a supplied mask has one
    entry per pixel. *)
Theorem quantity_call_returns (ra dec : list F) (q : ndarray F) (nside : Z)
    (mask : option (mask_array F)) (fill_UNSEEN return_extra : bool) (ipix : list Z) :
  length ra = length dec →
  Forall (fun r => length r = length ra) (atleast_2d q) →
  pixels ang2pix nside ra dec = Ok ipix →
  Forall (fun i => 0 ≤ i < Z.of_nat (nside2npix nside)) ipix →
  (∀ m, mask = Some m → mask_len m = nside2npix nside) →
  ∃ outmaps count rmask ex,
    make_healpix_map nside2npix ang2pix nside2pixarea
      ra dec (Some q) nside mask None fill_UNSEEN return_extra
    = Ok (outmaps, count, rmask, ex)
    ∧ length outmaps = length (atleast_2d q).
Proof.
  intros Hlen Hrows Hpix Hrange Hmask.
  pose proof (pixels_length _ _ _ _ _ Hlen Hpix) as Hn.
  unfold make_healpix_map, prepare_quantity. cbn [assert mbind result_bind].
  rewrite (bool_decide_eq_true_2 (shape (Arr2 (atleast_2d q)) !! 1%nat
                                  = shape (Arr2 (ones_like (atleast_2d q))) !! 1%nat)).
  2: { unfold ones_like. destruct (atleast_2d q) as [|r rows]; simpl; [done |].
       by rewrite length_map. }
  rewrite (bool_decide_eq_true_2 (length ra = length dec)) by done.
  cbn [assert mbind result_bind].
  assert (match mask with
          | Some m => assert (bool_decide (mask_len m = nside2npix nside)) msg_mask_len
          | None => Ok ()
          end = Ok ()) as ->.
  { destruct mask as [m|]; [| done]. by rewrite bool_decide_eq_true_2 by auto. }
  cbn [mbind result_bind]. rewrite Hpix. cbn [mbind result_bind].
  destruct (add_at_in_range (zeros (nside2npix nside)) (map (fun i => (i, one)) ipix))
    as [count1 Hc1].
  { unfold zeros. rewrite length_replicate, Forall_fmap.
    eapply Forall_impl; [exact Hrange |]. by intros i Hi. }
  rewrite Hc1. cbn [mbind result_bind].
  apply add_at_length in Hc1 as Hl1. unfold zeros in Hl1. rewrite length_replicate in Hl1.
  assert (Hbm : length (bool_mask_of mask count1) = nside2npix nside).
  { destruct mask as [m|]; simpl; [| by rewrite length_map].
    rewrite astype_bool_length. auto. }
  unfold setitem_mask. rewrite decide_True by (rewrite length_map; congruence).
  cbn [mbind result_bind].
  assert (match mask with
          | Some _ => Ok ()
          | None =>
              inmask ← getitem_mask
                (fill count1 (map negb (bool_mask_of mask count1))
                   (if fill_UNSEEN then UNSEEN else zero))
                (bool_mask_of mask count1);
              assert (forallb (fun c => gtb c zero) inmask) msg_count
          end = Ok ()) as ->.
  { destruct mask as [m|]; [done |].
    rewrite getitem_mask_eq by (rewrite length_fill; congruence).
    cbn [mbind result_bind bool_mask_of]. by rewrite derived_mask_check. }
  cbn [mbind result_bind].
  destruct (mapM_total
              (fun i => qi ← row (atleast_2d q) i;
                        wi ← row (ones_like (atleast_2d q)) i;
                        weighted_mean_map (nside2npix nside) ipix
                          (bool_mask_of mask count1)
                          (if fill_UNSEEN then UNSEEN else zero) qi wi)
              (seq 0 (length (atleast_2d q)))) as [outmaps Hmaps].
  { apply Forall_forall. intros i Hi. apply elem_of_seq in Hi as [_ Hi].
    destruct (lookup_lt_is_Some_2 (atleast_2d q) i) as [qi Hqi]; [lia |].
    unfold row. rewrite Hqi. cbn [mbind result_bind].
    unfold ones_like. rewrite list_lookup_fmap, Hqi. cbn [fmap option_fmap option_map
      mbind result_bind].
    rewrite Forall_forall in Hrows. pose proof (Hrows qi) as Hqlen.
    apply weighted_mean_map_returns; try done.
    - rewrite Hqlen, Hn; [done |]. by eapply list_elem_of_lookup_2.
    - rewrite length_map, Hqlen, Hn; [done |]. by eapply list_elem_of_lookup_2. }
  cbn [quantity_maps]. rewrite Hmaps. cbn [mbind result_bind].
  apply mapM_Ok_length in Hmaps as Hlo. rewrite length_seq in Hlo.
  destruct return_extra; [| eauto 10].
  destruct (make_extra_total nside2pixarea nside ipix
              (fill count1 (map negb (bool_mask_of mask count1))
                 (if fill_UNSEEN then UNSEEN else zero))
              (bool_mask_of mask count1)) as [e He].
  - rewrite length_fill. congruence.
  - rewrite Hbm. eapply Forall_impl; [exact Hrange |]. intros i Hi. simpl in Hi.
    rewrite norm_index_in_range by done. eauto.
  - rewrite He. cbn [mbind result_bind]. eauto 10.
Qed.
End QuantityReturns.

Lemma quantity_call_returns_witness :
  ∃ outmaps count rmask,
    make_healpix_map (F := B64.t) Toy.nside2npix Toy.ang2pix Toy.nside2pixarea
      [ [#10]; [#10] ] [ [#10]; [#20] ] (Some (Arr1 [ [#3]; [#5] ])) 1 None None false false
    = Ok (outmaps, count, rmask, None)
    ∧ length outmaps = 1%nat.
Proof.
  destruct (quantity_call_returns (F := B64.t) Toy.nside2npix Toy.ang2pix Toy.nside2pixarea
              [ [#10]; [#10] ] [ [#10]; [#20] ] (Arr1 [ [#3]; [#5] ]) 1 None false false
              [0; 0])
    as (outmaps & count & rmask & ex & Hr & Hl).
  - reflexivity.
  - repeat constructor.
  - vm_compute. reflexivity.
  - repeat constructor; by vm_compute.
  - intros m [=].
  - assert (ex = None) as -> by (vm_compute in Hr; by injection Hr as _ _ _ <-).
    exists outmaps, count, rmask. split; [exact Hr | exact Hl].
Defined.

(** ** The empty catalog *)

Section EmptyCatalog.
Variable nside2npix : Z → nat.
Variable ang2pix : Z → B64.t → B64.t → option Z.
Variable nside2pixarea : Z → bool → B64.t.

Lemma derived_mask_zeros (n : nat) :
  map (fun c : B64.t => gtb c zero) (zeros n) = replicate n false.
Proof. induction n as [|n IH]; simpl; [done | by rewrite <- IH]. Qed.

Lemma fill_all (n : nat) (x : B64.t) :
  fill (zeros n) (map negb (replicate n false)) x = replicate n x.
Proof. induction n as [|n IH]; simpl; [done | by rewrite <- IH]. Qed.

Lemma select_none {A} (a : list A) (n : nat) : select a (replicate n false) = [].
Proof. revert a. induction n as [|n IH]; intros [|y a]; simpl; auto. Qed.

Lemma count_true_none (n : nat) : count_true (replicate n false) = 0%nat.
Proof. induction n as [|n IH]; simpl; [done | exact IH]. Qed.

Lemma astype_float_none (n : nat) :
  astype_float (replicate n false) = (replicate n zero : list B64.t).
Proof. unfold astype_float. by rewrite fmap_replicate. Qed.

(** X23: on the empty catalog, once healpy has answered the (empty)
    query for the pixels, a counting call with no mask returns: the count
    map holds the fill value everywhere and the derived mask is 0.0
    everywhere.  With [return_extra] the total count is 0 and the four
    densities of the dictionary are NaN, the result of dividing 0 objects
    by 0 pixels of the mask. *)
Theorem empty_catalog (nside : Z) (weight : option (ndarray B64.t))
    (fill_UNSEEN return_extra : bool) (ipix : list Z) :
  pixels ang2pix nside [] [] = Ok ipix →
  make_healpix_map nside2npix ang2pix nside2pixarea
    [] [] None nside None weight fill_UNSEEN return_extra
  = Ok ([],
        replicate (nside2npix nside) (if fill_UNSEEN then UNSEEN else zero),
        RealMask (replicate (nside2npix nside) zero),
        if return_extra
        then Some {| count_tot_in_mask := zero;
                     count_per_pixel_in_mask := S754_nan;
                     count_per_steradian_in_mask := S754_nan;
                     count_per_sqdegree_in_mask := S754_nan;
                     count_per_sqarcmin_in_mask := S754_nan;
                     ipix_masked := [] |}
        else None).
Proof.
  intros Hpix. unfold make_healpix_map.
  cbn [prepare_quantity mbind result_bind bool_mask_of quantity_maps].
  rewrite Hpix. change (Ok [] = Ok ipix) in Hpix. injection Hpix as <-.
  cbn [mbind result_bind map add_at].
  rewrite derived_mask_zeros. unfold setitem_mask.
  rewrite decide_True by (unfold zeros; by rewrite length_map, !length_replicate).
  cbn [mbind result_bind]. rewrite fill_all.
  rewrite getitem_mask_eq by by rewrite !length_replicate.
  cbn [mbind result_bind]. rewrite select_none. cbn [forallb assert mbind result_bind].
  rewrite astype_float_none.
  destruct return_extra; [| reflexivity].
  unfold make_extra. rewrite getitem_mask_eq by by rewrite !length_replicate.
  cbn [mbind result_bind mapM]. rewrite select_none, count_true_none.
  reflexivity.
Qed.
End EmptyCatalog.

Lemma empty_catalog_witness :
  ∃ e,
    make_healpix_map (F := B64.t) Toy.nside2npix Toy.ang2pix Toy.nside2pixarea
      [] [] None 1 None None true true
    = Ok ([], replicate 12 UNSEEN, RealMask (replicate 12 zero), Some e)
    ∧ count_tot_in_mask e = zero
    ∧ count_per_pixel_in_mask e = S754_nan.
Proof.
  eexists. split.
  - exact (empty_catalog Toy.nside2npix Toy.ang2pix Toy.nside2pixarea 1 None true true []
             eq_refl).
  - split; reflexivity.
Defined.
